(** * The relationship graph view

    A model of [src/components/visualization/GraphView.tsx]: the React
    component that fetches a graph, copies it into a working model, hands
    the copy to a d3-force simulation and wires drag, click and zoom
    handlers onto the drawing surface.

    Conventions of the model.
    - JavaScript numbers are exact rationals ([Q]); [undefined], [null] and
      [NaN] in a numeric field are [None].
    - Objects live in a store and are named by their address, so that two
      fields holding the same object are visibly aliased.
    - d3 itself is a dependency, not part of the component.  Its simulation
      kernel (alpha schedule, tick, timer, pinning by [fx]/[fy], the link
      force's id lookup) is written out after d3-force; the numerical force
      laws, the phyllotaxis start positions, the default decay constant,
      [Math.sqrt] and the string-to-number coercion are fields of the class
      [D3].
    - React batches the state updates of one event handler or one promise
      continuation and then runs the effects whose dependencies changed, in
      declaration order; the [svg] element exists exactly while [loading] is
      false, because the component renders the spinner in its place.
    - A character of a string stands for one UTF-16 code unit.

    The second part of the file follows the component outwards: what the
    graph effect draws (glyphs, labels, the lines of a tick, the panel and
    the line under the drawing), the axios instance of [src/lib/api.ts]
    that [fetchGraphData] calls, the string helpers of [src/lib/utils.ts],
    and the [NotificationsDropdown] that shares the component's source file
    together with the [Header] that mounts it.  d3-scale's ordinal scale is
    written out like the kernel of d3-force. *)

From stdpp Require Import gmap pretty.
From Stdlib Require Import QArith Qminmax Qround Lqa Lia.
From stdpp Require Import base list strings option.

Set Default Proof Using "Type".

(** ** Numbers that may be missing *)

Definition Qltb (a b : Q) : bool := negb (Qle_bool b a).

Definition oadd (a b : option Q) : option Q :=
  match a, b with Some p, Some q => Some (p + q)%Q | _, _ => None end.

Definition omul (a : option Q) (q : Q) : option Q :=
  match a with Some p => Some (p * q)%Q | None => None end.

(** [Math.min] and [Math.max] on numbers. *)
Definition Math_min (a b : Q) : Q := Qmin a b.
Definition Math_max (a b : Q) : Q := Qmax a b.

(** ** JavaScript values held in a [properties] record *)

Inductive JsValue :=
| JsUndefined
| JsNull
| JsBool (b : bool)
| JsNumber (q : Q)
| JsNaN
| JsString (s : string).

(** Truthiness, as [||] tests it. *)
Definition truthy (v : JsValue) : bool :=
  match v with
  | JsUndefined | JsNull | JsNaN => false
  | JsBool b => b
  | JsNumber q => negb (Qeq_bool q 0)
  | JsString s => negb (bool_decide (s = ""))
  end.

(** [a || b] *)
Definition js_or (a b : JsValue) : JsValue := if truthy a then a else b.

(** [Record<string, any>]: an ordered mapping. *)
Definition Props := list (string * JsValue).

Fixpoint props_get (p : Props) (k : string) : JsValue :=
  match p with
  | [] => JsUndefined
  | (k', v) :: rest => if bool_decide (k = k') then v else props_get rest k
  end.

(** ** Objects and the store *)

(** Addresses are positions in the store. *)
Abbreviation loc := nat (only parsing).

Record SimulationNodeDatum := mkNode {
  node_id : string;
  node_name : string;
  node_type : string;
  node_properties : loc;
  node_x : option Q;
  node_y : option Q;
  node_fx : option Q;
  node_fy : option Q;
  node_index : option nat;
  node_vx : option Q;
  node_vy : option Q }.

(** [source: string | SimulationNodeDatum] *)
Inductive Endpoint :=
| ById (id : string)
| ByRef (n : loc).

Record SimulationLinkDatum := mkLink {
  link_source : Endpoint;
  link_target : Endpoint;
  link_type : string;
  link_properties : option loc;
  link_index : option nat }.

Record GraphData := mkGraphData {
  nodes : list loc;
  links : list loc }.

Record Heap := mkHeap {
  nodeObjs : list SimulationNodeDatum;
  linkObjs : list SimulationLinkDatum;
  propObjs : list Props }.

Definition empty_heap : Heap := mkHeap [] [] [].

Definition update_node (l : loc) (f : SimulationNodeDatum → SimulationNodeDatum)
    (h : Heap) : Heap :=
  mkHeap (alter f l (nodeObjs h)) (linkObjs h) (propObjs h).

Definition update_link (l : loc) (f : SimulationLinkDatum → SimulationLinkDatum)
    (h : Heap) : Heap :=
  mkHeap (nodeObjs h) (alter f l (linkObjs h)) (propObjs h).

Definition read_nodes (h : Heap) (ls : list loc) : list SimulationNodeDatum :=
  omap (λ l, nodeObjs h !! l) ls.

Definition read_links (h : Heap) (ls : list loc) : list SimulationLinkDatum :=
  omap (λ l, linkObjs h !! l) ls.

(** Field writes on a node object. *)
Definition set_pos (px py : option Q) (n : SimulationNodeDatum) : SimulationNodeDatum :=
  mkNode (node_id n) (node_name n) (node_type n) (node_properties n)
         px py (node_fx n) (node_fy n) (node_index n) (node_vx n) (node_vy n).

Definition set_vel (vx vy : option Q) (n : SimulationNodeDatum) : SimulationNodeDatum :=
  mkNode (node_id n) (node_name n) (node_type n) (node_properties n)
         (node_x n) (node_y n) (node_fx n) (node_fy n) (node_index n) vx vy.

Definition set_fixed (fx fy : option Q) (n : SimulationNodeDatum) : SimulationNodeDatum :=
  mkNode (node_id n) (node_name n) (node_type n) (node_properties n)
         (node_x n) (node_y n) fx fy (node_index n) (node_vx n) (node_vy n).

Definition set_index (i : nat) (n : SimulationNodeDatum) : SimulationNodeDatum :=
  mkNode (node_id n) (node_name n) (node_type n) (node_properties n)
         (node_x n) (node_y n) (node_fx n) (node_fy n) (Some i) (node_vx n) (node_vy n).

(** ** The d3 dependency *)

(** A force is called with the current alpha and the simulation's nodes and
    may change their positions and velocities; nothing else of what it
    returns is written back (see [apply_force]). *)
Definition Force := Q → list SimulationNodeDatum → list SimulationNodeDatum.

Class D3 := {
  (** phyllotaxis start position of the [i]-th node *)
  initialPosition : nat → Q * Q;
  (** [1 - Math.pow(0.001, 1 / 300)] *)
  defaultAlphaDecay : Q;
  (** [d3.forceLink(links).distance(d)], over (source index, target index) *)
  forceLink : list (option nat * option nat) → Q → Force;
  (** [d3.forceManyBody().strength(s)] *)
  forceManyBody : Q → Force;
  (** [d3.forceCenter(cx, cy)] *)
  forceCenter : Q → Q → Force;
  (** [d3.forceCollide().radius(r)] *)
  forceCollide : Q → Force;
  (** [Math.sqrt] on a number that is not negative *)
  Math_sqrt : Q → Q;
  (** the numeric value of a string, [None] for [NaN] *)
  StringToNumber : string → option Q }.

(** ** d3-force: the simulation *)

Record Simulation := mkSim {
  sim_nodes : list loc;
  sim_links : list loc;
  alpha : Q;
  alphaMin : Q;
  alphaDecay : Q;
  alphaTarget : Q;
  velocityDecay : Q;
  forces : list (string * Force);
  (** the timer of [step] is scheduled *)
  stepper : bool;
  (** how many times [tick] has run *)
  ticks : nat }.

Definition sim_stop (e : Simulation) : Simulation :=
  mkSim (sim_nodes e) (sim_links e) (alpha e) (alphaMin e) (alphaDecay e)
        (alphaTarget e) (velocityDecay e) (forces e) false (ticks e).

Definition sim_restart (e : Simulation) : Simulation :=
  mkSim (sim_nodes e) (sim_links e) (alpha e) (alphaMin e) (alphaDecay e)
        (alphaTarget e) (velocityDecay e) (forces e) true (ticks e).

Definition sim_alpha (a : Q) (e : Simulation) : Simulation :=
  mkSim (sim_nodes e) (sim_links e) a (alphaMin e) (alphaDecay e)
        (alphaTarget e) (velocityDecay e) (forces e) (stepper e) (ticks e).

Definition sim_alphaTarget (t : Q) (e : Simulation) : Simulation :=
  mkSim (sim_nodes e) (sim_links e) (alpha e) (alphaMin e) (alphaDecay e)
        t (velocityDecay e) (forces e) (stepper e) (ticks e).

Definition sim_force (name : string) (f : Force) (e : Simulation) : Simulation :=
  mkSim (sim_nodes e) (sim_links e) (alpha e) (alphaMin e) (alphaDecay e)
        (alphaTarget e) (velocityDecay e) (forces e ++ [(name, f)]) (stepper e)
        (ticks e).

Definition sim_set_links (ls : list loc) (e : Simulation) : Simulation :=
  mkSim (sim_nodes e) ls (alpha e) (alphaMin e) (alphaDecay e)
        (alphaTarget e) (velocityDecay e) (forces e) (stepper e) (ticks e).

Definition sim_ticked (a : Q) (e : Simulation) : Simulation :=
  mkSim (sim_nodes e) (sim_links e) a (alphaMin e) (alphaDecay e)
        (alphaTarget e) (velocityDecay e) (forces e) (stepper e) (S (ticks e)).

(** [initializeNodes]: index, start position and zero velocity. *)
Definition init_node `{D3} (i : nat) (n : SimulationNodeDatum) : SimulationNodeDatum :=
  let n1 := set_index i n in
  let n2 := match node_fx n1 with
            | Some v => set_pos (Some v) (node_y n1) n1 | None => n1 end in
  let n3 := match node_fy n2 with
            | Some v => set_pos (node_x n2) (Some v) n2 | None => n2 end in
  let n4 := match node_x n3, node_y n3 with
            | Some _, Some _ => n3
            | _, _ => set_pos (Some (fst (initialPosition i)))
                              (Some (snd (initialPosition i))) n3
            end in
  match node_vx n4, node_vy n4 with
  | Some _, Some _ => n4
  | _, _ => set_vel (Some 0%Q) (Some 0%Q) n4
  end.

Fixpoint initializeNodes `{D3} (i : nat) (ls : list loc) (h : Heap) : Heap :=
  match ls with
  | [] => h
  | l :: rest => initializeNodes (S i) rest (update_node l (init_node i) h)
  end.

(** Writing back what a force computed: positions and velocities only. *)
Definition take_kinematics (r n : SimulationNodeDatum) : SimulationNodeDatum :=
  set_vel (node_vx r) (node_vy r) (set_pos (node_x r) (node_y r) n).

Fixpoint write_back (i : nat) (ls : list loc) (res : list SimulationNodeDatum)
    (h : Heap) : Heap :=
  match ls with
  | [] => h
  | l :: rest =>
      write_back (S i) rest res
        (match res !! i with
         | Some r => update_node l (take_kinematics r) h
         | None => h
         end)
  end.

Definition apply_force (a : Q) (ls : list loc) (h : Heap) (f : string * Force) : Heap :=
  write_back 0 ls (snd f a (read_nodes h ls)) h.

(** The position update that closes a tick: a node with [fx] set is put
    there and loses its velocity, any other node moves by its damped
    velocity. *)
Definition integrate (vd : Q) (n : SimulationNodeDatum) : SimulationNodeDatum :=
  let n1 := match node_fx n with
            | None => let vx := omul (node_vx n) vd in
                      set_pos (oadd (node_x n) vx) (node_y n) (set_vel vx (node_vy n) n)
            | Some v => set_vel (Some 0%Q) (node_vy n) (set_pos (Some v) (node_y n) n)
            end in
  match node_fy n1 with
  | None => let vy := omul (node_vy n1) vd in
            set_pos (node_x n1) (oadd (node_y n1) vy) (set_vel (node_vx n1) vy n1)
  | Some v => set_vel (node_vx n1) (Some 0%Q) (set_pos (node_x n1) (Some v) n1)
  end.

Definition integrate_all (vd : Q) (ls : list loc) (h : Heap) : Heap :=
  foldl (λ h l, update_node l (integrate vd) h) h ls.

(** [tick()] with one iteration. *)
Definition tick (e : Simulation) (h : Heap) : Simulation * Heap :=
  let a := (alpha e + (alphaTarget e - alpha e) * alphaDecay e)%Q in
  let h1 := foldl (apply_force a (sim_nodes e)) h (forces e) in
  (sim_ticked a e, integrate_all (velocityDecay e) (sim_nodes e) h1).

(** [step()], the timer callback: tick, then stop the timer once alpha is
    under [alphaMin]. *)
Definition step (e : Simulation) (h : Heap) : Simulation * Heap :=
  let '(e1, h1) := tick e h in
  (if Qltb (alpha e1) (alphaMin e1) then sim_stop e1 else e1, h1).

(** One animation frame as seen by one simulation: its callback runs only
    while its timer is scheduled. *)
Definition on_frame (e : Simulation) (h : Heap) : Simulation * Heap :=
  if stepper e then step e h else (e, h).

Fixpoint frames (n : nat) (e : Simulation) (h : Heap) : Simulation * Heap :=
  match n with
  | O => (e, h)
  | S k => let '(e1, h1) := on_frame e h in frames k e1 h1
  end.

(** [d3.forceSimulation(nodes)]: default parameters, nodes initialised, timer
    started. *)
Definition forceSimulation `{D3} (ns : list loc) (h : Heap) : Simulation * Heap :=
  (mkSim ns [] 1 0.001 defaultAlphaDecay 0 0.6 [] true 0,
   initializeNodes 0 ns h).

(** ** d3-force: the link force

    [simulation.force('link', d3.forceLink(links).id(d => d.id).distance(100))]
    initialises the force against the simulation's nodes: every link gets
    its index, and an endpoint that is not yet an object is replaced by the
    node registered under that id.  [find] throws when there is none (the
    message is that of d3-force 2 and later). *)

Definition set_link_index (i : nat) (l : SimulationLinkDatum) : SimulationLinkDatum :=
  mkLink (link_source l) (link_target l) (link_type l) (link_properties l) (Some i).

Definition set_link_source (s : Endpoint) (l : SimulationLinkDatum) : SimulationLinkDatum :=
  mkLink s (link_target l) (link_type l) (link_properties l) (link_index l).

Definition set_link_target (t : Endpoint) (l : SimulationLinkDatum) : SimulationLinkDatum :=
  mkLink (link_source l) t (link_type l) (link_properties l) (link_index l).

(** [new Map(nodes.map(d => [d.id, d]))]: of two nodes with one id the later
    one is the one found. *)
Definition nodeById (h : Heap) (ns : list loc) : list (string * loc) :=
  omap (λ l, (λ o, (node_id o, l)) <$> nodeObjs h !! l) ns.

Fixpoint map_get (m : list (string * loc)) (k : string) : option loc :=
  match m with
  | [] => None
  | (k', v) :: rest =>
      match map_get rest k with
      | Some v' => Some v'
      | None => if bool_decide (k = k') then Some v else None
      end
  end.

Definition find (m : list (string * loc)) (nodeId : string) : string + loc :=
  match map_get m nodeId with
  | Some n => inr n
  | None => inl ("node not found: " +:+ nodeId)
  end.

Definition resolve (m : list (string * loc)) (ep : Endpoint) : string + loc :=
  match ep with
  | ByRef n => inr n
  | ById nodeId => find m nodeId
  end.

(** The loop of [initialize]; the second component is the message of the
    exception that ended it, if any.  Links before the failing one have been
    resolved already. *)
Fixpoint link_initialize (m : list (string * loc)) (i : nat) (ls : list loc)
    (h : Heap) : Heap * option string :=
  match ls with
  | [] => (h, None)
  | l :: rest =>
      let h1 := update_link l (set_link_index i) h in
      match linkObjs h1 !! l with
      | None => link_initialize m (S i) rest h1
      | Some o =>
          match resolve m (link_source o) with
          | inl err => (h1, Some err)
          | inr s =>
              let h2 := update_link l (set_link_source (ByRef s)) h1 in
              match resolve m (link_target o) with
              | inl err => (h2, Some err)
              | inr t =>
                  link_initialize m (S i) rest
                    (update_link l (set_link_target (ByRef t)) h2)
              end
          end
      end
  end.

(** What the initialised force works on: the index of each link's source
    and target node. *)
Definition endpoint_index (h : Heap) (ep : Endpoint) : option nat :=
  match ep with
  | ByRef n => nodeObjs h !! n ≫= node_index
  | ById _ => None
  end.

Definition link_indices (h : Heap) (ls : list loc) : list (option nat * option nat) :=
  (λ o, (endpoint_index h (link_source o), endpoint_index h (link_target o)))
    <$> read_links h ls.

(** ** The view transform of d3-zoom *)

Record Transform := mkTransform { t_k : Q; t_x : Q; t_y : Q }.

Definition zoomIdentity : Transform := mkTransform 1 0 0.

(** [t.translate(x, y)] and [t.scale(k)] *)
Definition translate (px py : Q) (t : Transform) : Transform :=
  mkTransform (t_k t) (t_x t + t_k t * px)%Q (t_y t + t_k t * py)%Q.

Definition scale (k : Q) (t : Transform) : Transform :=
  mkTransform (t_k t * k)%Q (t_x t) (t_y t).

(** The [svg] element as d3 sees it. *)
Record Svg := mkSvg {
  (** its [__zoom] property *)
  svg_zoom : option Transform;
  (** the [transform] attribute of the [g] child, once a zoom event set it *)
  g_transform : option Transform;
  (** the simulation whose elements and handlers the element carries *)
  content : option nat }.

Definition fresh_svg : Svg := mkSvg None None None.

(** [d3.zoomTransform(node)] *)
Definition zoomTransform (s : Svg) : Transform := default zoomIdentity (svg_zoom s).

(** [scaleExtent([0.1, 4])], as a gesture of the zoom behaviour applies it *)
Definition constrain_scale (k : Q) : Q := Math_max 0.1 (Math_min 4 k).

(** ** The world outside the component: store, simulations, requests *)

Record World := mkWorld {
  heap : Heap;
  (** every simulation created so far, by number *)
  sims : list Simulation;
  (** the URLs of the GET requests issued, latest first *)
  requests : list string;
  (** requests not yet settled *)
  pending : nat }.

Definition with_heap (h : Heap) (w : World) : World :=
  mkWorld h (sims w) (requests w) (pending w).

Definition update_sim (i : nat) (f : Simulation → Simulation) (w : World) : World :=
  mkWorld (heap w) (alter f i (sims w)) (requests w) (pending w).

Definition update_node_w (l : loc) (f : SimulationNodeDatum → SimulationNodeDatum)
    (w : World) : World :=
  with_heap (update_node l f (heap w)) w.

(** One animation frame: d3-timer calls every scheduled [step]. *)
Definition frame_engine (w : World) (i : nat) : World :=
  match sims w !! i with
  | Some e =>
      let '(e1, h1) := on_frame e (heap w) in
      mkWorld h1 (<[i := e1]> (sims w)) (requests w) (pending w)
  | None => w
  end.

Definition frame_all (w : World) : World :=
  foldl frame_engine w (seq 0 (length (sims w))).

(** ** The response of [GET /api/graph] *)

Record RawNode := mkRawNode {
  raw_id : string;
  raw_name : string;
  raw_type : string;
  raw_properties : Props;
  raw_x : option Q;
  raw_y : option Q;
  raw_fx : option Q;
  raw_fy : option Q }.

Record RawLink := mkRawLink {
  raw_source : string;
  raw_target : string;
  raw_ltype : string;
  raw_lproperties : option Props }.

Record RawGraph := mkRawGraph {
  raw_nodes : list RawNode;
  raw_links : list RawLink }.

(** Parsing the response body creates the objects of [response.data]. *)
Definition alloc_node (acc : list loc * Heap) (r : RawNode) : list loc * Heap :=
  let '(ls, h) := acc in
  (ls ++ [length (nodeObjs h)],
   mkHeap (nodeObjs h ++
             [mkNode (raw_id r) (raw_name r) (raw_type r) (length (propObjs h))
                     (raw_x r) (raw_y r) (raw_fx r) (raw_fy r) None None None])
          (linkObjs h)
          (propObjs h ++ [raw_properties r])).

Definition alloc_link (acc : list loc * Heap) (r : RawLink) : list loc * Heap :=
  let '(ls, h) := acc in
  (ls ++ [length (linkObjs h)],
   match raw_lproperties r with
   | Some p =>
       mkHeap (nodeObjs h)
              (linkObjs h ++
                 [mkLink (ById (raw_source r)) (ById (raw_target r)) (raw_ltype r)
                         (Some (length (propObjs h))) None])
              (propObjs h ++ [p])
   | None =>
       mkHeap (nodeObjs h)
              (linkObjs h ++
                 [mkLink (ById (raw_source r)) (ById (raw_target r)) (raw_ltype r)
                         None None])
              (propObjs h)
   end).

Definition alloc_response (raw : RawGraph) (h : Heap) : GraphData * Heap :=
  let '(ns, h1) := foldl alloc_node ([], h) (raw_nodes raw) in
  let '(ls, h2) := foldl alloc_link ([], h1) (raw_links raw) in
  (mkGraphData ns ls, h2).

(** [graphData.nodes.map(n => ({ ...n }))]: a new object per node with the
    same field values; the [properties] field holds an address and is
    copied as such. *)
Definition copy_node (acc : list loc * Heap) (l : loc) : list loc * Heap :=
  let '(ls, h) := acc in
  match nodeObjs h !! l with
  | Some o => (ls ++ [length (nodeObjs h)],
               mkHeap (nodeObjs h ++ [o]) (linkObjs h) (propObjs h))
  | None => acc
  end.

(** [graphData.links.map(l => ({ ...l }))] *)
Definition copy_link (acc : list loc * Heap) (l : loc) : list loc * Heap :=
  let '(ls, h) := acc in
  match linkObjs h !! l with
  | Some o => (ls ++ [length (linkObjs h)],
               mkHeap (nodeObjs h) (linkObjs h ++ [o]) (propObjs h))
  | None => acc
  end.

Definition copy_nodes (ls : list loc) (h : Heap) : list loc * Heap :=
  foldl copy_node ([], h) ls.

Definition copy_links (ls : list loc) (h : Heap) : list loc * Heap :=
  foldl copy_link ([], h) ls.

(** ** The component *)

Record Component := mkComponent {
  investigationId : option string;
  width : Q;
  height : Q;
  graphData : option GraphData;
  loading : bool;
  error : option string;
  (** the selected node object *)
  selectedNode : option loc;
  zoom : Q;
  (** [simulationRef.current] *)
  simulationRef : option nat;
  (** [svgRef.current] *)
  svgRef : option Svg;
  (** the simulation that the clean-up function returned by the last run of
      the graph effect will stop *)
  cleanup : option nat }.

Definition setGraphData (g : option GraphData) (c : Component) : Component :=
  mkComponent (investigationId c) (width c) (height c) g (loading c) (error c)
              (selectedNode c) (zoom c) (simulationRef c) (svgRef c) (cleanup c).

Definition setLoading (b : bool) (c : Component) : Component :=
  mkComponent (investigationId c) (width c) (height c) (graphData c) b (error c)
              (selectedNode c) (zoom c) (simulationRef c) (svgRef c) (cleanup c).

Definition setError (e : option string) (c : Component) : Component :=
  mkComponent (investigationId c) (width c) (height c) (graphData c) (loading c) e
              (selectedNode c) (zoom c) (simulationRef c) (svgRef c) (cleanup c).

Definition setSelectedNode (n : option loc) (c : Component) : Component :=
  mkComponent (investigationId c) (width c) (height c) (graphData c) (loading c)
              (error c) n (zoom c) (simulationRef c) (svgRef c) (cleanup c).

Definition setZoom (z : Q) (c : Component) : Component :=
  mkComponent (investigationId c) (width c) (height c) (graphData c) (loading c)
              (error c) (selectedNode c) z (simulationRef c) (svgRef c) (cleanup c).

Definition set_simulationRef (r : option nat) (c : Component) : Component :=
  mkComponent (investigationId c) (width c) (height c) (graphData c) (loading c)
              (error c) (selectedNode c) (zoom c) r (svgRef c) (cleanup c).

Definition set_svgRef (s : option Svg) (c : Component) : Component :=
  mkComponent (investigationId c) (width c) (height c) (graphData c) (loading c)
              (error c) (selectedNode c) (zoom c) (simulationRef c) s (cleanup c).

Definition set_cleanup (k : option nat) (c : Component) : Component :=
  mkComponent (investigationId c) (width c) (height c) (graphData c) (loading c)
              (error c) (selectedNode c) (zoom c) (simulationRef c) (svgRef c) k.

Definition set_props (i : option string) (w h : Q) (c : Component) : Component :=
  mkComponent i w h (graphData c) (loading c) (error c) (selectedNode c) (zoom c)
              (simulationRef c) (svgRef c) (cleanup c).

(** The running application: the world, the component while it is mounted,
    and the exception that took the component down, if one did. *)
Record App := mkApp {
  world : World;
  comp : option Component;
  uncaught : option string }.

(** Rendering: [loading ? spinner : <svg ref={svgRef} />].  The spinner and
    the [svg] are different element types in the same place, so React
    removes the one and creates the other. *)
Definition render (c : Component) : Component :=
  if loading c then set_svgRef None c
  else match svgRef c with
       | Some _ => c
       | None => set_svgRef (Some fresh_svg) c
       end.

(** *** [fetchGraphData] *)

Definition graph_url (c : Component) : string :=
  "/api/graph" +:+
  match investigationId c with
  | Some i => if bool_decide (i = "") then "" else "?investigation_id=" +:+ i
  | None => ""
  end.

(** Up to the [await]: the request is on its way. *)
Definition fetchGraphData (c : Component) (w : World) : Component * World :=
  (setError None (setLoading true c),
   mkWorld (heap w) (sims w) (graph_url c :: requests w) (S (pending w))).

Definition fetch_error_message : string :=
  "Failed to load relationship graph data. Please try again.".

(** The [catch] and [finally] blocks. *)
Definition fetch_failed (c : Component) : Component :=
  setLoading false (setError (Some fetch_error_message) c).

(** *** The graph effect, dependencies [graphData, width, height] *)

(** The clean-up function [() => simulation.stop()] of the previous run. *)
Definition run_cleanup (c : Component) (w : World) : Component * World :=
  match cleanup c with
  | Some i => (set_cleanup None c, update_sim i sim_stop w)
  | None => (c, w)
  end.

Section Effects.
Context `{D3}.

(** The body of the effect.  The result is the component, the world and
    the message of the exception thrown out of the effect, if any. *)
Definition graph_effect_body (c : Component) (w : World)
    : Component * World * option string :=
  match graphData c, svgRef c with
  | Some gd, Some svg =>
      (* clean up the previous simulation if it exists *)
      let w1 := match simulationRef c with
                | Some i => update_sim i sim_stop w
                | None => w
                end in
      (* clear the previous graph, append [g], attach the zoom behaviour *)
      let svg1 := mkSvg (Some (zoomTransform svg)) None None in
      (* the working copies *)
      let '(ns, h1) := copy_nodes (nodes gd) (heap w1) in
      let '(ls, h2) := copy_links (links gd) h1 in
      (* the simulation and its forces *)
      let '(e0, h3) := forceSimulation ns h2 in
      let i := length (sims w1) in
      let '(h4, thrown) := link_initialize (nodeById h3 ns) 0 ls h3 in
      match thrown with
      | Some msg =>
          (set_svgRef (Some svg1) c,
           mkWorld h4 (sims w1 ++ [e0]) (requests w1) (pending w1),
           Some msg)
      | None =>
          let e1 :=
            sim_force "collision" (forceCollide 40)
              (sim_force "center" (forceCenter (width c / 2) (height c / 2))
                 (sim_force "charge" (forceManyBody (-300))
                    (sim_force "link" (forceLink (link_indices h4 ls) 100)
                       (sim_set_links ls e0)))) in
          (* initialise with some heat *)
          let e2 := sim_restart (sim_alpha 1 e1) in
          (set_cleanup (Some i)
             (set_svgRef (Some (mkSvg (svg_zoom svg1) None (Some i)))
                (set_simulationRef (Some i) c)),
           mkWorld h4 (sims w1 ++ [e2]) (requests w1) (pending w1),
           None)
      end
  | _, _ => (c, w, None)
  end.

(** A run of the effect after a render that changed one of its
    dependencies.  An exception out of an effect is caught by no error
    boundary here: React takes the component tree down. *)
Definition graph_effect (c : Component) (w : World) (u : option string) : App :=
  let '(c1, w1) := run_cleanup c w in
  match graph_effect_body c1 w1 with
  | (c2, w2, None) => mkApp w2 (Some c2) u
  | (_, w2, Some msg) => mkApp w2 None (Some msg)
  end.

(** *** The zoom effect, dependency [zoom] *)

Definition zoom_effect (c : Component) : Component :=
  match svgRef c with
  | Some svg =>
      let currentTransform := zoomTransform svg in
      let newTransform :=
        scale (zoom c)
          (translate (t_x currentTransform) (t_y currentTransform) zoomIdentity) in
      set_svgRef (Some (mkSvg (Some newTransform) (g_transform svg) (content svg))) c
  | None => c
  end.

(** [setZoom(prev => f(prev))]: a state that does not change causes no
    render and no effect. *)
Definition update_zoom (f : Q → Q) (c : Component) : Component :=
  let z := f (zoom c) in
  if Qeq_bool z (zoom c) then c else zoom_effect (setZoom z c).

Definition handleZoomIn (c : Component) : Component :=
  update_zoom (λ prev, Math_min (prev + 0.2) 3) c.

Definition handleZoomOut (c : Component) : Component :=
  update_zoom (λ prev, Math_max (prev - 0.2) 0.5) c.

(** *** Click handlers *)

(** The handler on a node group; the flag says that it called
    [event.stopPropagation()]. *)
Definition node_click (d : loc) (c : Component) : Component * bool :=
  (setSelectedNode (Some d) c, true).

(** The handler on the [svg]. *)
Definition svg_click (c : Component) : Component := setSelectedNode None c.

(** A click on a node bubbles to the [svg] unless it was stopped. *)
Definition dispatch_node_click (d : loc) (c : Component) : Component :=
  let '(c1, stopped) := node_click d c in
  if stopped then c1 else svg_click c1.

(** *** Drag handlers *)

Definition dragstarted (i : nat) (subject : loc) (active : nat) (w : World) : World :=
  let w1 := if bool_decide (active = 0)
            then update_sim i (λ e, sim_restart (sim_alphaTarget 0.3 e)) w
            else w in
  update_node_w subject (λ n, set_fixed (node_x n) (node_y n) n) w1.

Definition dragged (subject : loc) (px py : Q) (w : World) : World :=
  update_node_w subject (set_fixed (Some px) (Some py)) w.

Definition dragended (i : nat) (subject : loc) (px py : Q) (active : nat)
    (w : World) : World :=
  let w1 := if bool_decide (active = 0)
            then update_sim i (sim_alphaTarget 0) w
            else w in
  update_node_w subject (set_fixed (Some px) (Some py)) w1.

(** ** Events *)

Inductive Event :=
(** the refresh button *)
| Refresh
(** the parent passes another [investigationId] *)
| SetInvestigation (i : option string)
(** the parent passes another [width] or [height] *)
| Resize (w h : Q)
(** the pending request succeeds with this body *)
| FetchResolve (data : RawGraph)
(** the pending request fails *)
| FetchReject
(** an animation frame *)
| Frame
(** the zoom buttons *)
| ZoomIn
| ZoomOut
(** a wheel or pan gesture on the [svg] asking for this transform *)
| PointerZoom (k px py : Q)
(** a click on the [i]-th node group, on the bare [svg], on the overlay's
    close button *)
| ClickNode (i : nat)
| ClickBackground
| ClickClose
(** a drag gesture begins on the [i]-th node group *)
| DragStart (i : nat) (active : nat)
(** a gesture that began on node [i] of simulation [e] moves, ends *)
| Drag (e i : nat) (px py : Q)
| DragEnd (e i : nat) (px py : Q) (active : nat)
(** the component is removed *)
| Unmount.

(** The node object bound to the [i]-th node group on the surface. *)
Definition surface_sim (c : Component) : option nat :=
  svgRef c ≫= content.

Definition node_of (w : World) (e i : nat) : option loc :=
  sims w !! e ≫= λ s, sim_nodes s !! i.

Definition with_comp (a : App) (f : Component → Component) : App :=
  match comp a with
  | Some c => mkApp (world a) (Some (f c)) (uncaught a)
  | None => a
  end.

Definition start_fetch (a : App) (c : Component) : App :=
  let '(c1, w1) := fetchGraphData c (world a) in
  mkApp w1 (Some (render c1)) (uncaught a).

Definition settle (w : World) : World :=
  mkWorld (heap w) (sims w) (requests w) (pred (pending w)).

Definition handle (a : App) (ev : Event) : App :=
  match ev with
  | Refresh =>
      match comp a with
      | Some c => start_fetch a c
      | None => a
      end
  | SetInvestigation i =>
      match comp a with
      | Some c =>
          if bool_decide (i = investigationId c) then a
          else start_fetch a (set_props i (width c) (height c) c)
      | None => a
      end
  | Resize w h =>
      match comp a with
      | Some c =>
          if Qeq_bool w (width c) && Qeq_bool h (height c) then a
          else graph_effect (set_props (investigationId c) w h c) (world a)
                            (uncaught a)
      | None => a
      end
  | FetchResolve data =>
      match pending (world a) with
      | O => a
      | S _ =>
          let '(gd, h1) := alloc_response data (heap (world a)) in
          let w1 := with_heap h1 (settle (world a)) in
          match comp a with
          | Some c =>
              graph_effect (render (setLoading false (setGraphData (Some gd) c)))
                           w1 (uncaught a)
          | None => mkApp w1 None (uncaught a)
          end
      end
  | FetchReject =>
      match pending (world a) with
      | O => a
      | S _ =>
          mkApp (settle (world a)) (render ∘ fetch_failed <$> comp a) (uncaught a)
      end
  | Frame => mkApp (frame_all (world a)) (comp a) (uncaught a)
  | ZoomIn => with_comp a handleZoomIn
  | ZoomOut => with_comp a handleZoomOut
  | PointerZoom k px py =>
      match comp a with
      | Some c =>
          match svgRef c with
          | Some svg =>
              match content svg with
              | Some e =>
                  let t := mkTransform (constrain_scale k) px py in
                  mkApp (world a)
                        (Some (set_svgRef (Some (mkSvg (Some t) (Some t) (Some e))) c))
                        (uncaught a)
              | None => a
              end
          | None => a
          end
      | None => a
      end
  | ClickNode i =>
      match comp a with
      | Some c =>
          match surface_sim c ≫= λ e, node_of (world a) e i with
          | Some d => mkApp (world a) (Some (dispatch_node_click d c)) (uncaught a)
          | None => a
          end
      | None => a
      end
  | ClickBackground =>
      match comp a with
      | Some c =>
          match surface_sim c with
          | Some _ => mkApp (world a) (Some (svg_click c)) (uncaught a)
          | None => a
          end
      | None => a
      end
  | ClickClose =>
      match comp a with
      | Some c =>
          match selectedNode c, loading c with
          | Some _, false => mkApp (world a) (Some (setSelectedNode None c)) (uncaught a)
          | _, _ => a
          end
      | None => a
      end
  | DragStart i active =>
      match comp a with
      | Some c =>
          match surface_sim c with
          | Some e =>
              match node_of (world a) e i with
              | Some d => mkApp (dragstarted e d active (world a)) (comp a) (uncaught a)
              | None => a
              end
          | None => a
          end
      | None => a
      end
  | Drag e i px py =>
      match node_of (world a) e i with
      | Some d => mkApp (dragged d px py (world a)) (comp a) (uncaught a)
      | None => a
      end
  | DragEnd e i px py active =>
      match node_of (world a) e i with
      | Some d => mkApp (dragended e d px py active (world a)) (comp a) (uncaught a)
      | None => a
      end
  | Unmount =>
      match comp a with
      | Some c => mkApp (snd (run_cleanup c (world a))) None (uncaught a)
      | None => a
      end
  end.

Definition run (a : App) (evs : list Event) : App := foldl handle a evs.

(** Mounting: the first render shows the [svg]; then the three effects run
    in order (the fetch starts, the graph effect finds no data, the zoom
    effect writes the identity); the render that follows shows the
    spinner. *)
Definition mount (i : option string) (w h : Q) : App :=
  let c0 := mkComponent i w h None false None None 1 None (Some fresh_svg) None in
  let '(c1, w1) := fetchGraphData c0 (mkWorld empty_heap [] [] 0) in
  match graph_effect_body c1 w1 with
  | (c2, w2, _) => mkApp w2 (Some (render (zoom_effect c2))) None
  end.

End Effects.

(** ** The stroke width of a link

    [Math.sqrt((d.properties?.strength || 1) * 2)] *)

(** [ToNumber]; [None] is [NaN]. *)
Definition ToNumber `{D3} (v : JsValue) : option Q :=
  match v with
  | JsUndefined | JsNaN => None
  | JsNull => Some 0%Q
  | JsBool b => Some (if b then 1 else 0)%Q
  | JsNumber q => Some q
  | JsString s => StringToNumber s
  end.

(** [a * b] *)
Definition js_mul `{D3} (a b : JsValue) : option Q :=
  match ToNumber a, ToNumber b with
  | Some p, Some q => Some (p * q)%Q
  | _, _ => None
  end.

(** [Math.sqrt(v)]: [NaN] for [NaN] and for a negative number. *)
Definition js_sqrt `{D3} (v : option Q) : option Q :=
  match v with
  | Some q => if Qle_bool 0 q then Some (Math_sqrt q) else None
  | None => None
  end.

(** [d.properties?.strength] *)
Definition strength (h : Heap) (d : SimulationLinkDatum) : JsValue :=
  match link_properties d with
  | Some p =>
      match propObjs h !! p with
      | Some props => props_get props "strength"
      | None => JsUndefined
      end
  | None => JsUndefined
  end.

Definition stroke_width `{D3} (h : Heap) (d : SimulationLinkDatum) : option Q :=
  js_sqrt (js_mul (js_or (strength h d) (JsNumber 1)) (JsNumber 2)).

(** ** Observations on a running application *)

(** The selected node object, and its id. *)
Definition selection (a : App) : option loc := comp a ≫= selectedNode.

Definition selected_id (a : App) : option string :=
  selection a ≫= λ d, node_id <$> nodeObjs (heap (world a)) !! d.

(** How often simulation [e] has ticked. *)
Definition ticks_of (w : World) (e : nat) : nat :=
  default 0 (ticks <$> sims w !! e).

(** Simulation [e] has its timer scheduled. *)
Definition running (w : World) (e : nat) : Prop :=
  stepper <$> sims w !! e = Some true.

(** The two controls of the button-driven zoom. *)
Inductive ZoomPress := PressIn | PressOut.

Definition press_event (p : ZoomPress) : Event :=
  match p with PressIn => ZoomIn | PressOut => ZoomOut end.

Definition press_scale (p : ZoomPress) (z : Q) : Q :=
  match p with
  | PressIn => Math_min (z + 0.2) 3
  | PressOut => Math_max (z - 0.2) 0.5
  end.

(** The node that a drag event acts on in the present state. *)
Definition drag_subject (a : App) (ev : Event) : option loc :=
  match ev with
  | DragStart i _ => (comp a ≫= surface_sim) ≫= λ e, node_of (world a) e i
  | Drag e i _ _ | DragEnd e i _ _ _ => node_of (world a) e i
  | _ => None
  end.

(** No event of the trace drags node [d]. *)
Fixpoint undisturbed `{D3} (d : loc) (a : App) (evs : list Event) : Prop :=
  match evs with
  | [] => True
  | ev :: rest => drag_subject a ev ≠ Some d ∧ undisturbed d (handle a ev) rest
  end.

(** ** A concrete d3 for worked examples

    The centring force is d3's (strength 1): it moves every node by the
    offset of the centroid from the centre.  The other forces are switched
    off, start positions lie on a line and [Math.sqrt] is only exact on the
    squares listed. *)

Definition sum_with (f : SimulationNodeDatum → option Q) (ns : list SimulationNodeDatum) : Q :=
  foldl (λ s n, s + default 0 (f n))%Q 0%Q ns.

Definition center_force (cx cy : Q) : Force := λ _ ns,
  let n := inject_Z (Z.of_nat (length ns)) in
  let sx := (sum_with node_x ns / n - cx)%Q in
  let sy := (sum_with node_y ns / n - cy)%Q in
  (λ o, set_pos (oadd (node_x o) (Some (- sx)%Q)) (oadd (node_y o) (Some (- sy)%Q)) o)
    <$> ns.

Definition no_force : Force := λ _ ns, ns.

Definition sample_d3 : D3 := {|
  initialPosition := λ i, (inject_Z (Z.of_nat i) * 10, 0)%Q;
  defaultAlphaDecay := 0.0228;
  forceLink := λ _ _, no_force;
  forceManyBody := λ _, no_force;
  forceCenter := center_force;
  forceCollide := λ _, no_force;
  Math_sqrt := λ q, (if Qeq_bool q 4 then 2 else if Qeq_bool q 16 then 4 else q)%Q;
  StringToNumber := λ s, if bool_decide (s = "8") then Some 8%Q else None |}.

Definition alice : RawNode :=
  mkRawNode "a" "Alice" "person" [("age", JsNumber 41)] None None None None.

Definition acme : RawNode :=
  mkRawNode "b" "Acme" "company" [] None None None None.

(** Two nodes and a link between them. *)
Definition sample_graph : RawGraph :=
  mkRawGraph [alice; acme]
             [mkRawLink "a" "b" "works_at" (Some [("strength", JsNumber 2)])].

(** The same nodes and a link to a node that is not there. *)
Definition dangling_graph : RawGraph :=
  mkRawGraph [alice; acme] [mkRawLink "a" "ghost" "knows" None].

(** The sample nodes with a link of strength 8 and a link without
    properties. *)
Definition weighted_graph : RawGraph :=
  mkRawGraph [alice; acme]
             [mkRawLink "a" "b" "owns" (Some [("strength", JsNumber 8)]);
              mkRawLink "b" "a" "employs" None].

(** The component after mounting and a first successful load. *)
Definition sample_app : App :=
  @run sample_d3 (@mount sample_d3 None 800 600) [FetchResolve sample_graph].

(** ** Predicates used in the statements and proofs below *)


(** A number of frames after which a simulation that decays by [d] per
    tick from alpha = 1 is surely below 0.001 (not the least such number). *)
Definition idle_bound (d : Q) : nat := S (Z.to_nat (Qceiling (999 / d))).

(** A natural number as a number of the model. *)
Definition Qnat (n : nat) : Q := inject_Z (Z.of_nat n).

(** Node [d] of the store satisfies [P]. *)
Definition node_holds (P : SimulationNodeDatum → Prop) (h : Heap) (d : loc) : Prop :=
  ∃ n, nodeObjs h !! d = Some n ∧ P n.

(** The node is pinned at [(px, py)]; it is pinned and sits there. *)
Definition pinned_at (px py : Q) (n : SimulationNodeDatum) : Prop :=
  node_fx n = Some px ∧ node_fy n = Some py.

Definition placed_at (px py : Q) (n : SimulationNodeDatum) : Prop :=
  pinned_at px py n ∧ node_x n = Some px ∧ node_y n = Some py.

(** Every simulation of [ss] is still there in [ss'], with the same nodes
    and the same number of ticks. *)
Definition sims_keep (ss ss' : list Simulation) : Prop :=
  ∀ j s, ss !! j = Some s →
    ∃ s', ss' !! j = Some s' ∧ sim_nodes s' = sim_nodes s ∧ ticks s' = ticks s.

(** Between [w] and [w'] nothing wrote to node [d] and no simulation
    ticked. *)
Definition quiet_on (d : loc) (w w' : World) : Prop :=
  nodeObjs (heap w') !! d = nodeObjs (heap w) !! d ∧ sims_keep (sims w) (sims w').

(** Node [d], the [i]-th node of simulation [e], is pinned at [(px, py)]. *)
Definition pin_pre (px py : Q) (e i : nat) (d : loc) (w : World) : Prop :=
  node_of w e i = Some d ∧ node_holds (pinned_at px py) (heap w) d.

(** From [w] to [w'] the node stays pinned; a position already at the pin
    stays there, and a tick of its simulation puts it there. *)
Definition pin_step (px py : Q) (e i : nat) (d : loc) (w w' : World) : Prop :=
  pin_pre px py e i d w'
  ∧ (node_holds (placed_at px py) (heap w) d → node_holds (placed_at px py) (heap w') d)
  ∧ (ticks_of w' e ≠ ticks_of w e → node_holds (placed_at px py) (heap w') d).

(** Whatever runs is the simulation that the component holds in
    [simulationRef] and will stop on clean-up, and the surface shows no
    other; once the component is gone at most one simulation runs. *)
Definition tidy (a : App) : Prop :=
  match comp a with
  | Some c =>
      (∀ j, running (world a) j → cleanup c = Some j ∧ simulationRef c = Some j)
      ∧ (∀ j, surface_sim c = Some j → cleanup c = Some j ∧ simulationRef c = Some j)
      ∧ (graphData c = None → surface_sim c = None)
  | None => ∀ j k, running (world a) j → running (world a) k → j = k
  end.

(** Simulation [old] is stopped and is not the one on the surface. *)
Definition retired (old : nat) (a : App) : Prop :=
  stepper <$> sims (world a) !! old = Some false
  ∧ ∀ c, comp a = Some c → surface_sim c ≠ Some old.

(** [if (ref) ref.stop()] *)
Definition stop_opt (o : option nat) (w : World) : World :=
  match o with Some i => update_sim i sim_stop w | None => w end.

(** From [c] to [c'] the component kept its simulation and clean-up
    function, and its surface shows what it showed or nothing. *)
Definition comp_kept (c c' : Component) : Prop :=
  cleanup c' = cleanup c ∧ simulationRef c' = simulationRef c
  ∧ (surface_sim c' = surface_sim c ∨ surface_sim c' = None)
  ∧ (graphData c' = None → graphData c = None).

(** From one list of simulations to the next, simulation [old] is still
    stopped and has not ticked. *)
Definition still_stopped (old : nat) (ss ss' : list Simulation) : Prop :=
  ∀ s, ss !! old = Some s → stepper s = false →
    ∃ s', ss' !! old = Some s' ∧ stepper s' = false ∧ ticks s' = ticks s.

(** The first endpoint, in the order in which the link force resolves
    them, that is not a known id. *)
Fixpoint first_missing (known : string → bool) (rs : list RawLink) : option string :=
  match rs with
  | [] => None
  | r :: rest =>
      if known (raw_source r) then
        if known (raw_target r) then first_missing known rest
        else Some (raw_target r)
      else Some (raw_source r)
  end.

(** The ids of the nodes at the given addresses. *)
Definition ids_of (h : Heap) (ls : list loc) : list string :=
  omap (λ l, node_id <$> nodeObjs h !! l) ls.

(** The id of the node an endpoint refers to, once it is resolved. *)
Definition endpoint_id (h : Heap) (ep : Endpoint) : option string :=
  match ep with
  | ByRef n => node_id <$> nodeObjs h !! n
  | ById _ => None
  end.

(** A link of the store as (source id, target id, type). *)
Definition link_view (h : Heap) (o : SimulationLinkDatum)
    : option string * option string * string :=
  (endpoint_id h (link_source o), endpoint_id h (link_target o), link_type o).

(** A fetched link as (source id, target id, type). *)
Definition raw_link_view (r : RawLink) : option string * option string * string :=
  (Some (raw_source r), Some (raw_target r), raw_ltype r).

(** The object that parsing creates for a link. *)
Definition raw_link_matches (r : RawLink) (o : SimulationLinkDatum) : Prop :=
  link_source o = ById (raw_source r) ∧ link_target o = ById (raw_target r)
  ∧ link_type o = raw_ltype r.

(** The object that parsing creates for a link holds the properties of the
    response, when the response gives any, as an object of the store
    [ps]. *)
Definition link_of_raw (ps : list Props) (r : RawLink) (o : SimulationLinkDatum) : Prop :=
  match raw_lproperties r with
  | Some props => ∃ p, link_properties o = Some p ∧ ps !! p = Some props
  | None => link_properties o = None
  end.

(** The store only grows: node objects are never removed, link objects
    that exist are not written, properties objects are never written. *)
Definition store_grows (h h' : Heap) : Prop :=
  length (nodeObjs h) ≤ length (nodeObjs h')
  ∧ (∀ l, l < length (linkObjs h) → linkObjs h' !! l = linkObjs h !! l)
  ∧ (∀ p, p < length (propObjs h) → propObjs h' !! p = propObjs h !! p).

(** Every simulation of [w'] either was there in [w], over the same nodes,
    or works on node objects that did not exist in [w]. *)
Definition sims_fresh (w w' : World) : Prop :=
  ∀ e s', sims w' !! e = Some s' →
    (∃ s, sims w !! e = Some s ∧ sim_nodes s' = sim_nodes s)
    ∨ (∀ d, d ∈ sim_nodes s' →
         length (nodeObjs (heap w)) ≤ d < length (nodeObjs (heap w'))).

(** Every simulation of [ss'] was there in [ss], over the same nodes. *)
Definition sims_same_nodes (ss ss' : list Simulation) : Prop :=
  ∀ e s', ss' !! e = Some s' → ∃ s, ss !! e = Some s ∧ sim_nodes s' = sim_nodes s.

(** The nodes of every simulation exist. *)
Definition valid_sims (w : World) : Prop :=
  ∀ e s d, sims w !! e = Some s → d ∈ sim_nodes s → d < length (nodeObjs (heap w)).

(** No simulation works on a node of [P]. *)
Definition apart (P : list loc) (w : World) : Prop :=
  ∀ e s d, sims w !! e = Some s → d ∈ sim_nodes s → d ∉ P.

(** The objects of the fetched graph exist and no simulation works on its
    nodes. *)
Definition owned (a : App) : Prop :=
  valid_sims (world a)
  ∧ ∀ c gd, comp a = Some c → graphData c = Some gd →
      (∀ l, l ∈ nodes gd → l < length (nodeObjs (heap (world a))))
      ∧ (∀ l, l ∈ links gd → l < length (linkObjs (heap (world a))))
      ∧ apart (nodes gd) (world a).

(** * The code around the graph view *)

(** The number of animation frames in a trace. *)
Definition is_frame (ev : Event) : bool :=
  match ev with Frame => true | _ => false end.

Definition frame_count (evs : list Event) : nat := length (List.filter is_frame evs).

(** The events of a drag gesture on node [i] of simulation [e] between its
    start and its end, and the frames that pass meanwhile. *)
Definition while_held (e i : nat) (ev : Event) : Prop :=
  ev = Frame ∨ ∃ px py, ev = Drag e i px py.

(** ** What the tick handler draws *)

(** [v || 0] on a coordinate: a missing coordinate, [NaN] and 0 give 0. *)
Definition or_zero (v : option Q) : Q :=
  match v with
  | Some q => if Qeq_bool q 0 then 0%Q else q
  | None => 0%Q
  end.

(** [d.source as SimulationNodeDatum]: the node object an endpoint holds;
    an endpoint that is still an id has no coordinates. *)
Definition endpoint_node (h : Heap) (ep : Endpoint) : option SimulationNodeDatum :=
  match ep with
  | ByRef n => nodeObjs h !! n
  | ById _ => None
  end.

(** The attributes [x1], [y1], [x2], [y2] of a link's [line]. *)
Record LineAttrs := mkLine {
  line_x1 : Q;
  line_y1 : Q;
  line_x2 : Q;
  line_y2 : Q }.

Definition link_line (h : Heap) (d : SimulationLinkDatum) : LineAttrs :=
  mkLine (or_zero (endpoint_node h (link_source d) ≫= node_x))
         (or_zero (endpoint_node h (link_source d) ≫= node_y))
         (or_zero (endpoint_node h (link_target d) ≫= node_x))
         (or_zero (endpoint_node h (link_target d) ≫= node_y)).

(** The attributes [x] and [y] of a link's label. *)
Definition link_label_at (h : Heap) (d : SimulationLinkDatum) : Q * Q :=
  let sourceX := or_zero (endpoint_node h (link_source d) ≫= node_x) in
  let targetX := or_zero (endpoint_node h (link_target d) ≫= node_x) in
  let sourceY := or_zero (endpoint_node h (link_source d) ≫= node_y) in
  let targetY := or_zero (endpoint_node h (link_target d) ≫= node_y) in
  ((sourceX + targetX) / 2, (sourceY + targetY) / 2)%Q.

(** The two numbers of a node group's [transform], [translate(x,y)]. *)
Definition node_translate (d : SimulationNodeDatum) : Q * Q :=
  (or_zero (node_x d), or_zero (node_y d)).

(** Every simulation of [ss'] was there in [ss], over the same nodes and
    links. *)
Definition sims_same_model (ss ss' : list Simulation) : Prop :=
  ∀ e s', ss' !! e = Some s' →
    ∃ s, ss !! e = Some s ∧ sim_nodes s' = sim_nodes s ∧ sim_links s' = sim_links s.

(** Link [l] holds ids at both ends; it holds nodes of [ns] at both ends. *)
Definition link_by_id (h : Heap) (l : loc) : Prop :=
  ∃ o src tgt, linkObjs h !! l = Some o
    ∧ link_source o = ById src ∧ link_target o = ById tgt.

Definition link_joins (h : Heap) (ns : list loc) (l : loc) : Prop :=
  ∃ o sn tn, linkObjs h !! l = Some o
    ∧ link_source o = ByRef sn ∧ link_target o = ByRef tn
    ∧ sn ∈ ns ∧ tn ∈ ns.

(** The links of every simulation join nodes of that simulation, and the
    links of the fetched graph hold ids. *)
Definition scene_inv (a : App) : Prop :=
  (∀ e s, sims (world a) !! e = Some s →
     Forall (link_joins (heap (world a)) (sim_nodes s)) (sim_links s))
  ∧ ∀ c gd, comp a = Some c → graphData c = Some gd →
      Forall (link_by_id (heap (world a))) (links gd).

(** ** What the component renders besides the drawing *)

Section Rendering.
(** the decimal form of a number, as [String(n)] gives it *)
Variable NumberToString : Q → string.

(** [String(value)] *)
Definition js_String (v : JsValue) : string :=
  match v with
  | JsUndefined => "undefined"
  | JsNull => "null"
  | JsBool b => if b then "true" else "false"
  | JsNumber q => NumberToString q
  | JsNaN => "NaN"
  | JsString s => s
  end.

(** The panel over the drawing: title, type and one row per entry of
    [Object.entries(selectedNode.properties)]. *)
Record Overlay := mkOverlay {
  overlay_title : string;
  overlay_type : string;
  overlay_rows : list (string * string) }.

(** [!loading && selectedNode && <div>...</div>] *)
Definition overlay (a : App) : option Overlay :=
  comp a ≫= λ c,
    if loading c then None
    else selectedNode c ≫= λ d,
      nodeObjs (heap (world a)) !! d ≫= λ n,
        propObjs (heap (world a)) !! node_properties n ≫= λ p : Props,
          Some (mkOverlay (node_name n) (node_type n)
                          ((λ kv, (kv.1, js_String kv.2)) <$> p)).

End Rendering.

(** The line under the drawing. *)
Definition footer (c : Component) : string :=
  match graphData c with
  | Some gd =>
      "Showing " +:+ pretty (length (nodes gd)) +:+ " entities with "
      +:+ pretty (length (links gd)) +:+ " relationships"
  | None => "No graph data available"
  end.

(** The fields of a node that the server sent and nothing writes. *)
Definition node_static (n : SimulationNodeDatum) : string * string * string * loc :=
  (node_id n, node_name n, node_type n, node_properties n).

(** Node object [n] is what parsing makes of [r], with its properties in
    the store [ps]. *)
Definition node_of_raw (ps : list Props) (r : RawNode) (n : SimulationNodeDatum) : Prop :=
  node_static n = (raw_id r, raw_name r, raw_type r, node_properties n)
  ∧ ps !! node_properties n = Some (raw_properties r).

(** ** The glyphs of the nodes

    [d3.scaleOrdinal().domain(ds).range(rs)], written out after d3-scale:
    the scale keeps its domain as an array and looks a value up by its
    position there; a value it has not seen yet is appended to the domain
    (the domain is implicit), and the position is taken modulo the length
    of the range. *)

Record ScaleOrdinal := mkScale {
  scale_domain : list string;
  scale_range : list string }.

(** [index.get(d)]: the position of [d] in the domain *)
Fixpoint index_get (d : string) (domain : list string) : option nat :=
  match domain with
  | [] => None
  | x :: rest => if bool_decide (x = d) then Some 0 else S <$> index_get d rest
  end.

(** [scale(d)]; the scale is mutated by the call. *)
Definition scale_call (s : ScaleOrdinal) (d : string) : ScaleOrdinal * option string :=
  match index_get d (scale_domain s) with
  | Some i => (s, scale_range s !! (i mod length (scale_range s)))
  | None =>
      (mkScale (scale_domain s ++ [d]) (scale_range s),
       scale_range s !! (length (scale_domain s) mod length (scale_range s)))
  end.

Definition nodeColorScale : ScaleOrdinal :=
  mkScale ["person"; "company"; "social_media"; "website"; "organization"]
          ["#60a5fa"; "#34d399"; "#f87171"; "#a78bfa"; "#fbbf24"].

Inductive Shape := ShapeCircle | ShapeRect.

(** The shape element appended to a node group and its [fill]. *)
Record Glyph := mkGlyph {
  glyph_node : SimulationNodeDatum;
  glyph_shape : Shape;
  glyph_fill : option string }.

(** [selection.append(shape).attr('fill', d => nodeColorScale(d.type))]:
    the groups of the selection are visited in order. *)
Fixpoint paint (shape : Shape) (s : ScaleOrdinal) (ds : list SimulationNodeDatum)
    : ScaleOrdinal * list Glyph :=
  match ds with
  | [] => (s, [])
  | d :: rest =>
      let '(s1, c) := scale_call s (node_type d) in
      let '(s2, gs) := paint shape s1 rest in
      (s2, mkGlyph d shape c :: gs)
  end.

(** Circles for the person nodes first, then rectangles for the others. *)
Definition node_glyphs (ns : list SimulationNodeDatum) : list Glyph :=
  let '(s1, circles) :=
    paint ShapeCircle nodeColorScale (filter (λ d, node_type d = "person") ns) in
  let '(_, rects) :=
    paint ShapeRect s1 (filter (λ d, ¬ node_type d = "person") ns) in
  circles ++ rects.

(** The domain after the scale was called on [ds] in turn. *)
Definition extend_domain (domain ds : list string) : list string :=
  foldl (λ dom d, if bool_decide (d ∈ dom) then dom else dom ++ [d]) domain ds.

(** Glyph [g] has the colour that position [i mod 5] of the range gives to
    its node's type, [i] being the position of the type in [domain]. *)
Definition painted (range domain : list string) (g : Glyph) : Prop :=
  ∃ i, index_get (node_type (glyph_node g)) domain = Some i
       ∧ glyph_fill g = range !! (i mod length range).

(** ** Text shown on the drawing *)

(** [d.name.length > 15 ? d.name.substring(0, 12) + '...' : d.name]; a
    character of the model stands for one UTF-16 code unit. *)
Definition node_label (d : SimulationNodeDatum) : string :=
  if 15 <? String.length (node_name d)
  then String.substring 0 12 (node_name d) +:+ "..."
  else node_name d.

(** ** [src/lib/utils.ts] *)

(** [str.substr(0, len)]: a negative length counts as 0. *)
Definition substr0 (str : string) (len : Z) : string :=
  String.substring 0 (Z.to_nat len) str.

(** [truncate(str, n)] for an integer [n] *)
Definition truncate (str : string) (n : Z) : string :=
  if (n <? Z.of_nat (String.length str))%Z
  then substr0 str (n - 1) +:+ "..."
  else str.

(** [formatDateFromNow(date)].  Times are milliseconds since the epoch;
    [None] is the time value [NaN] of an invalid date.  Parsing and the
    locale's date format belong to the platform. *)
Section FormatDate.
Variable Date_parse : string → option Z.
Variable toLocaleDateString : option Z → string.


End FormatDate.

(** ** The HTTP client ([src/lib/api.ts])

    [api] is an axios instance with one request and one response
    interceptor.  A call runs the request interceptor on the request
    configuration, hands the result to the transport, and runs the
    response interceptor on what comes back. *)

(** What the interceptors reach in the browser. *)
Record Browser := mkBrowser {
  localStorage : gmap string string;
  location_href : string }.

Record RequestConfig := mkConfig {
  config_method : string;
  config_url : string;
  config_headers : gmap string string }.

(** A failed call; [error_status] is [error.response?.status]. *)
Record AxiosError := mkAxiosError {
  error_message : string;
  error_status : option Z }.

(** The request interceptor's first handler. *)
Definition request_interceptor (b : Browser) (config : RequestConfig) : RequestConfig :=
  match localStorage b !! "auth_token" with
  | Some token =>
      if bool_decide (token = "") then config
      else mkConfig (config_method config) (config_url config)
                    (<["Authorization" := "Bearer " +:+ token]> (config_headers config))
  | None => config
  end.

(** The response interceptor's second handler; the promise it returns is
    rejected with the error it was given. *)
Definition response_error_interceptor (error : AxiosError) (b : Browser)
    : Browser * AxiosError :=
  (if bool_decide (error_status error = Some 401%Z)
   then mkBrowser (delete "auth_token" (localStorage b)) "/login"
   else b,
   error).

Section Api.
Context {Response : Type}.
(** the transport: what the server answers to a request *)
Variable transport : RequestConfig → AxiosError + Response.

(** One call through the instance.  The first component is the request as
    it was sent. *)
Definition api_request (config : RequestConfig) (b : Browser)
    : RequestConfig * Browser * (AxiosError + Response) :=
  let sent := request_interceptor b config in
  match transport sent with
  | inr response => (sent, b, inr response)
  | inl error =>
      let '(b1, error1) := response_error_interceptor error b in
      (sent, b1, inl error1)
  end.

(** [api.get(url)] *)
Definition api_get (url : string) (headers : gmap string string) (b : Browser)
    : RequestConfig * Browser * (AxiosError + Response) :=
  api_request (mkConfig "get" url headers) b.

End Api.

(** ** The header and its notifications dropdown

    [MainLayout] holds [sidebarOpen], [Header] holds [showNotifications]
    and renders [NotificationsDropdown] while it is true; [Sidebar] gets
    [setSidebarOpen] as [setOpen].  The dropdown's
    effect keeps a [mousedown] listener on the document for as long as
    the dropdown is mounted.  React renders between two events, so a
    handler sees the state the previous event left. *)

(** Where a pointer event lands. *)
Inductive Target :=
(** the menu button of the header *)
| OnMenuButton
(** the bell button *)
| OnBell
(** the dropdown or an element inside it; none has a handler *)
| InDropdown
(** the sidebar's mobile overlay or its chevron button *)
| OnSidebarClose
(** an element without a handler on these two states *)
| Elsewhere.

Record Shell := mkShell {
  sidebarOpen : bool;
  showNotifications : bool }.

(** [dropdownRef.current.contains(event.target)]: the two buttons are not
    inside the dropdown. *)
Definition dropdown_contains (t : Target) : bool :=
  match t with InDropdown => true | _ => false end.

(** [onClose], as [Header] passes it *)
Definition onClose (s : Shell) : Shell := mkShell (sidebarOpen s) false.

Definition handleClickOutside (t : Target) (s : Shell) : Shell :=
  if negb (dropdown_contains t) then onClose s else s.

(** A [mousedown] on the document: the listener is there exactly while the
    dropdown is mounted. *)
Definition mousedown (t : Target) (s : Shell) : Shell :=
  if showNotifications s then handleClickOutside t s else s.

(** The [click] that follows: [toggleSidebar], the bell's [onClick], and
    [setOpen(false)] in the sidebar. *)
Definition click (t : Target) (s : Shell) : Shell :=
  match t with
  | OnMenuButton => mkShell (negb (sidebarOpen s)) (showNotifications s)
  | OnBell => mkShell (sidebarOpen s) (negb (showNotifications s))
  | OnSidebarClose => mkShell false (showNotifications s)
  | InDropdown | Elsewhere => s
  end.

(** Pressing and releasing the pointer on one element. *)
Definition press (t : Target) (s : Shell) : Shell := click t (mousedown t s).

(** * Properties *)

Section Arithmetic.
Context `{D3}.

(** ** Arithmetic helpers *)

Lemma Qmult_swap (p q : Q) : (p * q)%Q = (q * p)%Q.
Proof.
  destruct p as [a b], q as [c d]. unfold Qmult; simpl.
  f_equal; [apply Z.mul_comm | apply Pos.mul_comm].
Qed.

Lemma js_mul_comm (a b : JsValue) : js_mul a b = js_mul b a.
Proof.
  unfold js_mul. destruct (ToNumber a), (ToNumber b); try reflexivity.
  f_equal. apply Qmult_swap.
Qed.

Lemma Math_min_spec (a b : Q) :
  (a < b ∧ Math_min a b == a)%Q ∨ (b <= a ∧ Math_min a b == b)%Q.
Proof. apply Q.min_spec. Qed.

Lemma Math_max_spec (a b : Q) :
  (a < b ∧ Math_max a b == b)%Q ∨ (b <= a ∧ Math_max a b == a)%Q.
Proof. apply Q.max_spec. Qed.

End Arithmetic.

Section Interaction.
Context `{D3}.

(** ** World fields that handlers leave alone *)

Lemma frame_engine_requests (w : World) (i : nat) :
  requests (frame_engine w i) = requests w ∧ pending (frame_engine w i) = pending w
  ∧ length (sims (frame_engine w i)) = length (sims w).
Proof.
  unfold frame_engine. destruct (sims w !! i) as [e|]; [|done].
  destruct (on_frame e (heap w)) as [e1 h1]. simpl.
  rewrite length_insert. done.
Qed.

Lemma frame_all_requests (w : World) :
  requests (frame_all w) = requests w ∧ pending (frame_all w) = pending w
  ∧ length (sims (frame_all w)) = length (sims w).
Proof.
  unfold frame_all. generalize (seq 0 (length (sims w))) as idxs.
  intros idxs. revert w. induction idxs as [|i idxs IH]; intros w; [done|].
  simpl. destruct (IH (frame_engine w i)) as (-> & -> & ->).
  apply frame_engine_requests.
Qed.

Lemma run_cleanup_requests (c : Component) (w : World) :
  requests (run_cleanup c w).2 = requests w
  ∧ pending (run_cleanup c w).2 = pending w.
Proof. unfold run_cleanup. destruct (cleanup c); done. Qed.

Lemma graph_effect_body_requests (c : Component) (w : World) :
  requests (graph_effect_body c w).1.2 = requests w
  ∧ pending (graph_effect_body c w).1.2 = pending w.
Proof.
  unfold graph_effect_body.
  destruct (graphData c) as [gd|]; [|done].
  destruct (svgRef c) as [svg|]; [|done].
  destruct (copy_nodes _ _) as [ns h1].
  destruct (copy_links _ _) as [ls h2].
  destruct (forceSimulation _ _) as [e0 h3].
  destruct (link_initialize _ _ _ _) as [h4 [msg|]];
    destruct (simulationRef c); done.
Qed.

Lemma graph_effect_requests (c : Component) (w : World) (u : option string) :
  requests (world (graph_effect c w u)) = requests w
  ∧ pending (world (graph_effect c w u)) = pending w.
Proof.
  unfold graph_effect.
  pose proof (run_cleanup_requests c w) as [Hr Hp].
  destruct (run_cleanup c w) as [c1 w1]. simpl in *.
  pose proof (graph_effect_body_requests c1 w1) as [Hr' Hp'].
  destruct (graph_effect_body c1 w1) as [[c2 w2] [msg|]]; simpl in *;
    split; congruence.
Qed.

Lemma requests_change (a : App) (ev : Event) :
  requests (world (handle a ev)) ≠ requests (world a) →
  ev = Refresh ∨ ∃ i, ev = SetInvestigation i.
Proof.
  intros Hne. destruct ev; eauto; exfalso; apply Hne; clear Hne; simpl.
  - destruct (comp a) as [c|]; [|done].
    destruct (_ && _); [done|]. apply graph_effect_requests.
  - destruct (pending (world a)) eqn:Hp; [done|].
    destruct (alloc_response _ _) as [gd h1].
    destruct (comp a) as [c|]; [|done].
    destruct (graph_effect_requests
                (render (setLoading false (setGraphData (Some gd) c)))
                (with_heap h1 (settle (world a))) (uncaught a)) as [-> _].
    done.
  - destruct (pending (world a)); done.
  - apply frame_all_requests.
  - unfold with_comp. destruct (comp a); done.
  - unfold with_comp. destruct (comp a); done.
  - destruct (comp a) as [c|]; [|done].
    destruct (svgRef c) as [svg|]; [|done]. destruct (content svg); done.
  - destruct (comp a) as [c|]; [|done]. destruct (surface_sim c ≫= _); done.
  - destruct (comp a) as [c|]; [|done]. destruct (surface_sim c); done.
  - destruct (comp a) as [c|]; [|done].
    destruct (selectedNode c), (loading c); done.
  - destruct (comp a) as [c|]; [|done].
    destruct (surface_sim c) as [e|]; [|done].
    destruct (node_of _ _ _); [|done]. simpl.
    unfold dragstarted. destruct (bool_decide _); done.
  - destruct (node_of _ _ _); done.
  - destruct (node_of _ _ _); [|done]. simpl.
    unfold dragended. destruct (bool_decide _); done.
  - destruct (comp a) as [c|]; [|done]. simpl. apply run_cleanup_requests.
Qed.

Lemma requests_quiet (a : App) (evs : list Event) :
  Forall (λ ev, ev ≠ Refresh ∧ ∀ i, ev ≠ SetInvestigation i) evs →
  requests (world (run a evs)) = requests (world a).
Proof.
  revert a. induction evs as [|ev evs IH]; intros a Hq; [done|].
  inversion Hq as [|? ? [Hr Hs] Hq']; subst. simpl.
  change (foldl handle (handle a ev) evs) with (run (handle a ev) evs).
  rewrite (IH _ Hq').
  destruct (decide (requests (world (handle a ev)) = requests (world a)))
    as [Heq|Hne]; [done|].
  destruct (requests_change a ev Hne) as [->|[i ->]]; [done|].
  by destruct (Hs i).
Qed.

(** ** A failed fetch *)

Lemma render_fields (c : Component) :
  error (render c) = error c ∧ graphData (render c) = graphData c
  ∧ selectedNode (render c) = selectedNode c ∧ zoom (render c) = zoom c
  ∧ simulationRef (render c) = simulationRef c ∧ loading (render c) = loading c
  ∧ cleanup (render c) = cleanup c.
Proof. unfold render. destruct (loading c) eqn:Hl, (svgRef c); done. Qed.

(** When a fetch fails the component ends with [loading = false] and the
    error message set; the graph data, the store and the simulations are
    what they were; no request is issued by the failure, nor by any later
    sequence of events that contains neither a press of the refresh button
    nor a change of scope.  What becomes of the drawing is another matter:
    see [render]. *)
Theorem fetch_failure_outcome (a : App) (c : Component) :
  comp a = Some c → pending (world a) ≠ 0 →
  let a' := handle a FetchReject in
  (∃ c', comp a' = Some c'
     ∧ loading c' = false
     ∧ error c' = Some fetch_error_message
     ∧ graphData c' = graphData c
     ∧ simulationRef c' = simulationRef c)
  ∧ heap (world a') = heap (world a)
  ∧ sims (world a') = sims (world a)
  ∧ requests (world a') = requests (world a)
  ∧ ∀ evs, Forall (λ ev, ev ≠ Refresh ∧ ∀ i, ev ≠ SetInvestigation i) evs →
           requests (world (run a' evs)) = requests (world a).
Proof.
  intros Hc Hp a'.
  assert (Ha' : a' = mkApp (settle (world a)) (Some (render (fetch_failed c)))
                           (uncaught a)).
  { subst a'. simpl. destruct (pending (world a)); [done|]. by rewrite Hc. }
  rewrite Ha'. simpl. split; [|repeat split; try done].
  - exists (render (fetch_failed c)).
    destruct (render_fields (fetch_failed c)) as (-> & -> & _ & _ & -> & -> & _).
    done.
  - intros evs Hq. by rewrite requests_quiet.
Qed.

(** ** Selection *)

(** The graph effect writes [simulationRef], the surface and its clean-up
    function, and no other part of the component's state. *)
Lemma graph_effect_state (c c' : Component) (w : World) (u : option string) :
  comp (graph_effect c w u) = Some c' →
  selectedNode c' = selectedNode c ∧ zoom c' = zoom c
  ∧ graphData c' = graphData c ∧ loading c' = loading c ∧ error c' = error c.
Proof.
  unfold graph_effect, run_cleanup, graph_effect_body.
  destruct (cleanup c) as [k|]; simpl;
    (destruct (graphData c) as [gd|] eqn:Hgd; simpl;
     [destruct (svgRef c) as [svg|]; simpl|]);
    try (intros [= <-]; done).
  all: destruct (copy_nodes _ _) as [ns h1].
  all: destruct (copy_links _ _) as [ls h2].
  all: destruct (link_initialize _ _ _ _) as [h4 [msg|]]; simpl.
  all: intros [= <-]; done.
Qed.

(** C5, as the code has it. The selection is one node object or none.  A
    click on a node group selects that node, and its handler stops the
    event, so the handler of the background does not run.  A click on the
    background of a surface that carries a graph, the close button of the
    overlay and the removal of the component leave no selection.  A
    successful load that rebuilds the model keeps the selection. *)
Theorem selection_protocol (a : App) (c : Component) :
  comp a = Some c →
  (∀ i e d, surface_sim c = Some e → node_of (world a) e i = Some d →
     selection (handle a (ClickNode i)) = Some d
     ∧ selected_id (handle a (ClickNode i))
       = node_id <$> nodeObjs (heap (world a)) !! d
     ∧ (node_click d c).2 = true
     ∧ dispatch_node_click d c = (node_click d c).1)
  ∧ (∀ e, surface_sim c = Some e → selection (handle a ClickBackground) = None)
  ∧ (loading c = false → selection (handle a ClickClose) = None)
  ∧ selection (handle a Unmount) = None
  ∧ (∀ data c', comp (handle a (FetchResolve data)) = Some c' →
       selectedNode c' = selectedNode c).
Proof.
  intros Hc. split; [|split; [|split; [|split]]].
  - intros i e d Hs Hd.
    assert (Ha : handle a (ClickNode i)
                 = mkApp (world a) (Some (dispatch_node_click d c)) (uncaught a)).
    { simpl. rewrite Hc, Hs. simpl. by rewrite Hd. }
    rewrite Ha. done.
  - intros e Hs. unfold selection. simpl. by rewrite Hc, Hs.
  - intros Hl. unfold selection. simpl. rewrite Hc, Hl.
    destruct (selectedNode c) eqn:Hs; simpl; [done|]. by rewrite Hc.
  - unfold selection. simpl. by rewrite Hc.
  - intros data c'. simpl. destruct (pending (world a)); [congruence|].
    destruct (alloc_response _ _) as [gd h1]. rewrite Hc.
    intros Hc'. apply graph_effect_state in Hc' as (-> & _).
    by destruct (render_fields (setLoading false (setGraphData (Some gd) c)))
      as (_ & _ & -> & _).
Qed.

(** ** Zoom *)


Lemma handle_press (a : App) (p : ZoomPress) :
  handle a (press_event p) = with_comp a (update_zoom (press_scale p)).
Proof. by destruct p. Qed.

Lemma update_zoom_zoom (f : Q → Q) (c : Component) :
  zoom (update_zoom f c) == f (zoom c).
Proof.
  unfold update_zoom. destruct (Qeq_bool _ _) eqn:Hq.
  - apply Qeq_bool_iff in Hq. by symmetry.
  - unfold zoom_effect. simpl. destruct (svgRef c); reflexivity.
Qed.

(** What a press does to the surface: nothing when the state does not
    change or no [svg] is there; otherwise the new transform has the new
    scale and the old translation, and the [g] element is not touched. *)
Lemma update_zoom_surface (f : Q → Q) (c : Component) :
  (svgRef (update_zoom f c) = svgRef c
   ∧ (f (zoom c) == zoom c ∨ svgRef c = None))
  ∨ (¬ f (zoom c) == zoom c
     ∧ ∃ svg t, svgRef c = Some svg
         ∧ svgRef (update_zoom f c)
           = Some (mkSvg (Some t) (g_transform svg) (content svg))
         ∧ t_k t == f (zoom c)
         ∧ t_x t == t_x (zoomTransform svg)
         ∧ t_y t == t_y (zoomTransform svg)).
Proof.
  unfold update_zoom. destruct (Qeq_bool _ _) eqn:Hq.
  - left. apply Qeq_bool_iff in Hq. auto.
  - apply Qeq_bool_neq in Hq. unfold zoom_effect. simpl.
    destruct (svgRef c) as [svg|] eqn:Hs; [|left; auto].
    right. split; [done|]. eexists svg, _. split; [done|]. split; [done|].
    simpl. repeat split; ring.
Qed.




(** C7, as the code has it. The zoom buttons and the pointer gestures
    write the same transform of the [svg] element, but the component
    also keeps the button scale in its [zoom] state, which no gesture
    updates.  A press that changes [zoom] gives the transform the new
    scale and keeps its translation; a press that does not change it
    writes nothing.  A gesture on a surface that carries a graph sets the
    transform to what it asks for, the scale clamped to [0.1, 4], and
    leaves [zoom] as it is. *)
Theorem zoom_paths (a : App) (c : Component) (svg : Svg) :
  comp a = Some c → svgRef c = Some svg →
  (∀ p, ∃ c', comp (handle a (press_event p)) = Some c'
      ∧ zoom c' == press_scale p (zoom c)
      ∧ (press_scale p (zoom c) == zoom c → svgRef c' = Some svg)
      ∧ (¬ press_scale p (zoom c) == zoom c →
         ∃ t, svgRef c' = Some (mkSvg (Some t) (g_transform svg) (content svg))
            ∧ t_k t == zoom c'
            ∧ t_x t == t_x (zoomTransform svg)
            ∧ t_y t == t_y (zoomTransform svg)))
  ∧ (∀ k px py e, content svg = Some e →
       let t := mkTransform (constrain_scale k) px py in
       ∃ c', comp (handle a (PointerZoom k px py)) = Some c'
         ∧ zoom c' = zoom c
         ∧ svgRef c' = Some (mkSvg (Some t) (Some t) (Some e))
         ∧ (0.1 <= constrain_scale k <= 4)%Q).
Proof.
  intros Hc Hs. split.
  - intros p. exists (update_zoom (press_scale p) c). split; [|split; [|split]].
    + rewrite handle_press. unfold with_comp. by rewrite Hc.
    + apply update_zoom_zoom.
    + intros Heq.
      destruct (update_zoom_surface (press_scale p) c) as [[-> _]|[Hne _]]; done.
    + intros Hne.
      destruct (update_zoom_surface (press_scale p) c)
        as [[_ [Heq|Hn]]|(_ & svg' & t & Hs' & Hu & Hk & Hx & Hy)];
        [done|congruence|].
      rewrite Hs in Hs'. injection Hs' as <-.
      exists t. rewrite update_zoom_zoom. done.
  - intros k px py e He t. simpl. rewrite Hc, Hs, He.
    eexists. repeat split.
    + unfold constrain_scale.
      destruct (Math_max_spec 0.1 (Math_min 4 k)) as [[? ->]|[? ->]]; lra.
    + unfold constrain_scale.
      destruct (Math_max_spec 0.1 (Math_min 4 k)) as [[? ->]|[? ->]];
        destruct (Math_min_spec 4 k) as [[? Hm]|[? Hm]]; rewrite ?Hm in *; lra.
Qed.
End Interaction.

Section Cooling.

Lemma Qltb_true (a b : Q) : Qltb a b = true ↔ (a < b)%Q.
Proof.
  unfold Qltb. rewrite negb_true_iff. split.
  - intros Hf. apply Qnot_le_lt. intros Hle. apply Qle_bool_iff in Hle. congruence.
  - intros Hlt. destruct (Qle_bool b a) eqn:Hb; [|done].
    apply Qle_bool_iff in Hb. lra.
Qed.

Lemma Qltb_false (a b : Q) : Qltb a b = false ↔ (b <= a)%Q.
Proof.
  unfold Qltb. rewrite negb_false_iff. apply Qle_bool_iff.
Qed.

Lemma Qnat_S (n : nat) : Qnat (S n) == Qnat n + 1.
Proof. unfold Qnat. rewrite Nat2Z.inj_succ, <- Z.add_1_r, inject_Z_plus. reflexivity. Qed.

Lemma Qnat_nonneg (n : nat) : (0 <= Qnat n)%Q.
Proof. unfold Qnat. change 0%Q with (inject_Z 0). rewrite <- Zle_Qle. lia. Qed.

Lemma idle_bound_spec (d : Q) : (0 < d)%Q → (999 < Qnat (idle_bound d) * d)%Q.
Proof.
  intros Hd. unfold idle_bound. rewrite Qnat_S.
  set (q := (999 / d)%Q).
  assert (Hq : q * d == 999) by (unfold q; field; lra).
  assert (Hc : (q <= Qnat (Z.to_nat (Qceiling q)))%Q).
  { apply Qle_trans with (inject_Z (Qceiling q)); [apply Qle_ceiling|].
    unfold Qnat. rewrite <- Zle_Qle. lia. }
  nra.
Qed.

Lemma on_frame_stopped (e : Simulation) (h : Heap) :
  stepper e = false → on_frame e h = (e, h).
Proof. unfold on_frame. by intros ->. Qed.

Lemma on_frame_running (e : Simulation) (h : Heap) :
  stepper e = true →
  let e' := (on_frame e h).1 in
  alpha e' = (alpha e + (alphaTarget e - alpha e) * alphaDecay e)%Q
  ∧ alphaTarget e' = alphaTarget e ∧ alphaMin e' = alphaMin e
  ∧ alphaDecay e' = alphaDecay e
  ∧ stepper e' = negb (Qltb (alpha e') (alphaMin e))
  ∧ ticks e' = S (ticks e)
  ∧ sim_nodes e' = sim_nodes e.
Proof.
  intros Hs. unfold on_frame, step, tick. rewrite Hs. simpl.
  destruct (Qltb _ _) eqn:Hq; simpl; rewrite ?Hq; done.
Qed.

Lemma frames_S (n : nat) (e : Simulation) (h : Heap) :
  frames (S n) e h = on_frame (frames n e h).1 (frames n e h).2.
Proof.
  revert e h. induction n as [|n IH]; intros e h.
  - simpl. by destruct (on_frame e h).
  - change (frames (S (S n)) e h)
      with (let '(e1, h1) := on_frame e h in frames (S n) e1 h1).
    destruct (on_frame e h) as [e1 h1] eqn:Ho. rewrite IH.
    simpl. by rewrite Ho.
Qed.

Lemma frames_stopped (n : nat) (e : Simulation) (h : Heap) :
  stepper e = false → frames n e h = (e, h).
Proof.
  intros Hs. induction n as [|n IH]; [done|].
  simpl. by rewrite on_frame_stopped.
Qed.

Section Undisturbed.
Variables (e : Simulation) (h : Heap).
Hypothesis Halpha : alpha e == 1.
Hypothesis Htarget : alphaTarget e == 0.
Hypothesis Hmin : alphaMin e == 0.001.
Hypothesis Hdecay : (0 < alphaDecay e <= 1)%Q.
Hypothesis Hrun : stepper e = true.

Let d := alphaDecay e.
Let en (n : nat) := (frames n e h).1.

Lemma cooling_invariant (n : nat) :
  alphaTarget (en n) == 0 ∧ alphaMin (en n) == 0.001
  ∧ alphaDecay (en n) = d
  ∧ (0 <= alpha (en n))%Q
  ∧ (stepper (en n) = true →
     (0.001 <= alpha (en n))%Q ∧ (alpha (en n) * (1 + Qnat n * d) <= 1)%Q
     ∧ ticks (en n) = n + ticks e)
  ∧ (stepper (en n) = false → (alpha (en n) < 0.001)%Q ∧ ticks (en n) ≤ n + ticks e).
Proof using Halpha Htarget Hmin Hdecay Hrun.
  induction n as [|n IH].
  - unfold en. simpl. split; [done|]. split; [done|]. split; [done|].
    split; [rewrite Halpha; lra|]. split.
    + intros _. rewrite Halpha. split; [lra|]. split; [|done].
      change (Qnat 0) with 0%Q. lra.
    + congruence.
  - destruct IH as (Ht & Hm & Hd & H0 & Hr & Hs).
    unfold en in *. rewrite frames_S.
    destruct (stepper (frames n e h).1) eqn:Hst.
    + destruct (Hr eq_refl) as (Hlo & Hhi & Htk).
      destruct (on_frame_running _ (frames n e h).2 Hst)
        as (Ha' & Ht' & Hm' & Hd' & Hs' & Htk' & _).
      rewrite Ht', Hm', Hd'. 
      assert (Hav : alpha (on_frame (frames n e h).1 (frames n e h).2).1
                    == alpha (frames n e h).1 * (1 - d)).
      { rewrite Ha', Ht, Hd. ring. }
      split; [done|]. split; [done|]. split; [done|].
      fold d in Hdecay.
      split; [rewrite Hav; nra|].
      rewrite Hs'. split.
      * intros Hneg. apply negb_true_iff, Qltb_false in Hneg.
        rewrite Hm in Hneg. split; [done|]. split; [|lia].
        rewrite Hav, Qnat_S. pose proof (Qnat_nonneg n) as Hn.
        set (x := alpha (frames n e h).1) in *. set (m := Qnat n) in *.
        assert (Heq : x * (1 - d) * (1 + (m + 1) * d)
                      == x * (1 + m * d) - (x * (m + 1)) * (d * d)) by ring.
        rewrite Heq.
        assert (0 <= (x * (m + 1)) * (d * d))%Q.
        { apply Qmult_le_0_compat; apply Qmult_le_0_compat; lra. }
        lra.
      * intros Hneg. apply negb_false_iff, Qltb_true in Hneg.
        rewrite Hm in Hneg. split; [done|lia].
    + rewrite on_frame_stopped by done. simpl.
      split; [done|]. split; [done|]. split; [done|]. split; [done|].
      split; [congruence|]. intros _. destruct (Hs eq_refl). split; [done|lia].
Qed.

Lemma idle_at_bound :
  stepper (en (idle_bound d)) = false.
Proof using Halpha Htarget Hmin Hdecay Hrun.
  destruct (stepper (en (idle_bound d))) eqn:Hst; [|done]. exfalso.
  destruct (cooling_invariant (idle_bound d)) as (_ & _ & _ & H0 & Hr & _).
  destruct (Hr Hst) as (Hlo & Hhi & _).
  pose proof (idle_bound_spec d (proj1 Hdecay)) as Hb.
  set (x := alpha (en (idle_bound d))) in *. set (m := (Qnat (idle_bound d) * d)%Q) in *.
  assert (Hm : (0 <= m)%Q) by lra.
  assert (Hprod : (0.001 * (1 + m) <= x * (1 + m))%Q).
  { apply Qmult_le_compat_r; lra. }
  lra.
Qed.

Lemma frames_idle (n m : nat) :
  stepper (en n) = false → n ≤ m → frames m e h = frames n e h.
Proof.
  intros Hst Hle. induction Hle as [|m Hle IH]; [done|].
  rewrite frames_S, IH. unfold en in Hst.
  rewrite on_frame_stopped by done. by destruct (frames n e h).
Qed.
End Undisturbed.

(** C2. A simulation started at alpha = 1 with alphaTarget = 0 and left
    to itself: alpha never increases from one frame to the next; while
    the timer runs each tick multiplies it by [1 - alphaDecay]; and after
    at most [idle_bound alphaDecay] frames alpha is below 0.001, the
    timer is stopped, and further frames change nothing. *)
Theorem alpha_cools_to_idle (e : Simulation) (h : Heap) :
  alpha e == 1 → alphaTarget e == 0 → alphaMin e == 0.001 →
  (0 < alphaDecay e <= 1)%Q → stepper e = true →
  (∀ n, (alpha (frames (S n) e h).1 <= alpha (frames n e h).1)%Q)
  ∧ (∀ n, stepper (frames n e h).1 = true →
          alpha (frames (S n) e h).1
          == alpha (frames n e h).1 * (1 - alphaDecay e))
  ∧ (∀ n, idle_bound (alphaDecay e) ≤ n →
          stepper (frames n e h).1 = false
          ∧ (alpha (frames n e h).1 < 0.001)%Q
          ∧ ticks (frames n e h).1 ≤ idle_bound (alphaDecay e) + ticks e
          ∧ frames (S n) e h = frames n e h).
Proof.
  intros Ha Ht Hm Hd Hr.
  assert (Hstep : ∀ n, stepper (frames n e h).1 = true →
            alpha (frames (S n) e h).1
            == alpha (frames n e h).1 * (1 - alphaDecay e)).
  { intros n Hst.
    destruct (cooling_invariant e h Ha Ht Hm Hd Hr n) as (Ht' & _ & Hd' & _).
    rewrite frames_S.
    destruct (on_frame_running _ (frames n e h).2 Hst) as (-> & _).
    rewrite Ht', Hd'. ring. }
  split; [|split; [exact Hstep|]].
  - intros n.
    destruct (cooling_invariant e h Ha Ht Hm Hd Hr n) as (_ & _ & _ & H0 & _).
    destruct (stepper (frames n e h).1) eqn:Hst.
    + rewrite (Hstep n Hst). nra.
    + rewrite frames_S, on_frame_stopped by done. cbn. lra.
  - intros n Hn.
    pose proof (idle_at_bound e h Ha Ht Hm Hd Hr) as Hidle.
    pose proof (frames_idle e h _ _ Hidle Hn) as Hn'.
    pose proof (frames_idle e h _ (S n) Hidle ltac:(lia)) as HSn.
    rewrite HSn, Hn'. split; [done|].
    destruct (cooling_invariant e h Ha Ht Hm Hd Hr (idle_bound (alphaDecay e)))
      as (_ & _ & _ & _ & _ & Hs).
    destruct (Hs Hidle). done.
Qed.
End Cooling.

Section Store.
Context `{D3}.

(** ** Writes to one node *)

Lemma update_node_other (l d : loc) f (h : Heap) :
  l ≠ d → nodeObjs (update_node l f h) !! d = nodeObjs h !! d.
Proof. intros Hne. unfold update_node. cbn [nodeObjs]. by apply list_lookup_alter_ne. Qed.

Lemma update_node_holds (P : SimulationNodeDatum → Prop) l f (h : Heap) (d : loc) :
  (∀ n, P n → P (f n)) → node_holds P h d → node_holds P (update_node l f h) d.
Proof.
  intros Hf (n & Hn & HP). unfold node_holds, update_node. cbn [nodeObjs].
  destruct (decide (l = d)) as [->|Hne].
  - exists (f n). rewrite list_lookup_alter_eq, Hn. auto.
  - exists n. by rewrite list_lookup_alter_ne.
Qed.

Lemma update_node_establishes (P Q : SimulationNodeDatum → Prop) f (h : Heap) (d : loc) :
  (∀ n, P n → Q (f n)) → node_holds P h d → node_holds Q (update_node d f h) d.
Proof.
  intros Hf (n & Hn & HP). exists (f n). unfold update_node. cbn [nodeObjs].
  rewrite list_lookup_alter_eq, Hn. auto.
Qed.

Lemma update_node_length l f (h : Heap) :
  length (nodeObjs (update_node l f h)) = length (nodeObjs h)
  ∧ linkObjs (update_node l f h) = linkObjs h
  ∧ propObjs (update_node l f h) = propObjs h.
Proof. unfold update_node. simpl. by rewrite length_alter. Qed.

(** ** Forces and integration on one node *)

Lemma take_kinematics_pinned px py r n :
  pinned_at px py n → pinned_at px py (take_kinematics r n).
Proof. by intros [? ?]. Qed.

Lemma integrate_pinned vd px py n :
  pinned_at px py n → pinned_at px py (integrate vd n).
Proof.
  intros [Hx Hy]. unfold integrate. rewrite Hx. simpl. rewrite Hy. done.
Qed.

Lemma integrate_places vd px py n :
  pinned_at px py n → placed_at px py (integrate vd n).
Proof.
  intros [Hx Hy]. unfold integrate. rewrite Hx. simpl. rewrite Hy. done.
Qed.

(** ** A tick *)

Lemma write_back_holds P i ls res (h : Heap) d :
  (∀ r n, P n → P (take_kinematics r n)) →
  node_holds P h d → node_holds P (write_back i ls res h) d.
Proof.
  intros Hf. revert i h. induction ls as [|l ls IH]; intros i h Hh; [done|].
  simpl. apply IH. destruct (res !! i); [|done].
  apply update_node_holds; [apply Hf|done].
Qed.

Lemma write_back_other i ls res (h : Heap) d :
  d ∉ ls → nodeObjs (write_back i ls res h) !! d = nodeObjs h !! d.
Proof.
  revert i h. induction ls as [|l ls IH]; intros i h Hd; [done|].
  apply not_elem_of_cons in Hd as [Hne Hd]. simpl. rewrite IH by done.
  destruct (res !! i); [|done]. by apply update_node_other.
Qed.

Lemma write_back_shape i ls res (h : Heap) :
  length (nodeObjs (write_back i ls res h)) = length (nodeObjs h)
  ∧ linkObjs (write_back i ls res h) = linkObjs h
  ∧ propObjs (write_back i ls res h) = propObjs h.
Proof.
  revert i h. induction ls as [|l ls IH]; intros i h; [done|].
  simpl. destruct (IH (S i) (match res !! i with
                             | Some r => update_node l (take_kinematics r) h
                             | None => h end)) as (-> & -> & ->).
  destruct (res !! i); [|done]. apply update_node_length.
Qed.

Lemma forces_holds P a ls fs (h : Heap) d :
  (∀ r n, P n → P (take_kinematics r n)) →
  node_holds P h d → node_holds P (foldl (apply_force a ls) h fs) d.
Proof.
  intros Hf. revert h. induction fs as [|f fs IH]; intros h Hh; [done|].
  simpl. apply IH. by apply write_back_holds.
Qed.

Lemma forces_other a ls fs (h : Heap) d :
  d ∉ ls → nodeObjs (foldl (apply_force a ls) h fs) !! d = nodeObjs h !! d.
Proof.
  intros Hd. revert h. induction fs as [|f fs IH]; intros h; [done|].
  simpl. rewrite IH. by apply write_back_other.
Qed.

Lemma forces_shape a ls fs (h : Heap) :
  length (nodeObjs (foldl (apply_force a ls) h fs)) = length (nodeObjs h)
  ∧ linkObjs (foldl (apply_force a ls) h fs) = linkObjs h
  ∧ propObjs (foldl (apply_force a ls) h fs) = propObjs h.
Proof.
  revert h. induction fs as [|f fs IH]; intros h; [done|].
  simpl. destruct (IH (apply_force a ls h f)) as (-> & -> & ->).
  apply write_back_shape.
Qed.

Lemma integrate_all_holds P vd ls (h : Heap) d :
  (∀ n, P n → P (integrate vd n)) →
  node_holds P h d → node_holds P (integrate_all vd ls h) d.
Proof.
  intros Hf. unfold integrate_all. revert h.
  induction ls as [|l ls IH]; intros h Hh; [done|].
  simpl. apply IH. by apply update_node_holds.
Qed.

Lemma integrate_all_other vd ls (h : Heap) d :
  d ∉ ls → nodeObjs (integrate_all vd ls h) !! d = nodeObjs h !! d.
Proof.
  unfold integrate_all. revert h.
  induction ls as [|l ls IH]; intros h Hd; [done|].
  apply not_elem_of_cons in Hd as [Hne Hd]. simpl. rewrite IH by done.
  by apply update_node_other.
Qed.

Lemma integrate_all_shape vd ls (h : Heap) :
  length (nodeObjs (integrate_all vd ls h)) = length (nodeObjs h)
  ∧ linkObjs (integrate_all vd ls h) = linkObjs h
  ∧ propObjs (integrate_all vd ls h) = propObjs h.
Proof.
  unfold integrate_all. revert h. induction ls as [|l ls IH]; intros h; [done|].
  simpl. destruct (IH (update_node l (integrate vd) h)) as (-> & -> & ->).
  apply update_node_length.
Qed.

Lemma integrate_all_places vd px py ls (h : Heap) d :
  d ∈ ls → node_holds (pinned_at px py) h d →
  node_holds (placed_at px py) (integrate_all vd ls h) d.
Proof.
  unfold integrate_all. revert h.
  induction ls as [|l ls IH]; intros h Hd Hh; [by apply elem_of_nil in Hd|].
  simpl. destruct (decide (l = d)) as [->|Hne].
  - apply (integrate_all_holds (placed_at px py)).
    + intros n [Hp _]. by apply integrate_places.
    + apply (update_node_establishes (pinned_at px py)); [|done].
      intros n. apply integrate_places.
  - apply IH.
    + apply elem_of_cons in Hd as [?|?]; [congruence|done].
    + apply update_node_holds; [|done]. intros n. apply integrate_pinned.
Qed.

Lemma tick_pinned px py (e : Simulation) (h : Heap) d :
  node_holds (pinned_at px py) h d → node_holds (pinned_at px py) (tick e h).2 d.
Proof.
  intros Hh. unfold tick. simpl.
  apply integrate_all_holds; [intros n; apply integrate_pinned|].
  apply forces_holds; [intros r n; apply take_kinematics_pinned|done].
Qed.

Lemma tick_places px py (e : Simulation) (h : Heap) d :
  d ∈ sim_nodes e →
  node_holds (pinned_at px py) h d → node_holds (placed_at px py) (tick e h).2 d.
Proof.
  intros Hd Hh. unfold tick. simpl. apply integrate_all_places; [done|].
  apply forces_holds; [intros r n; apply take_kinematics_pinned|done].
Qed.

Lemma tick_other (e : Simulation) (h : Heap) d :
  d ∉ sim_nodes e → nodeObjs (tick e h).2 !! d = nodeObjs h !! d.
Proof.
  intros Hd. unfold tick. simpl.
  rewrite integrate_all_other by done. by apply forces_other.
Qed.

Lemma tick_placed px py (e : Simulation) (h : Heap) d :
  node_holds (placed_at px py) h d → node_holds (placed_at px py) (tick e h).2 d.
Proof.
  intros Hh. destruct (decide (d ∈ sim_nodes e)) as [Hin|Hout].
  - apply tick_places; [done|]. destruct Hh as (n & Hn & Hp & _). by exists n.
  - destruct Hh as (n & Hn & Hp). exists n. by rewrite tick_other.
Qed.

Lemma tick_shape (e : Simulation) (h : Heap) :
  length (nodeObjs (tick e h).2) = length (nodeObjs h)
  ∧ linkObjs (tick e h).2 = linkObjs h
  ∧ propObjs (tick e h).2 = propObjs h.
Proof.
  unfold tick. simpl.
  destruct (integrate_all_shape (velocityDecay e) (sim_nodes e)
              (foldl (apply_force (alpha e + (alphaTarget e - alpha e) * alphaDecay e)
                        (sim_nodes e)) h (forces e))) as (-> & -> & ->).
  apply forces_shape.
Qed.

End Store.

Section Growth.
Context `{D3}.

(** ** Copying and allocating only extend the store *)

Lemma copy_node_fold (acc : list loc) (h : Heap) (ls : list loc) :
  ∃ extra,
    foldl copy_node (acc, h) ls
    = (acc ++ seq (length (nodeObjs h)) (length extra),
       mkHeap (nodeObjs h ++ extra) (linkObjs h) (propObjs h)).
Proof.
  revert acc h. induction ls as [|l ls IH]; intros acc h.
  - exists []. simpl. rewrite !app_nil_r. by destruct h.
  - simpl. destruct (nodeObjs h !! l) as [o|] eqn:Hl.
    + destruct (IH (acc ++ [length (nodeObjs h)])
                  (mkHeap (nodeObjs h ++ [o]) (linkObjs h) (propObjs h)))
        as [extra ->].
      exists (o :: extra). simpl. rewrite length_app, <- !app_assoc. simpl.
      rewrite Nat.add_1_r. done.
    + apply IH.
Qed.

Lemma copy_nodes_spec (ls : list loc) (h : Heap) :
  ∃ extra,
    copy_nodes ls h
    = (seq (length (nodeObjs h)) (length extra),
       mkHeap (nodeObjs h ++ extra) (linkObjs h) (propObjs h)).
Proof. apply (copy_node_fold [] h ls). Qed.

Lemma copy_link_fold (acc : list loc) (h : Heap) (ls : list loc) :
  ∃ extra,
    foldl copy_link (acc, h) ls
    = (acc ++ seq (length (linkObjs h)) (length extra),
       mkHeap (nodeObjs h) (linkObjs h ++ extra) (propObjs h)).
Proof.
  revert acc h. induction ls as [|l ls IH]; intros acc h.
  - exists []. simpl. rewrite !app_nil_r. by destruct h.
  - simpl. destruct (linkObjs h !! l) as [o|] eqn:Hl.
    + destruct (IH (acc ++ [length (linkObjs h)])
                  (mkHeap (nodeObjs h) (linkObjs h ++ [o]) (propObjs h)))
        as [extra ->].
      exists (o :: extra). simpl. rewrite length_app, <- !app_assoc. simpl.
      rewrite Nat.add_1_r. done.
    + apply IH.
Qed.

Lemma copy_links_spec (ls : list loc) (h : Heap) :
  ∃ extra,
    copy_links ls h
    = (seq (length (linkObjs h)) (length extra),
       mkHeap (nodeObjs h) (linkObjs h ++ extra) (propObjs h)).
Proof. apply (copy_link_fold [] h ls). Qed.

(** Parsing: the ids of the new nodes and the endpoints of the new links
    are those of the response. *)
Lemma alloc_node_fold_ids (acc : list loc) (h : Heap) (rs : list RawNode) :
  ∃ ns ps,
    foldl alloc_node (acc, h) rs
    = (acc ++ seq (length (nodeObjs h)) (length ns),
       mkHeap (nodeObjs h ++ ns) (linkObjs h) (propObjs h ++ ps))
    ∧ node_id <$> ns = raw_id <$> rs.
Proof.
  revert acc h. induction rs as [|r rs IH]; intros acc h.
  - exists [], []. cbn. rewrite !app_nil_r. by destruct h.
  - cbn [foldl alloc_node].
    destruct (IH (acc ++ [length (nodeObjs h)])
                (mkHeap (nodeObjs h ++
                           [mkNode (raw_id r) (raw_name r) (raw_type r)
                                   (length (propObjs h)) (raw_x r) (raw_y r)
                                   (raw_fx r) (raw_fy r) None None None])
                        (linkObjs h) (propObjs h ++ [raw_properties r])))
      as (ns & ps & -> & Hids).
    eexists (_ :: ns), (_ :: ps). cbn. rewrite length_app, <- !app_assoc.
    cbn. rewrite Nat.add_1_r, Hids. done.
Qed.

Lemma alloc_link_fold_content (acc : list loc) (h : Heap) (rs : list RawLink) :
  ∃ ls ps,
    foldl alloc_link (acc, h) rs
    = (acc ++ seq (length (linkObjs h)) (length ls),
       mkHeap (nodeObjs h) (linkObjs h ++ ls) (propObjs h ++ ps))
    ∧ Forall2 raw_link_matches rs ls.
Proof.
  revert acc h. induction rs as [|r rs IH]; intros acc h.
  - exists [], []. cbn. rewrite !app_nil_r. split; [by destruct h|constructor].
  - cbn [foldl alloc_link]. destruct (raw_lproperties r) as [p|].
    + destruct (IH (acc ++ [length (linkObjs h)])
                  (mkHeap (nodeObjs h)
                     (linkObjs h ++
                        [mkLink (ById (raw_source r)) (ById (raw_target r))
                                (raw_ltype r) (Some (length (propObjs h))) None])
                     (propObjs h ++ [p]))) as (ls & ps & -> & Hc).
      eexists (_ :: ls), (_ :: ps). cbn. rewrite length_app, <- !app_assoc.
      cbn. rewrite Nat.add_1_r. split; [done|]. by constructor.
    + destruct (IH (acc ++ [length (linkObjs h)])
                  (mkHeap (nodeObjs h)
                     (linkObjs h ++
                        [mkLink (ById (raw_source r)) (ById (raw_target r))
                                (raw_ltype r) None None])
                     (propObjs h))) as (ls & ps & -> & Hc).
      eexists (_ :: ls), ps. cbn. rewrite length_app, <- !app_assoc.
      cbn. rewrite Nat.add_1_r. split; [done|]. by constructor.
Qed.

Lemma alloc_response_content (raw : RawGraph) (h : Heap) :
  ∃ ns ls ps,
    alloc_response raw h
    = (mkGraphData (seq (length (nodeObjs h)) (length ns))
                   (seq (length (linkObjs h)) (length ls)),
       mkHeap (nodeObjs h ++ ns) (linkObjs h ++ ls) (propObjs h ++ ps))
    ∧ node_id <$> ns = raw_id <$> raw_nodes raw
    ∧ Forall2 raw_link_matches (raw_links raw) ls.
Proof.
  unfold alloc_response.
  destruct (alloc_node_fold_ids [] h (raw_nodes raw)) as (ns & ps1 & -> & Hids).
  destruct (alloc_link_fold_content [] (mkHeap (nodeObjs h ++ ns) (linkObjs h)
                                        (propObjs h ++ ps1)) (raw_links raw))
    as (ls & ps2 & -> & Hc).
  exists ns, ls, (ps1 ++ ps2). cbn. by rewrite app_assoc.
Qed.

Lemma alloc_response_spec (raw : RawGraph) (h : Heap) :
  ∃ ns ls ps,
    alloc_response raw h
    = (mkGraphData (seq (length (nodeObjs h)) (length ns))
                   (seq (length (linkObjs h)) (length ls)),
       mkHeap (nodeObjs h ++ ns) (linkObjs h ++ ls) (propObjs h ++ ps)).
Proof.
  destruct (alloc_response_content raw h) as (ns & ls & ps & Heq & _). eauto.
Qed.

(** ** Initialisation writes only to the objects it is given *)

Lemma initializeNodes_other (i : nat) (ls : list loc) (h : Heap) (d : loc) :
  d ∉ ls → nodeObjs (initializeNodes i ls h) !! d = nodeObjs h !! d.
Proof.
  revert i h. induction ls as [|l ls IH]; intros i h Hd; [done|].
  apply not_elem_of_cons in Hd as [Hne Hd]. simpl. rewrite IH by done.
  by apply update_node_other.
Qed.

Lemma initializeNodes_shape (i : nat) (ls : list loc) (h : Heap) :
  length (nodeObjs (initializeNodes i ls h)) = length (nodeObjs h)
  ∧ linkObjs (initializeNodes i ls h) = linkObjs h
  ∧ propObjs (initializeNodes i ls h) = propObjs h.
Proof.
  revert i h. induction ls as [|l ls IH]; intros i h; [done|].
  simpl. destruct (IH (S i) (update_node l (init_node i) h)) as (-> & -> & ->).
  apply update_node_length.
Qed.

Lemma update_link_shape l f (h : Heap) :
  nodeObjs (update_link l f h) = nodeObjs h
  ∧ length (linkObjs (update_link l f h)) = length (linkObjs h)
  ∧ propObjs (update_link l f h) = propObjs h.
Proof. unfold update_link. simpl. by rewrite length_alter. Qed.

Lemma update_link_other (l d : loc) f (h : Heap) :
  l ≠ d → linkObjs (update_link l f h) !! d = linkObjs h !! d.
Proof. intros Hne. unfold update_link. cbn [linkObjs]. by apply list_lookup_alter_ne. Qed.

Lemma link_initialize_shape m (i : nat) (ls : list loc) (h : Heap) :
  nodeObjs (link_initialize m i ls h).1 = nodeObjs h
  ∧ length (linkObjs (link_initialize m i ls h).1) = length (linkObjs h)
  ∧ propObjs (link_initialize m i ls h).1 = propObjs h.
Proof.
  revert i h. induction ls as [|l ls IH]; intros i h; [done|].
  cbn [link_initialize].
  pose proof (update_link_shape l (set_link_index i) h) as (E1 & E2 & E3).
  destruct (linkObjs (update_link l (set_link_index i) h) !! l) as [o|].
  - destruct (resolve m (link_source o)) as [err|s]; [done|].
    destruct (resolve m (link_target o)) as [err|t].
    + cbn [fst]. destruct (update_link_shape l (set_link_source (ByRef s))
                   (update_link l (set_link_index i) h)) as (-> & -> & ->). done.
    + destruct (IH (S i) (update_link l (set_link_target (ByRef t))
                     (update_link l (set_link_source (ByRef s))
                        (update_link l (set_link_index i) h)))) as (-> & -> & ->).
      unfold update_link. cbn [nodeObjs linkObjs propObjs].
      rewrite !length_alter. done.
  - destruct (IH (S i) (update_link l (set_link_index i) h)) as (-> & -> & ->).
    done.
Qed.

Lemma link_initialize_other m (i : nat) (ls : list loc) (h : Heap) (d : loc) :
  d ∉ ls → linkObjs (link_initialize m i ls h).1 !! d = linkObjs h !! d.
Proof.
  revert i h. induction ls as [|l ls IH]; intros i h Hd; [done|].
  apply not_elem_of_cons in Hd as [Hne Hd]. cbn [link_initialize].
  destruct (linkObjs (update_link l (set_link_index i) h) !! l) as [o|].
  - destruct (resolve m (link_source o)) as [err|s];
      [cbn [fst]; by apply update_link_other|].
    destruct (resolve m (link_target o)) as [err|t].
    + cbn [fst]. rewrite !update_link_other; done.
    + rewrite IH by done. rewrite !update_link_other; done.
  - rewrite IH by done. by apply update_link_other.
Qed.

End Growth.

Section Quiet.
Context `{D3}.

Lemma sims_keep_refl ss : sims_keep ss ss.
Proof. intros j s Hs. by exists s. Qed.

Lemma sims_keep_trans ss1 ss2 ss3 :
  sims_keep ss1 ss2 → sims_keep ss2 ss3 → sims_keep ss1 ss3.
Proof.
  intros H12 H23 j s Hs. destruct (H12 j s Hs) as (s2 & Hs2 & Hn2 & Ht2).
  destruct (H23 j s2 Hs2) as (s3 & Hs3 & Hn3 & Ht3).
  exists s3. split; [done|]. split; congruence.
Qed.

Lemma sims_keep_alter (f : Simulation → Simulation) i ss :
  (∀ s, sim_nodes (f s) = sim_nodes s ∧ ticks (f s) = ticks s) →
  sims_keep ss (alter f i ss).
Proof.
  intros Hf j s Hs. destruct (decide (i = j)) as [->|Hne].
  - exists (f s). rewrite list_lookup_alter_eq, Hs. split; [done|]. apply Hf.
  - exists s. by rewrite list_lookup_alter_ne.
Qed.

Lemma sims_keep_app ss extra : sims_keep ss (ss ++ extra).
Proof.
  intros j s Hs. exists s. split; [|done].
  rewrite lookup_app_l; [done|]. by eapply lookup_lt_Some.
Qed.

Lemma quiet_on_refl d w : quiet_on d w w.
Proof. split; [done|apply sims_keep_refl]. Qed.

Lemma quiet_on_same d w w' :
  heap w' = heap w → sims w' = sims w → quiet_on d w w'.
Proof. intros Hh Hs. split; [by rewrite Hh|]. rewrite Hs. apply sims_keep_refl. Qed.

Lemma quiet_on_trans d w1 w2 w3 :
  quiet_on d w1 w2 → quiet_on d w2 w3 → quiet_on d w1 w3.
Proof.
  intros [Hh12 Hs12] [Hh23 Hs23]. split; [congruence|].
  by eapply sims_keep_trans.
Qed.

Lemma update_sim_quiet d i (f : Simulation → Simulation) w :
  (∀ s, sim_nodes (f s) = sim_nodes s ∧ ticks (f s) = ticks s) →
  quiet_on d w (update_sim i f w).
Proof. intros Hf. split; [done|]. by apply sims_keep_alter. Qed.

Lemma sim_stop_keeps s : sim_nodes (sim_stop s) = sim_nodes s ∧ ticks (sim_stop s) = ticks s.
Proof. done. Qed.

Lemma run_cleanup_quiet d c w : quiet_on d w (run_cleanup c w).2.
Proof.
  unfold run_cleanup. destruct (cleanup c); [|apply quiet_on_refl].
  apply update_sim_quiet, sim_stop_keeps.
Qed.

Lemma run_cleanup_heap c w : heap (run_cleanup c w).2 = heap w.
Proof. unfold run_cleanup. by destruct (cleanup c). Qed.

Lemma graph_effect_body_quiet d c w :
  d < length (nodeObjs (heap w)) → quiet_on d w (graph_effect_body c w).1.2.
Proof.
  intros Hd. unfold graph_effect_body.
  destruct (graphData c) as [gd|]; [|apply quiet_on_refl].
  destruct (svgRef c) as [svg|]; [|apply quiet_on_refl].
  set (w1 := match simulationRef c with
             | Some i => update_sim i sim_stop w | None => w end).
  assert (Hw1 : quiet_on d w w1 ∧ heap w1 = heap w).
  { subst w1. destruct (simulationRef c); [|split; [apply quiet_on_refl|done]].
    split; [apply update_sim_quiet, sim_stop_keeps|done]. }
  destruct Hw1 as [Hq1 Hh1]. rewrite Hh1.
  destruct (copy_nodes_spec (nodes gd) (heap w)) as [xn ->].
  destruct (copy_links_spec (links gd)
              (mkHeap (nodeObjs (heap w) ++ xn) (linkObjs (heap w))
                      (propObjs (heap w)))) as [xl ->].
  cbn [nodeObjs linkObjs propObjs]. unfold forceSimulation.
  set (ns := seq (length (nodeObjs (heap w))) (length xn)).
  set (ls := seq (length (linkObjs (heap w))) (length xl)).
  set (h2 := mkHeap _ _ _).
  pose proof (link_initialize_shape (nodeById (initializeNodes 0 ns h2) ns) 0 ls
                (initializeNodes 0 ns h2)) as (Hn4 & _ & _).
  destruct (link_initialize _ _ _ _) as [h4 thrown]. cbn [fst] in Hn4.
  assert (Hd4 : nodeObjs h4 !! d = nodeObjs (heap w) !! d).
  { rewrite Hn4, initializeNodes_other.
    - subst h2. cbn [nodeObjs]. by rewrite lookup_app_l.
    - subst ns. rewrite elem_of_seq. lia. }
  eapply quiet_on_trans; [exact Hq1|].
  destruct thrown as [msg|]; cbn [fst snd]; (split; [|apply sims_keep_app]);
    cbn [heap]; by rewrite Hd4, Hh1.
Qed.

Lemma graph_effect_quiet d c w u :
  d < length (nodeObjs (heap w)) → quiet_on d w (world (graph_effect c w u)).
Proof.
  intros Hd. unfold graph_effect.
  pose proof (run_cleanup_quiet d c w) as Hq.
  pose proof (run_cleanup_heap c w) as Hh.
  destruct (run_cleanup c w) as [c1 w1]. cbn [snd] in *.
  pose proof (graph_effect_body_quiet d c1 w1) as Hq'.
  rewrite Hh in Hq'. specialize (Hq' Hd).
  destruct (graph_effect_body c1 w1) as [[c2 w2] [msg|]]; cbn [fst snd world] in *;
    by eapply quiet_on_trans.
Qed.

(** ** Events other than an animation frame *)

Lemma update_node_w_quiet d l f w :
  l ≠ d → quiet_on d w (update_node_w l f w).
Proof.
  intros Hne. split; [|apply sims_keep_refl].
  unfold update_node_w. cbn [heap with_heap]. by apply update_node_other.
Qed.

Lemma handle_quiet (a : App) (ev : Event) (d : loc) :
  ev ≠ Frame → drag_subject a ev ≠ Some d →
  d < length (nodeObjs (heap (world a))) →
  quiet_on d (world a) (world (handle a ev)).
Proof.
  intros Hf Hs Hd. destruct ev; try done; cbn [handle].
  - destruct (comp a); by apply quiet_on_same.
  - destruct (comp a) as [c|]; [|apply quiet_on_refl].
    destruct (bool_decide _); by apply quiet_on_same.
  - destruct (comp a) as [c|]; [|apply quiet_on_refl].
    destruct (_ && _); [apply quiet_on_refl|]. by apply graph_effect_quiet.
  - destruct (pending (world a)); [apply quiet_on_refl|].
    destruct (alloc_response_spec data (heap (world a))) as (ns & ls & ps & ->).
    set (h1 := mkHeap _ _ _).
    assert (Hq : quiet_on d (world a) (with_heap h1 (settle (world a)))).
    { split; [|apply sims_keep_refl]. subst h1. cbn. by rewrite lookup_app_l. }
    destruct (comp a) as [c|]; [|done].
    eapply quiet_on_trans; [exact Hq|]. apply graph_effect_quiet.
    subst h1. cbn. rewrite length_app. lia.
  - destruct (pending (world a)); by apply quiet_on_same.
  - unfold with_comp. destruct (comp a); apply quiet_on_refl.
  - unfold with_comp. destruct (comp a); apply quiet_on_refl.
  - destruct (comp a) as [c|]; [|apply quiet_on_refl].
    destruct (svgRef c) as [svg|]; [|apply quiet_on_refl].
    destruct (content svg); apply quiet_on_refl.
  - destruct (comp a) as [c|]; [|apply quiet_on_refl].
    destruct (surface_sim c ≫= _); apply quiet_on_refl.
  - destruct (comp a) as [c|]; [|apply quiet_on_refl].
    destruct (surface_sim c); apply quiet_on_refl.
  - destruct (comp a) as [c|]; [|apply quiet_on_refl].
    destruct (selectedNode c), (loading c); apply quiet_on_refl.
  - cbn [drag_subject] in Hs.
    destruct (comp a) as [c|]; [|apply quiet_on_refl]. cbn in Hs.
    destruct (surface_sim c) as [e|]; [|apply quiet_on_refl]. cbn in Hs.
    destruct (node_of (world a) e i) as [d'|]; [|apply quiet_on_refl].
    cbn [world]. unfold dragstarted.
    eapply quiet_on_trans; [|apply update_node_w_quiet; congruence].
    destruct (bool_decide _); [|apply quiet_on_refl].
    by apply update_sim_quiet.
  - cbn [drag_subject] in Hs.
    destruct (node_of (world a) e i) as [d'|]; [|apply quiet_on_refl].
    cbn [world]. unfold dragged. apply update_node_w_quiet; congruence.
  - cbn [drag_subject] in Hs.
    destruct (node_of (world a) e i) as [d'|]; [|apply quiet_on_refl].
    cbn [world]. unfold dragended.
    eapply quiet_on_trans; [|apply update_node_w_quiet; congruence].
    destruct (bool_decide _); [|apply quiet_on_refl].
    by apply update_sim_quiet.
  - destruct (comp a) as [c|]; [|apply quiet_on_refl]. cbn [world].
    apply run_cleanup_quiet.
Qed.

End Quiet.

Section Pinning.
Context `{D3}.
Variables (px py : Q) (e i : nat) (d : loc).

Lemma quiet_pin_step (w w' : World) :
  pin_pre px py e i d w → quiet_on d w w' → pin_step px py e i d w w'.
Proof.
  intros [Hn Hp] [Hh Hs].
  assert (Hse : ∃ s, sims w !! e = Some s ∧ sim_nodes s !! i = Some d).
  { unfold node_of in Hn. destruct (sims w !! e) as [s|]; [|done]. by exists s. }
  destruct Hse as (s & Hs1 & Hs2).
  destruct (Hs e s Hs1) as (s' & Hs' & Hnodes & Hticks).
  split; [split|split].
  - unfold node_of. rewrite Hs'. cbn. by rewrite Hnodes.
  - destruct Hp as (n & Hl & Hpn). exists n. by rewrite Hh.
  - intros (n & Hl & Hpn). exists n. by rewrite Hh.
  - intros Hne. exfalso. apply Hne. unfold ticks_of. rewrite Hs', Hs1. cbn.
    by rewrite Hticks.
Qed.

Lemma pin_step_trans (w1 w2 w3 : World) :
  pin_step px py e i d w1 w2 → pin_step px py e i d w2 w3 →
  pin_step px py e i d w1 w3.
Proof.
  intros (Hpre2 & Hpl2 & Htk2) (Hpre3 & Hpl3 & Htk3).
  split; [done|]. split; [auto|].
  intros Hne. destruct (decide (ticks_of w2 e = ticks_of w1 e)) as [Heq|Hne2].
  - apply Htk3. congruence.
  - auto.
Qed.

Lemma frame_engine_pin_step (w : World) (j : nat) :
  pin_pre px py e i d w → pin_step px py e i d w (frame_engine w j).
Proof.
  intros [Hn Hp]. unfold frame_engine.
  destruct (sims w !! j) as [s|] eqn:Hj;
    [|by apply quiet_pin_step; [|apply quiet_on_refl]].
  unfold on_frame. destruct (stepper s) eqn:Hst.
  - unfold step. destruct (tick s (heap w)) as [s1 h1] eqn:Htick.
    assert (Hs1 : s1 = sim_ticked (alpha s + (alphaTarget s - alpha s) * alphaDecay s) s)
      by (unfold tick in Htick; congruence).
    assert (Hh1 : h1 = (tick s (heap w)).2) by (by rewrite Htick).
    set (s2 := if Qltb (alpha s1) (alphaMin s1) then sim_stop s1 else s1).
    assert (Hs2 : sim_nodes s2 = sim_nodes s ∧ ticks s2 = S (ticks s)).
    { subst s2 s1. by destruct (Qltb _ _). }
    destruct Hs2 as [Hnodes Hticks].
    split; [split|split]; cbn [heap sims].
    + unfold node_of in *. cbn [sims]. destruct (decide (j = e)) as [->|Hne].
      * rewrite list_lookup_insert_eq by (by eapply lookup_lt_Some).
        cbn. rewrite Hnodes. rewrite Hj in Hn. done.
      * by rewrite list_lookup_insert_ne.
    + rewrite Hh1. by apply tick_pinned.
    + intros Hpl. rewrite Hh1. by apply tick_placed.
    + intros Hne. rewrite Hh1. apply tick_places; [|done].
      destruct (decide (j = e)) as [->|Hje].
      * unfold node_of in Hn. rewrite Hj in Hn. cbn in Hn.
        by eapply list_elem_of_lookup_2.
      * exfalso. apply Hne. unfold ticks_of. cbn [sims].
        by rewrite list_lookup_insert_ne.
  - rewrite list_insert_id by done.
    apply quiet_pin_step; [done|]. by apply quiet_on_same.
Qed.

Lemma frames_pin_step (w : World) (js : list nat) :
  pin_pre px py e i d w → pin_step px py e i d w (foldl frame_engine w js).
Proof.
  revert w. induction js as [|j js IH]; intros w Hpre.
  - apply quiet_pin_step; [done|apply quiet_on_refl].
  - simpl. pose proof (frame_engine_pin_step w j Hpre) as Hstep.
    eapply pin_step_trans; [exact Hstep|]. apply IH. apply Hstep.
Qed.

Lemma handle_pin_step (a : App) (ev : Event) :
  pin_pre px py e i d (world a) → drag_subject a ev ≠ Some d →
  pin_step px py e i d (world a) (world (handle a ev)).
Proof.
  intros Hpre Hs.
  assert (Hcase : ev = Frame ∨ ev ≠ Frame) by (destruct ev; auto).
  destruct Hcase as [->|Hne].
  - cbn. by apply frames_pin_step.
  - apply quiet_pin_step; [done|]. apply handle_quiet; [done..|].
    destruct Hpre as [_ (n & Hl & _)]. by eapply lookup_lt_Some.
Qed.

Lemma run_pin_step (a : App) (evs : list Event) :
  pin_pre px py e i d (world a) → undisturbed d a evs →
  pin_step px py e i d (world a) (world (run a evs)).
Proof.
  revert a. induction evs as [|ev evs IH]; intros a Hpre Hu.
  - apply quiet_pin_step; [done|apply quiet_on_refl].
  - destruct Hu as [Hs Hu]. cbn [run foldl].
    pose proof (handle_pin_step a ev Hpre Hs) as Hstep.
    eapply pin_step_trans; [exact Hstep|]. apply IH; [apply Hstep|done].
Qed.

Lemma dragended_pins (a : App) (active : nat) :
  node_of (world a) e i = Some d →
  is_Some (nodeObjs (heap (world a)) !! d) →
  pin_pre px py e i d (world (handle a (DragEnd e i px py active))).
Proof.
  intros Hn [n Hl]. cbn [handle]. rewrite Hn. cbn [world]. unfold dragended.
  set (w1 := if bool_decide (active = 0) then _ else _).
  assert (Hw1 : node_of w1 e i = Some d ∧ heap w1 = heap (world a)).
  { subst w1. destruct (bool_decide _); [|done]. split; [|done].
    unfold node_of in *. cbn [update_sim sims].
    destruct (sims (world a) !! e) as [s|] eqn:Hs; [|done].
    by rewrite list_lookup_alter_eq, Hs. }
  destruct Hw1 as [Hn1 Hh1]. split; [done|].
  exists (set_fixed (Some px) (Some py) n). split; [|done].
  unfold update_node_w, update_node. cbn [heap with_heap nodeObjs].
  by rewrite Hh1, list_lookup_alter_eq, Hl.
Qed.

(** C1. Once a drag of a node has ended at [(px, py)], the node keeps
    [fx = px] and [fy = py] through every later sequence of events that
    does not drag this node again, and from the first tick of its
    simulation on its position is exactly [(px, py)].  The working nodes
    of a rebuilt model are other objects. *)
Theorem dragged_node_stays_pinned (a : App) (active : nat) (evs : list Event) :
  node_of (world a) e i = Some d →
  is_Some (nodeObjs (heap (world a)) !! d) →
  let a0 := handle a (DragEnd e i px py active) in
  undisturbed d a0 evs →
  ∃ n, nodeObjs (heap (world (run a0 evs))) !! d = Some n
     ∧ node_fx n = Some px ∧ node_fy n = Some py
     ∧ (ticks_of (world a0) e < ticks_of (world (run a0 evs)) e →
        node_x n = Some px ∧ node_y n = Some py).
Proof.
  intros Hn Hl a0 Hu.
  pose proof (dragended_pins a active Hn Hl) as Hpre.
  destruct (run_pin_step a0 evs Hpre Hu) as ([_ (n & Hln & Hfx & Hfy)] & _ & Htk).
  exists n. split; [done|]. split; [done|]. split; [done|].
  intros Hlt. destruct Htk as (n' & Hln' & _ & Hx & Hy); [lia|].
  rewrite Hln in Hln'. by injection Hln' as <-.
Qed.

End Pinning.

Section Timers.
Context `{D3}.

Lemma running_alter_stop (w : World) (i j : nat) :
  running (update_sim i sim_stop w) j → running w j ∧ j ≠ i.
Proof.
  unfold running, update_sim. cbn [sims]. intros Hr.
  destruct (decide (i = j)) as [->|Hne].
  - rewrite list_lookup_alter_eq in Hr.
    destruct (sims w !! j); cbn in Hr; congruence.
  - rewrite list_lookup_alter_ne in Hr by done. auto.
Qed.

Lemma running_alter_same (f : Simulation → Simulation) (w : World) (i j : nat) :
  (∀ s, stepper (f s) = stepper s) →
  running (update_sim i f w) j → running w j.
Proof.
  unfold running, update_sim. cbn [sims]. intros Hf Hr.
  destruct (decide (i = j)) as [->|Hne].
  - rewrite list_lookup_alter_eq in Hr.
    destruct (sims w !! j) as [s|]; cbn in *; [|done]. by rewrite Hf in Hr.
  - by rewrite list_lookup_alter_ne in Hr.
Qed.

Lemma on_frame_stepper (s : Simulation) (h : Heap) :
  stepper (on_frame s h).1 = true → stepper s = true.
Proof.
  unfold on_frame. destruct (stepper s) eqn:Hs; [done|]. cbn. congruence.
Qed.

Lemma frame_engine_running (w : World) (i j : nat) :
  running (frame_engine w i) j → running w j.
Proof.
  unfold running, frame_engine.
  destruct (sims w !! i) as [s|] eqn:Hi; [|done].
  pose proof (on_frame_stepper s (heap w)) as Hst.
  destruct (on_frame s (heap w)) as [s1 h1]. cbn [sims fst] in *.
  destruct (decide (i = j)) as [->|Hne].
  - rewrite list_lookup_insert_eq by (by eapply lookup_lt_Some).
    rewrite Hi. cbn. intros [= Hr]. by rewrite Hst.
  - by rewrite list_lookup_insert_ne.
Qed.

Lemma frame_all_running (w : World) (j : nat) :
  running (frame_all w) j → running w j.
Proof.
  unfold frame_all. generalize (seq 0 (length (sims w))) as js.
  intros js. revert w. induction js as [|i js IH]; intros w; [done|].
  simpl. intros Hr. eapply frame_engine_running, IH, Hr.
Qed.

Lemma frame_engine_stopped (w : World) (i j : nat) (s : Simulation) :
  sims w !! j = Some s → stepper s = false →
  sims (frame_engine w i) !! j = Some s.
Proof.
  intros Hj Hs. unfold frame_engine.
  destruct (sims w !! i) as [s'|] eqn:Hi; [|done].
  destruct (decide (i = j)) as [->|Hne].
  - rewrite Hj in Hi. injection Hi as <-.
    rewrite on_frame_stopped by done. cbn [sims].
    by rewrite list_insert_id.
  - destruct (on_frame s' (heap w)) as [s1 h1]. cbn [sims].
    by rewrite list_lookup_insert_ne.
Qed.

Lemma frame_all_stopped (w : World) (j : nat) (s : Simulation) :
  sims w !! j = Some s → stepper s = false →
  sims (frame_all w) !! j = Some s.
Proof.
  unfold frame_all. generalize (seq 0 (length (sims w))) as js.
  intros js. revert w. induction js as [|i js IH]; intros w Hj Hs; [done|].
  simpl. apply IH; [|done]. by apply frame_engine_stopped.
Qed.

(** ** [stop()] *)

Lemma sim_stop_idempotent (s : Simulation) : sim_stop (sim_stop s) = sim_stop s.
Proof. done. Qed.

Lemma frames_after_stop (n : nat) (s : Simulation) (h : Heap) :
  frames n (sim_stop s) h = (sim_stop s, h).
Proof. by apply frames_stopped. Qed.

End Timers.

Section GraphEffect.
Context `{D3}.

Lemma run_cleanup_spec (c : Component) (w : World) :
  (run_cleanup c w).2 = stop_opt (cleanup c) w
  ∧ cleanup (run_cleanup c w).1 = None
  ∧ simulationRef (run_cleanup c w).1 = simulationRef c
  ∧ svgRef (run_cleanup c w).1 = svgRef c
  ∧ graphData (run_cleanup c w).1 = graphData c.
Proof. unfold run_cleanup. destruct (cleanup c) eqn:Hc; done. Qed.

Lemma stop_opt_length (o : option nat) (w : World) :
  length (sims (stop_opt o w)) = length (sims w).
Proof. destruct o; [|done]. cbn. by rewrite length_alter. Qed.

Lemma stop_opt_heap (o : option nat) (w : World) : heap (stop_opt o w) = heap w.
Proof. by destruct o. Qed.

Lemma stop_opt_lookup (o : option nat) (w : World) (j : nat) (s : Simulation) :
  sims w !! j = Some s →
  sims (stop_opt o w) !! j = Some s ∧ o ≠ Some j
  ∨ sims (stop_opt o w) !! j = Some (sim_stop s) ∧ o = Some j.
Proof.
  intros Hj. destruct o as [i|]; [|by left]. cbn.
  destruct (decide (i = j)) as [->|Hne].
  - right. by rewrite list_lookup_alter_eq, Hj.
  - left. rewrite list_lookup_alter_ne by done. split; congruence.
Qed.

Lemma stop_opt_running (o : option nat) (w : World) (j : nat) :
  running (stop_opt o w) j → running w j ∧ o ≠ Some j.
Proof.
  destruct o as [i|]; [|done]. intros Hr.
  apply running_alter_stop in Hr as [? ?]. split; congruence.
Qed.

(** What a run of the graph effect leaves behind: either it returned at
    its guard, or it stopped the old simulation and added a new one. *)
Lemma graph_effect_inv (c : Component) (w : World) (u : option string) :
  let a' := graph_effect c w u in
  let w0 := stop_opt (cleanup c) w in
  ((graphData c = None ∨ svgRef c = None)
   ∧ sims (world a') = sims w0
   ∧ ∃ c', comp a' = Some c' ∧ cleanup c' = None
          ∧ simulationRef c' = simulationRef c ∧ svgRef c' = svgRef c
          ∧ graphData c' = graphData c)
  ∨ (∃ s, graphData c ≠ None
        ∧ sims (world a') = sims (stop_opt (simulationRef c) w0) ++ [s]
        ∧ stepper s = true ∧ ticks s = 0
        ∧ (comp a' = None ∧ uncaught a' ≠ None
           ∨ ∃ c', comp a' = Some c' ∧ uncaught a' = u
                 ∧ cleanup c' = Some (length (sims w))
                 ∧ simulationRef c' = Some (length (sims w))
                 ∧ surface_sim c' = Some (length (sims w))
                 ∧ graphData c' = graphData c)).
Proof.
  intros a' w0. subst a'. unfold graph_effect.
  pose proof (run_cleanup_spec c w) as (Hw & Hcl & Hsr & Hsv & Hgd).
  destruct (run_cleanup c w) as [c1 w1]. cbn [fst snd] in *. subst w1. fold w0.
  unfold graph_effect_body. rewrite Hgd, Hsv, Hsr.
  destruct (graphData c) as [gd|];
    [|left; split; [by left|]; split; [done|]; exists c1; cbn; by rewrite Hgd].
  destruct (svgRef c) as [svg|];
    [|left; split; [by right|]; split; [done|]; exists c1; cbn; by rewrite Hgd].
  right. change (match simulationRef c with
                 | Some i => update_sim i sim_stop w0 | None => w0 end)
           with (stop_opt (simulationRef c) w0).
  destruct (copy_nodes _ _) as [ns h1].
  destruct (copy_links _ _) as [ls h2].
  unfold forceSimulation.
  destruct (link_initialize _ _ _ _) as [h4 [msg|]]; cbn [world comp sims uncaught].
  - eexists. split; [done|]. split; [done|]. split; [done|]. split; [done|].
    by left.
  - eexists. split; [done|]. split; [done|]. split; [done|]. split; [done|].
    right. eexists. split; [done|]. split; [done|].
    subst w0. rewrite !stop_opt_length. cbn. done.
Qed.

Lemma graph_effect_tidy (c : Component) (w : World) (u : option string) :
  tidy (mkApp w (Some c) u) → tidy (graph_effect c w u).
Proof.
  unfold tidy at 1. cbn [comp world]. intros (I1 & I2 & I3).
  assert (Hnone : ∀ j, ¬ running (stop_opt (cleanup c) w) j).
  { intros j Hr. apply stop_opt_running in Hr as [Hr Hne].
    by destruct (I1 j Hr). }
  destruct (graph_effect_inv c w u)
    as [(Hg & Hs & c' & Hc' & Hcl & Hsr & Hsv & Hgd)
       |(s & Hg & Hs & Hst & _ & Hcomp)].
  - unfold tidy. rewrite Hc'. split; [|split].
    + intros j Hr. unfold running in Hr. rewrite Hs in Hr. by destruct (Hnone j).
    + intros j Hj. unfold surface_sim in *. rewrite Hsv in Hj.
      destruct Hg as [Hg|Hg].
      * rewrite (I3 Hg) in Hj. done.
      * rewrite Hg in Hj. done.
    + intros Hn. unfold surface_sim in *. rewrite Hsv. apply I3. congruence.
  - assert (Hrun : ∀ j, running (world (graph_effect c w u)) j → j = length (sims w)).
    { intros j Hr. unfold running in Hr. rewrite Hs in Hr.
      destruct (decide (j < length (sims w))) as [Hlt|Hge].
      - rewrite lookup_app_l in Hr
          by (by rewrite !stop_opt_length).
        apply (stop_opt_running (simulationRef c)) in Hr as [Hr _].
        by destruct (Hnone j).
      - destruct (_ !! j) as [s'|] eqn:Hj; [|done].
        apply lookup_lt_Some in Hj.
        rewrite length_app, !stop_opt_length in Hj. cbn in Hj. lia. }
    unfold tidy.
    destruct Hcomp as [[-> _]|(c' & -> & _ & Hcl & Hsr & Hsf & Hgd)].
    + intros j k Hj Hk. rewrite (Hrun j Hj), (Hrun k Hk). done.
    + split; [|split].
      * intros j Hr. rewrite (Hrun j Hr). done.
      * intros j Hj. rewrite Hsf in Hj. injection Hj as <-. done.
      * intros Hn. congruence.
Qed.

End GraphEffect.

Section SingleRunner.
Context `{D3}.

Lemma comp_kept_refl c : comp_kept c c.
Proof. repeat split; auto. Qed.

Lemma comp_kept_trans c1 c2 c3 :
  comp_kept c1 c2 → comp_kept c2 c3 → comp_kept c1 c3.
Proof.
  intros (Ha & Hb & Hc & Hd) (Ha' & Hb' & Hc' & Hd').
  split; [congruence|]. split; [congruence|]. split; [|auto].
  destruct Hc' as [Hc'|Hc']; [|by right].
  destruct Hc as [Hc|Hc]; [left|right]; congruence.
Qed.

Lemma render_kept c : comp_kept c (render c).
Proof.
  unfold comp_kept, render, surface_sim.
  destruct (loading c), (svgRef c) as [svg|] eqn:Hs; cbn; rewrite ?Hs; auto.
Qed.

Lemma update_zoom_kept f c : comp_kept c (update_zoom f c).
Proof.
  unfold update_zoom. destruct (Qeq_bool _ _); [apply comp_kept_refl|].
  unfold comp_kept, zoom_effect, surface_sim. cbn.
  destruct (svgRef c) as [svg|] eqn:Hs; cbn; rewrite ?Hs; auto.
Qed.

Lemma tidy_kept (a a' : App) :
  tidy a → (∀ j, running (world a') j → running (world a) j) →
  match comp a' with
  | Some c' => ∃ c, comp a = Some c ∧ comp_kept c c'
  | None => comp a = None
  end →
  tidy a'.
Proof.
  unfold tidy. intros Ht Hr Hc. destruct (comp a') as [c'|].
  - destruct Hc as (c & Hca & Hcl & Hsr & Hsf & Hgd). rewrite Hca in Ht.
    destruct Ht as (I1 & I2 & I3). rewrite Hcl, Hsr. split; [auto|]. split.
    + intros j Hj. destruct Hsf as [Hsf|Hsf]; rewrite Hsf in Hj; [auto|done].
    + intros Hn. destruct Hsf as [Hsf|Hsf]; rewrite Hsf; auto.
  - rewrite Hc in Ht. intros j k Hj Hk. apply Ht; auto.
Qed.

Lemma tidy_mount (i : option string) (w h : Q) : tidy (mount i w h).
Proof. unfold tidy, mount. cbn. repeat split; intros; done. Qed.

Lemma tidy_step (a : App) (ev : Event) : tidy a → tidy (handle a ev).
Proof.
  intros Ht.
  assert (Hsame : ∀ a', (∀ j, running (world a') j → running (world a) j) →
                        comp a' = comp a → tidy a').
  { intros a' Hr Hc. apply (tidy_kept a); [done..|]. rewrite Hc.
    destruct (comp a) as [c|]; [|done]. exists c. split; [done|apply comp_kept_refl]. }
  assert (Hkept : ∀ c w' c' u, comp a = Some c → sims w' = sims (world a) →
                    comp_kept c c' → tidy (mkApp w' (Some c') u)).
  { intros c w' c' u Hc Hs Hk. apply (tidy_kept a); [done| |].
    - unfold running. cbn. by rewrite Hs.
    - cbn. eauto. }
  destruct ev; cbn [handle].
  - (* Refresh *)
    destruct (comp a) as [c|] eqn:Hc; [|done]. unfold start_fetch, fetchGraphData.
    eapply Hkept; [done..|]. eapply comp_kept_trans; [|apply render_kept]. 
    repeat split; auto.
  - destruct (comp a) as [c|] eqn:Hc; [|done].
    destruct (bool_decide _); [done|]. unfold start_fetch, fetchGraphData.
    eapply Hkept; [done..|]. eapply comp_kept_trans; [|apply render_kept]. 
    repeat split; auto.
  - (* Resize *)
    destruct (comp a) as [c|] eqn:Hc; [|done].
    destruct (_ && _); [done|]. apply graph_effect_tidy.
    apply (Hkept c); [done..|]. repeat split; auto.
  - (* FetchResolve *)
    destruct (pending (world a)); [done|].
    destruct (alloc_response _ _) as [gd h1].
    destruct (comp a) as [c|] eqn:Hc.
    + apply graph_effect_tidy. apply (Hkept c); [done..|].
      eapply comp_kept_trans; [|apply render_kept]. repeat split; auto. done.
    + apply Hsame; done.
  - (* FetchReject *)
    destruct (pending (world a)); [done|].
    destruct (comp a) as [c|] eqn:Hc; cbn [fmap option_fmap option_map compose].
    + apply (Hkept c); [done..|].
      eapply comp_kept_trans; [|apply render_kept]. repeat split; auto.
    + apply Hsame; done.
  - (* Frame *)
    apply Hsame; [|done]. cbn. apply frame_all_running.
  - unfold with_comp. destruct (comp a) as [c|] eqn:Hc; [|done].
    apply (Hkept c); [done..|]. apply update_zoom_kept.
  - unfold with_comp. destruct (comp a) as [c|] eqn:Hc; [|done].
    apply (Hkept c); [done..|]. apply update_zoom_kept.
  - (* PointerZoom *)
    destruct (comp a) as [c|] eqn:Hc; [|done].
    destruct (svgRef c) as [svg|] eqn:Hs; [|done].
    destruct (content svg) as [e|] eqn:He; [|done].
    apply (Hkept c); [done..|]. repeat split; auto.
    left. unfold surface_sim. cbn. by rewrite Hs.
  - destruct (comp a) as [c|] eqn:Hc; [|done].
    destruct (surface_sim c ≫= _); [|done].
    apply (Hkept c); [done..|]. repeat split; auto.
  - destruct (comp a) as [c|] eqn:Hc; [|done].
    destruct (surface_sim c); [|done].
    apply (Hkept c); [done..|]. repeat split; auto.
  - destruct (comp a) as [c|] eqn:Hc; [|done].
    destruct (selectedNode c), (loading c); try done.
    apply (Hkept c); [done..|]. repeat split; auto.
  - (* DragStart *)
    destruct (comp a) as [c|] eqn:Hc; [|done].
    destruct (surface_sim c) as [e|] eqn:He; [|done].
    destruct (node_of (world a) e i) as [d|]; [|done].
    unfold tidy in *. cbn [comp world]. rewrite Hc in *.
    destruct Ht as (I1 & I2 & I3). split; [|done].
    intros j Hr. unfold dragstarted in Hr.
    assert (Hr' : running
                    (if bool_decide (active = 0)
                     then update_sim e (λ s, sim_restart (sim_alphaTarget 0.3 s)) (world a)
                     else world a) j) by exact Hr.
    destruct (bool_decide _); [|auto].
    destruct (decide (e = j)) as [<-|Hne]; [auto|].
    apply I1. unfold running, update_sim in *. cbn [sims] in Hr'.
    by rewrite list_lookup_alter_ne in Hr'.
  - (* Drag *)
    destruct (node_of (world a) e i) as [d|]; [|done].
    apply Hsame; done.
  - (* DragEnd *)
    destruct (node_of (world a) e i) as [d|]; [|done].
    apply Hsame; [|done]. cbn [world]. intros j Hr. unfold dragended in Hr.
    assert (Hr' : running
                    (if bool_decide (active = 0)
                     then update_sim e (sim_alphaTarget 0) (world a)
                     else world a) j) by exact Hr.
    destruct (bool_decide _); [|done].
    apply (running_alter_same (sim_alphaTarget 0) (world a) e j); [done|exact Hr'].
  - (* Unmount *)
    destruct (comp a) as [c|] eqn:Hc; [|done].
    unfold tidy in *. rewrite Hc in Ht. cbn [comp world].
    destruct Ht as (I1 & _). intros j k Hj _. exfalso.
    destruct (run_cleanup_spec c (world a)) as (Hw & _). rewrite Hw in Hj.
    apply stop_opt_running in Hj as [Hj Hne]. by destruct (I1 j Hj).
Qed.

Lemma tidy_run (a : App) (evs : list Event) : tidy a → tidy (run a evs).
Proof.
  revert a. induction evs as [|ev evs IH]; intros a Ht; [done|].
  cbn. apply IH. by apply tidy_step.
Qed.

Lemma tidy_single (a : App) (j k : nat) :
  tidy a → running (world a) j → running (world a) k → j = k.
Proof.
  unfold tidy. destruct (comp a) as [c|]; [|auto].
  intros (I1 & _) Hj Hk. destruct (I1 j Hj) as [Hcj _], (I1 k Hk) as [Hck _].
  congruence.
Qed.

(** Removing the component stops whatever was running. *)
Lemma unmount_stops_all (i : option string) (w h : Q) (evs : list Event)
    (c : Component) (j : nat) :
  comp (run (mount i w h) evs) = Some c →
  ¬ running (world (handle (run (mount i w h) evs) Unmount)) j.
Proof.
  intros Hc Hr. pose proof (tidy_run _ evs (tidy_mount i w h)) as Ht.
  unfold tidy in Ht. rewrite Hc in Ht. destruct Ht as (I1 & _).
  cbn [handle] in Hr. rewrite Hc in Hr. cbn [world] in Hr.
  destruct (run_cleanup_spec c (world (run (mount i w h) evs))) as (Hw & _).
  rewrite Hw in Hr. apply stop_opt_running in Hr as [Hr Hne].
  by destruct (I1 j Hr).
Qed.

End SingleRunner.

Section Retirement.
Context `{D3}.
Variable old : nat.


Lemma still_stopped_refl ss : still_stopped old ss ss.
Proof. intros s Hs Hst. by exists s. Qed.

Lemma still_stopped_alter (f : Simulation → Simulation) i ss :
  (∀ s, stepper s = false → stepper (f s) = false ∧ ticks (f s) = ticks s) →
  still_stopped old ss (alter f i ss).
Proof.
  intros Hf s Hs Hst. destruct (decide (i = old)) as [->|Hne].
  - exists (f s). rewrite list_lookup_alter_eq, Hs. split; [done|]. by apply Hf.
  - exists s. by rewrite list_lookup_alter_ne.
Qed.

Lemma still_stopped_stop_opt o w : still_stopped old (sims w) (sims (stop_opt o w)).
Proof. destruct o; [|apply still_stopped_refl]. by apply still_stopped_alter. Qed.

Lemma retired_intro (a a' : App) :
  retired old a → still_stopped old (sims (world a)) (sims (world a')) →
  (∀ c', comp a' = Some c' → surface_sim c' ≠ Some old) →
  retired old a' ∧ ticks_of (world a') old = ticks_of (world a) old.
Proof.
  intros [Hst Hsf] Hss Hsf'. unfold retired, ticks_of.
  destruct (sims (world a) !! old) as [s|] eqn:Hs; [|done].
  injection Hst as Hst. destruct (Hss s Hs Hst) as (s' & -> & Hst' & Htk).
  cbn. rewrite Hst', Htk. done.
Qed.

Lemma kept_surface (c c' : Component) :
  comp_kept c c' → surface_sim c ≠ Some old → surface_sim c' ≠ Some old.
Proof. intros (_ & _ & [->| ->] & _); done. Qed.

Lemma graph_effect_retired (c : Component) (w : World) (u : option string) :
  surface_sim c ≠ Some old → is_Some (sims w !! old) →
  still_stopped old (sims w) (sims (world (graph_effect c w u)))
  ∧ ∀ c', comp (graph_effect c w u) = Some c' → surface_sim c' ≠ Some old.
Proof.
  intros Hsf [s0 Hs0]. apply lookup_lt_Some in Hs0 as Hlt.
  destruct (graph_effect_inv c w u)
    as [(Hg & Hs & c' & Hc' & Hcl & Hsr & Hsv & Hgd)
       |(s & Hg & Hs & Hst & _ & Hcomp)].
  - rewrite Hs. split; [apply still_stopped_stop_opt|].
    intros c'' Hc''. rewrite Hc' in Hc''. injection Hc'' as <-.
    unfold surface_sim in *. by rewrite Hsv.
  - split.
    + intros s0' Hs0' Hst0. rewrite Hs.
      rewrite lookup_app_l by (by rewrite !stop_opt_length).
      destruct (still_stopped_stop_opt (cleanup c) w s0' Hs0' Hst0)
        as (s1 & Hs1 & Hst1 & Htk1).
      destruct (still_stopped_stop_opt (simulationRef c)
                  (stop_opt (cleanup c) w) s1 Hs1 Hst1) as (s2 & Hs2 & Hst2 & Htk2).
      exists s2. split; [done|]. split; [done|congruence].
    + intros c' Hc'.
      destruct Hcomp as [[Hn _]|(c'' & Hc'' & _ & _ & _ & Hsf' & _)];
        [congruence|].
      rewrite Hc' in Hc''. injection Hc'' as <-. rewrite Hsf'.
      intros [= Heq]. lia.
Qed.

Lemma retired_step (a : App) (ev : Event) :
  retired old a →
  retired old (handle a ev)
  ∧ ticks_of (world (handle a ev)) old = ticks_of (world a) old.
Proof.
  intros Hr.
  assert (Hex : is_Some (sims (world a) !! old)).
  { destruct Hr as [Hst _]. destruct (sims (world a) !! old); [eauto|done]. }
  assert (Hsame : ∀ a', sims (world a') = sims (world a) →
            match comp a' with
            | Some c' => ∃ c, comp a = Some c ∧ comp_kept c c'
            | None => True
            end →
            retired old a' ∧ ticks_of (world a') old = ticks_of (world a) old).
  { intros a' Hs Hc. apply retired_intro; [done| |].
    - rewrite Hs. apply still_stopped_refl.
    - intros c' Hc'. rewrite Hc' in Hc. destruct Hc as (c & Hca & Hk).
      eapply kept_surface; [done|]. by apply Hr. }
  assert (Hid : retired old a ∧ ticks_of (world a) old = ticks_of (world a) old)
    by done.
  destruct ev; cbn [handle].
  - destruct (comp a) as [c|] eqn:Hc; [|done].
    apply Hsame; [done|]. unfold start_fetch, fetchGraphData; cbn [comp]. exists c. split; [done|].
    eapply comp_kept_trans; [|apply render_kept]. repeat split; auto.
  - destruct (comp a) as [c|] eqn:Hc; [|done].
    destruct (bool_decide _); [done|].
    apply Hsame; [done|]. unfold start_fetch, fetchGraphData; cbn [comp]. exists c. split; [done|].
    eapply comp_kept_trans; [|apply render_kept]. repeat split; auto.
  - destruct (comp a) as [c|] eqn:Hc; [|done].
    destruct (_ && _); [done|].
    assert (Hsfc : surface_sim (set_props (investigationId c) w h c) ≠ Some old)
      by exact (proj2 Hr c Hc).
    destruct (graph_effect_retired _ (world a) (uncaught a) Hsfc Hex) as [Hss Hsf'].
    by apply retired_intro.
  - destruct (pending (world a)); [done|].
    destruct (alloc_response _ _) as [gd h1].
    destruct (comp a) as [c|] eqn:Hc; [|by apply Hsame].
    assert (Hsfc : surface_sim (render (setLoading false (setGraphData (Some gd) c)))
                   ≠ Some old).
    { eapply kept_surface; [apply render_kept|]. exact (proj2 Hr c Hc). }
    destruct (graph_effect_retired _ (with_heap h1 (settle (world a))) (uncaught a)
                Hsfc Hex) as [Hss Hsf'].
    by apply retired_intro.
  - destruct (pending (world a)); [done|].
    apply Hsame; [done|]. cbn [comp].
    destruct (comp a) as [c|] eqn:Hc; [|done].
    cbn [fmap option_fmap option_map compose]. exists c. split; [done|].
    eapply comp_kept_trans; [|apply render_kept]. repeat split; auto.
  - apply retired_intro; [done| |].
    + intros s Hs Hst. exists s. split; [|done]. cbn. by apply frame_all_stopped.
    + intros c' Hc'. by apply Hr.
  - apply Hsame; [by unfold with_comp; destruct (comp a)|].
    unfold with_comp. destruct (comp a) as [c|] eqn:Hc; cbn [comp]; [|by rewrite Hc].
    exists c. split; [done|apply update_zoom_kept].
  - apply Hsame; [by unfold with_comp; destruct (comp a)|].
    unfold with_comp. destruct (comp a) as [c|] eqn:Hc; cbn [comp]; [|by rewrite Hc].
    exists c. split; [done|apply update_zoom_kept].
  - destruct (comp a) as [c|] eqn:Hc; [|done].
    destruct (svgRef c) as [svg|] eqn:Hs; [|done].
    destruct (content svg) as [e|] eqn:He; [|done].
    apply Hsame; [done|]. unfold start_fetch, fetchGraphData; cbn [comp]. exists c. split; [done|]. repeat split; auto.
    left. unfold surface_sim. cbn. by rewrite Hs.
  - destruct (comp a) as [c|] eqn:Hc; [|done].
    destruct (surface_sim c ≫= _); [|done].
    apply Hsame; [done|]. unfold start_fetch, fetchGraphData; cbn [comp]. exists c. split; [done|]. repeat split; auto.
  - destruct (comp a) as [c|] eqn:Hc; [|done].
    destruct (surface_sim c); [|done].
    apply Hsame; [done|]. unfold start_fetch, fetchGraphData; cbn [comp]. exists c. split; [done|]. repeat split; auto.
  - destruct (comp a) as [c|] eqn:Hc; [|done].
    destruct (selectedNode c), (loading c); try done.
    apply Hsame; [done|]. unfold start_fetch, fetchGraphData; cbn [comp]. exists c. split; [done|]. repeat split; auto.
  - destruct (comp a) as [c|] eqn:Hc; [|done].
    destruct (surface_sim c) as [e|] eqn:He; [|done].
    destruct (node_of (world a) e i) as [d|]; [|done].
    apply retired_intro; [done| |].
    + cbn [world]. unfold dragstarted, update_node_w. cbn [sims with_heap].
      destruct (bool_decide _); [|apply still_stopped_refl].
      intros s Hs Hst. exists s. split; [|done]. cbn [update_sim sims].
      rewrite list_lookup_alter_ne; [done|].
      intros ->. exact (proj2 Hr c Hc He).
    + cbn [comp]. intros c' [= <-]. exact (proj2 Hr c Hc).
  - destruct (node_of (world a) e i) as [d|]; [|done].
    apply Hsame; [done|]. cbn [comp]. destruct (comp a) as [c|]; [|done].
    exists c. split; [done|apply comp_kept_refl].
  - destruct (node_of (world a) e i) as [d|]; [|done].
    apply retired_intro; [done| |].
    + cbn [world]. unfold dragended, update_node_w. cbn [sims with_heap].
      destruct (bool_decide _); [|apply still_stopped_refl].
      by apply still_stopped_alter.
    + cbn [comp]. intros c' Hc'. by apply Hr.
  - destruct (comp a) as [c|] eqn:Hc; [|done].
    apply retired_intro; [done| |done]. cbn [world].
    destruct (run_cleanup_spec c (world a)) as (-> & _).
    apply still_stopped_stop_opt.
Qed.

Lemma retired_run (a : App) (evs : list Event) :
  retired old a →
  retired old (run a evs)
  ∧ ticks_of (world (run a evs)) old = ticks_of (world a) old.
Proof.
  revert a. induction evs as [|ev evs IH]; intros a Hr; [done|].
  cbn [run foldl]. destruct (retired_step a ev Hr) as [Hr' Htk].
  destruct (IH _ Hr') as [Hr'' Htk']. split; [done|]. unfold run in *. congruence.
Qed.
End Retirement.

Section Replace.
Context `{D3}.

Lemma render_mounts (c : Component) :
  loading c = false → is_Some (svgRef (render c)).
Proof. intros Hl. unfold render. rewrite Hl. destruct (svgRef c) eqn:Hs; cbn; eauto. Qed.

(** A load that succeeds retires the simulation the component held. *)
Lemma install_retires (a : App) (c : Component) (old : nat) (data : RawGraph) :
  comp a = Some c → simulationRef c = Some old →
  is_Some (sims (world a) !! old) → pending (world a) ≠ 0 →
  retired old (handle a (FetchResolve data))
  ∧ ticks_of (world (handle a (FetchResolve data))) old = ticks_of (world a) old.
Proof.
  intros Hc Hold [s0 Hs0] Hp. cbn [handle].
  destruct (pending (world a)); [done|].
  destruct (alloc_response _ _) as [gd h1]. rewrite Hc.
  set (c1 := render (setLoading false (setGraphData (Some gd) c))).
  set (w1 := with_heap h1 (settle (world a))).
  assert (Hsr : simulationRef c1 = Some old).
  { subst c1. destruct (render_kept (setLoading false (setGraphData (Some gd) c)))
      as (_ & -> & _). done. }
  assert (Hsv : is_Some (svgRef c1)) by (by apply render_mounts).
  assert (Hgd : graphData c1 = Some gd).
  { subst c1. by destruct (render_fields (setLoading false (setGraphData (Some gd) c)))
      as (_ & -> & _). }
  apply lookup_lt_Some in Hs0 as Hlt.
  destruct (graph_effect_inv c1 w1 (uncaught a))
    as [([Hg|Hg] & _)|(s & _ & Hs & _ & _ & Hcomp)].
  - congruence.
  - rewrite Hg in Hsv. by destruct Hsv.
  - rewrite Hsr in Hs.
    assert (Hlook : ∃ s', sims (world (graph_effect c1 w1 (uncaught a))) !! old = Some s'
                          ∧ stepper s' = false ∧ ticks s' = ticks s0).
    { rewrite Hs. rewrite lookup_app_l by (by rewrite !stop_opt_length).
      destruct (stop_opt_lookup (cleanup c1) w1 old s0 Hs0) as [[Hl _]|[Hl _]].
      - destruct (stop_opt_lookup (Some old) (stop_opt (cleanup c1) w1) old s0 Hl)
          as [[_ Hne]|[Hl' _]]; [done|]. eauto.
      - destruct (stop_opt_lookup (Some old) (stop_opt (cleanup c1) w1) old _ Hl)
          as [[_ Hne]|[Hl' _]]; [done|]. eauto. }
    destruct Hlook as (s' & Hl & Hst & Htk).
    assert (Hsurf : ∀ c', comp (graph_effect c1 w1 (uncaught a)) = Some c' →
                          surface_sim c' ≠ Some old).
    { intros c' Hc'.
      destruct Hcomp as [[Hn _]|(c'' & Hc'' & _ & _ & _ & Hsf & _)]; [congruence|].
      rewrite Hc' in Hc''. injection Hc'' as <-. rewrite Hsf.
      intros [= Heq]. subst w1. cbn in Heq. lia. }
    unfold retired, ticks_of. rewrite Hl, Hs0. cbn [fmap option_fmap option_map default].
    rewrite Hst, Htk. done.
Qed.

(** C3. [stop()] is idempotent, and after it no frame ticks the
    simulation or changes the store.  A load that succeeds while the
    component holds a simulation stops that simulation: whatever happens
    afterwards, it is not running and has not ticked again.  From
    mounting on, at most one simulation is running at any time. *)
Theorem stop_and_replace :
  (∀ s, sim_stop (sim_stop s) = sim_stop s)
  ∧ (∀ n s h, frames n (sim_stop s) h = (sim_stop s, h))
  ∧ (∀ a c old data evs,
       comp a = Some c → simulationRef c = Some old →
       is_Some (sims (world a) !! old) → pending (world a) ≠ 0 →
       ¬ running (world (run (handle a (FetchResolve data)) evs)) old
       ∧ ticks_of (world (run (handle a (FetchResolve data)) evs)) old
         = ticks_of (world a) old)
  ∧ (∀ i w h evs j k,
       running (world (run (mount i w h) evs)) j →
       running (world (run (mount i w h) evs)) k → j = k).
Proof.
  split; [exact sim_stop_idempotent|]. split; [exact frames_after_stop|]. split.
  - intros a c old data evs Hc Hold Hex Hp.
    destruct (install_retires a c old data Hc Hold Hex Hp) as [Hr Htk].
    destruct (retired_run old _ evs Hr) as [[Hst _] Htk'].
    split; [|congruence]. unfold running. rewrite Hst. done.
  - intros i w h evs j k. apply tidy_single, tidy_run, tidy_mount.
Qed.
End Replace.

Section LinkForce.
Context `{D3}.

(** ** The id map *)

Lemma map_get_Some m k v : map_get m k = Some v → (k, v) ∈ m.
Proof.
  induction m as [|[k' v'] m IH]; [done|]. cbn.
  destruct (map_get m k) as [v0|].
  - intros [= ->]. right. by apply IH.
  - case_bool_decide as Hk; [|done]. intros [= ->]. subst. left.
Qed.

Lemma map_get_None m k : map_get m k = None ↔ k ∉ m.*1.
Proof.
  induction m as [|[k' v'] m IH]; cbn.
  - split; [|done]. intros _. apply not_elem_of_nil.
  - rewrite not_elem_of_cons. destruct (map_get m k) as [v0|].
    + split; [done|]. intros [_ Hn]. by apply IH in Hn.
    + case_bool_decide as Hk; split; try done.
      * intros [Hne _]. done.
      * intros _. split; [done|]. by apply IH.
Qed.

Lemma nodeById_keys h ns : (nodeById h ns).*1 = ids_of h ns.
Proof.
  unfold nodeById, ids_of. induction ns as [|l ns IH]; [done|].
  cbn. destruct (nodeObjs h !! l) as [o|]; cbn; [|done]. by rewrite IH.
Qed.

Lemma nodeById_elem h ns k l :
  (k, l) ∈ nodeById h ns → l ∈ ns ∧ node_id <$> nodeObjs h !! l = Some k.
Proof.
  unfold nodeById. rewrite list_elem_of_omap. intros (l' & Hl' & Ho).
  destruct (nodeObjs h !! l') as [o|] eqn:Hlook; [|done].
  cbn in Ho. injection Ho as <- <-. by rewrite Hlook.
Qed.

Lemma Forall2_with_right {A B} (P : A → B → Prop) (Q : B → Prop) xs ys :
  Forall2 P xs ys → (∀ y, y ∈ ys → Q y) → Forall2 (λ x y, P x y ∧ Q y) xs ys.
Proof.
  intros Hf. induction Hf as [|x y xs ys Hxy Hf IH]; intros HQ; constructor.
  - split; [done|]. apply HQ. left.
  - apply IH. intros y' Hy'. apply HQ. by right.
Qed.

(** ** The loop of the link force *)

Lemma link_initialize_raw m (i : nat) (ls : list loc) (rs : list RawLink) (h : Heap) :
  NoDup ls →
  Forall2 (λ r l, ∃ o, linkObjs h !! l = Some o ∧ raw_link_matches r o) rs ls →
  let known := λ k, bool_decide (is_Some (map_get m k)) in
  match first_missing known rs with
  | Some k => (link_initialize m i ls h).2 = Some ("node not found: " +:+ k)
  | None =>
      (link_initialize m i ls h).2 = None
      ∧ Forall2 (λ r l, ∃ o sl tl,
                   linkObjs (link_initialize m i ls h).1 !! l = Some o
                   ∧ link_source o = ByRef sl ∧ map_get m (raw_source r) = Some sl
                   ∧ link_target o = ByRef tl ∧ map_get m (raw_target r) = Some tl
                   ∧ link_type o = raw_ltype r) rs ls
  end.
Proof.
  intros Hnd Hf known. revert i h Hnd Hf.
  induction ls as [|l ls IH] in rs |- *; intros i h Hnd Hf.
  - apply Forall2_nil_inv_r in Hf as ->. cbn. done.
  - apply Forall2_cons_inv_r in Hf as (r & rs' & (o & Ho & Hsrc & Htgt & Hty) & Hf & ->).
    apply list.NoDup_cons in Hnd as [Hnotin Hnd].
    cbn [link_initialize first_missing].
    assert (Ho1 : linkObjs (update_link l (set_link_index i) h) !! l
                  = Some (set_link_index i o)).
    { unfold update_link. cbn [linkObjs]. by rewrite list_lookup_alter_eq, Ho. }
    rewrite Ho1. cbn [set_link_index link_source link_target]. rewrite Hsrc, Htgt.
    cbn [resolve]. unfold find, known at 1.
    destruct (map_get m (raw_source r)) as [sl|] eqn:Hs;
      [rewrite bool_decide_true by eauto|rewrite bool_decide_false by (by intros [? ?])];
      [|done].
    unfold known at 1.
    destruct (map_get m (raw_target r)) as [tl|] eqn:Ht;
      [rewrite bool_decide_true by eauto|rewrite bool_decide_false by (by intros [? ?])];
      [|done].
    set (h3 := update_link l (set_link_target (ByRef tl))
                 (update_link l (set_link_source (ByRef sl))
                    (update_link l (set_link_index i) h))).
    assert (Hl3 : linkObjs h3 !! l
                  = Some (mkLink (ByRef sl) (ByRef tl) (link_type o)
                                 (link_properties o) (Some i))).
    { subst h3. unfold update_link. cbn [linkObjs].
      by rewrite !list_lookup_alter_eq, Ho. }
    assert (Hrest : Forall2 (λ r l0, ∃ o0, linkObjs h3 !! l0 = Some o0
                                       ∧ raw_link_matches r o0) rs' ls).
    { eapply list.Forall2_impl;
        [apply (Forall2_with_right _ (λ l0, l0 ≠ l) _ _ Hf); by intros l0 Hin ->|].
      intros r0 l0 [(o0 & Ho0 & Hm) Hne].
      exists o0. split; [|done]. subst h3.
      rewrite !update_link_other; done. }
    specialize (IH rs' (S i) h3 Hnd Hrest).
    destruct (first_missing known rs') as [k|]; [done|].
    destruct IH as [Hnone Hall]. split; [done|]. constructor; [|done].
    eexists _, sl, tl. split.
    + rewrite link_initialize_other by done. exact Hl3.
    + done.
Qed.
End LinkForce.

Section Contents.
Context `{D3}.

(** ** What parsing and copying put into the store *)

Lemma lookup_seq_app {A} (xs ys : list A) :
  omap (λ l, (xs ++ ys) !! l) (seq (length xs) (length ys)) = ys.
Proof.
  revert xs. induction ys as [|y ys IH]; intros xs; [done|].
  cbn. rewrite list_lookup_middle by done.
  f_equal. specialize (IH (xs ++ [y])).
  rewrite length_app, Nat.add_1_r, <- app_assoc in IH. exact IH.
Qed.

Lemma omap_lookup_app {A} (xs ys : list A) (ls : list nat) :
  Forall (λ l, l < length xs) ls →
  omap (λ l, (xs ++ ys) !! l) ls = omap (λ l, xs !! l) ls.
Proof.
  induction 1 as [|l ls Hl _ IH]; [done|].
  cbn. rewrite lookup_app_l by done. by rewrite IH.
Qed.

Lemma omap_lookup_length {A} (xs : list A) (ls : list nat) :
  Forall (λ l, l < length xs) ls → length (omap (λ l, xs !! l) ls) = length ls.
Proof.
  induction 1 as [|l ls Hl _ IH]; [done|].
  cbn. destruct (lookup_lt_is_Some_2 xs l Hl) as [x ->]. cbn. by rewrite IH.
Qed.

Lemma copy_node_fold_valid (acc : list loc) (h : Heap) (ls : list loc) :
  Forall (λ l, l < length (nodeObjs h)) ls →
  foldl copy_node (acc, h) ls
  = (acc ++ seq (length (nodeObjs h)) (length ls),
     mkHeap (nodeObjs h ++ read_nodes h ls) (linkObjs h) (propObjs h)).
Proof.
  intros Hv. revert acc h Hv. induction ls as [|l ls IH]; intros acc h Hv.
  - cbn. rewrite !app_nil_r. by destruct h.
  - inversion Hv as [|? ? Hl Hv']; subst.
    destruct (lookup_lt_is_Some_2 _ _ Hl) as [o Ho].
    cbn [foldl copy_node]. rewrite Ho. rewrite IH.
    + unfold read_nodes. cbn. rewrite Ho.
      rewrite omap_lookup_app by done.
      rewrite length_app, Nat.add_1_r, <- !app_assoc. done.
    + cbn [nodeObjs]. eapply Forall_impl; [|exact Hv'].
      intros l' Hl'. rewrite length_app. cbn in *. lia.
Qed.

Lemma copy_link_fold_valid (acc : list loc) (h : Heap) (ls : list loc) :
  Forall (λ l, l < length (linkObjs h)) ls →
  foldl copy_link (acc, h) ls
  = (acc ++ seq (length (linkObjs h)) (length ls),
     mkHeap (nodeObjs h) (linkObjs h ++ read_links h ls) (propObjs h)).
Proof.
  intros Hv. revert acc h Hv. induction ls as [|l ls IH]; intros acc h Hv.
  - cbn. rewrite !app_nil_r. by destruct h.
  - inversion Hv as [|? ? Hl Hv']; subst.
    destruct (lookup_lt_is_Some_2 _ _ Hl) as [o Ho].
    cbn [foldl copy_link]. rewrite Ho. rewrite IH.
    + unfold read_links. cbn. rewrite Ho.
      rewrite omap_lookup_app by done.
      rewrite length_app, Nat.add_1_r, <- !app_assoc. done.
    + cbn [linkObjs]. eapply Forall_impl; [|exact Hv'].
      intros l' Hl'. rewrite length_app. cbn in *. lia.
Qed.

Lemma seq_valid (a n len : nat) : a + n ≤ len → Forall (λ l, l < len) (seq a n).
Proof. intros Hle. apply list.Forall_forall. intros l Hl. apply elem_of_seq in Hl. lia. Qed.

(** Copying the graph that was just parsed. *)
Lemma copy_nodes_fresh (old ns : list SimulationNodeDatum) lo po :
  copy_nodes (seq (length old) (length ns)) (mkHeap (old ++ ns) lo po)
  = (seq (length old + length ns) (length ns),
     mkHeap ((old ++ ns) ++ ns) lo po).
Proof.
  unfold copy_nodes. rewrite copy_node_fold_valid.
  - cbn [nodeObjs linkObjs propObjs app]. unfold read_nodes. cbn [nodeObjs].
    rewrite lookup_seq_app, length_app, length_seq. done.
  - cbn [nodeObjs]. apply seq_valid. rewrite length_app. lia.
Qed.

Lemma copy_links_fresh (old ls : list SimulationLinkDatum) no po :
  copy_links (seq (length old) (length ls)) (mkHeap no (old ++ ls) po)
  = (seq (length old + length ls) (length ls),
     mkHeap no ((old ++ ls) ++ ls) po).
Proof.
  unfold copy_links. rewrite copy_link_fold_valid.
  - cbn [nodeObjs linkObjs propObjs app]. unfold read_links. cbn [linkObjs].
    rewrite lookup_seq_app, length_app, length_seq. done.
  - cbn [linkObjs]. apply seq_valid. rewrite length_app. lia.
Qed.

(** X1. The working copies are new objects that agree with the originals
    field for field, the address in [properties] included; no properties
    object is created. *)
Lemma copy_nodes_shallow (ls : list loc) (h : Heap) :
  Forall (λ l, l < length (nodeObjs h)) ls →
  read_nodes (copy_nodes ls h).2 (copy_nodes ls h).1 = read_nodes h ls
  ∧ Forall (λ l', length (nodeObjs h) ≤ l') (copy_nodes ls h).1
  ∧ propObjs (copy_nodes ls h).2 = propObjs h.
Proof.
  intros Hv. unfold copy_nodes. rewrite copy_node_fold_valid by done.
  cbn [fst snd app propObjs]. split; [|split; [|done]].
  - unfold read_nodes at 1. cbn [nodeObjs].
    rewrite <- (omap_lookup_length (nodeObjs h) ls Hv) at 1.
    apply lookup_seq_app.
  - apply list.Forall_forall. intros l' Hl'. apply elem_of_seq in Hl'. lia.
Qed.

(** ** Ids survive initialisation *)

Lemma init_node_id i n : node_id (init_node i n) = node_id n.
Proof.
  destruct n as [? ? ? ? x y fx fy ? vx vy]. unfold init_node. cbv zeta.
  destruct fx, fy, x, y, vx, vy; done.
Qed.

Lemma initializeNodes_id (i : nat) (ls : list loc) (h : Heap) (d : loc) :
  node_id <$> nodeObjs (initializeNodes i ls h) !! d = node_id <$> nodeObjs h !! d.
Proof.
  revert i h. induction ls as [|l ls IH]; intros i h; [done|].
  cbn [initializeNodes]. rewrite IH. unfold update_node. cbn [nodeObjs].
  destruct (decide (l = d)) as [->|Hne].
  - rewrite list_lookup_alter_eq. destruct (nodeObjs h !! d); [|done].
    cbn. by rewrite init_node_id.
  - by rewrite list_lookup_alter_ne.
Qed.

Lemma ids_of_ext (h h' : Heap) (ls : list loc) :
  (∀ d, node_id <$> nodeObjs h' !! d = node_id <$> nodeObjs h !! d) →
  ids_of h' ls = ids_of h ls.
Proof.
  intros Hext. unfold ids_of. induction ls as [|l ls IH]; [done|].
  cbn. by rewrite Hext, IH.
Qed.

Lemma ids_of_read (h : Heap) (ls : list loc) :
  ids_of h ls = node_id <$> read_nodes h ls.
Proof.
  unfold ids_of, read_nodes. induction ls as [|l ls IH]; [done|].
  cbn. destruct (nodeObjs h !! l); cbn; by rewrite IH.
Qed.

Lemma first_missing_ext (k1 k2 : string → bool) (rs : list RawLink) :
  (∀ s, k1 s = k2 s) → first_missing k1 rs = first_missing k2 rs.
Proof.
  intros Hext. induction rs as [|r rs IH]; [done|].
  cbn. by rewrite !Hext, IH.
Qed.

Lemma links_at_fresh (P : RawLink → SimulationLinkDatum → Prop)
    (old objs : list SimulationLinkDatum) (rs : list RawLink) :
  Forall2 P rs objs →
  Forall2 (λ r l, ∃ o, (old ++ objs) !! l = Some o ∧ P r o)
          rs (seq (length old) (length objs)).
Proof.
  intros Hf. revert old. induction Hf as [|r o rs objs Hro Hf IH]; intros old.
  - constructor.
  - cbn [length seq]. constructor.
    + exists o. by rewrite list_lookup_middle.
    + specialize (IH (old ++ [o])).
      rewrite length_app, Nat.add_1_r, <- app_assoc in IH. exact IH.
Qed.

End Contents.

Section Ingestion.
Context `{D3}.

Lemma resolved_links_view (h3 h4 : Heap) (wns wls : list loc) (rs : list RawLink) :
  nodeObjs h4 = nodeObjs h3 →
  Forall2 (λ r l, ∃ o sl tl,
             linkObjs h4 !! l = Some o
             ∧ link_source o = ByRef sl
             ∧ map_get (nodeById h3 wns) (raw_source r) = Some sl
             ∧ link_target o = ByRef tl
             ∧ map_get (nodeById h3 wns) (raw_target r) = Some tl
             ∧ link_type o = raw_ltype r) rs wls →
  link_view h4 <$> read_links h4 wls = raw_link_view <$> rs.
Proof.
  intros Hn Hf. induction Hf as [|r l rs wls Hrl Hf IH]; [done|].
  destruct Hrl as (o & sl & tl & Ho & Hs & Hms & Ht & Hmt & Hty).
  unfold read_links in *. cbn. rewrite Ho. cbn. rewrite IH. f_equal.
  unfold link_view, raw_link_view. rewrite Hs, Ht, Hty. cbn. rewrite Hn.
  apply map_get_Some, nodeById_elem in Hms as [_ ->].
  apply map_get_Some, nodeById_elem in Hmt as [_ ->]. done.
Qed.

(** C8, as the code has it. When every endpoint of every fetched link is
    the id of a fetched node, the build completes and the new simulation
    holds exactly the fetched links, in order, each resolved to nodes
    with the ids it names.  Otherwise the link force throws "node not
    found" for the first endpoint without a node (sources before
    targets, links in order); no link is dropped, and nothing catches
    the exception: the component is gone and the error is left
    uncaught. *)
Theorem build_resolves_or_throws (a : App) (c : Component) (data : RawGraph) :
  comp a = Some c → pending (world a) ≠ 0 →
  let a' := handle a (FetchResolve data) in
  let ids := raw_id <$> raw_nodes data in
  match first_missing (λ k, bool_decide (k ∈ ids)) (raw_links data) with
  | Some k => comp a' = None ∧ uncaught a' = Some ("node not found: " +:+ k)
  | None =>
      ∃ c' e s, comp a' = Some c' ∧ uncaught a' = uncaught a
        ∧ simulationRef c' = Some e ∧ sims (world a') !! e = Some s
        ∧ ids_of (heap (world a')) (sim_nodes s) = ids
        ∧ link_view (heap (world a')) <$> read_links (heap (world a')) (sim_links s)
          = raw_link_view <$> raw_links data
  end.
Proof.
  intros Hc Hp a' ids. subst a'. cbn [handle].
  destruct (pending (world a)); [done|].
  destruct (alloc_response_content data (heap (world a)))
    as (ns & ls & ps & -> & Hids & Hlinks).
  rewrite Hc. unfold graph_effect.
  set (gd := mkGraphData _ _).
  set (c1 := render (setLoading false (setGraphData (Some gd) c))).
  set (w1 := with_heap _ _).
  pose proof (run_cleanup_spec c1 w1) as (Hw & Hcl & Hsr & Hsv & Hgd).
  destruct (run_cleanup c1 w1) as [c2 w2]. cbn [fst snd] in *. subst w2.
  assert (Hgd1 : graphData c1 = Some gd).
  { subst c1. by destruct (render_fields (setLoading false (setGraphData (Some gd) c)))
      as (_ & -> & _). }
  destruct (render_mounts (setLoading false (setGraphData (Some gd) c)) eq_refl)
    as [svg Hsvg]. fold c1 in Hsvg.
  unfold graph_effect_body. rewrite Hgd, Hgd1, Hsv, Hsvg.
  change (match simulationRef c2 with
          | Some i => update_sim i sim_stop (stop_opt (cleanup c1) w1)
          | None => stop_opt (cleanup c1) w1 end)
    with (stop_opt (simulationRef c2) (stop_opt (cleanup c1) w1)).
  rewrite !stop_opt_heap. subst w1 gd. cbn [heap with_heap nodes links].
  rewrite copy_nodes_fresh, copy_links_fresh. unfold forceSimulation.
  set (wns := seq (length (nodeObjs (heap (world a))) + length ns) (length ns)).
  set (wls := seq (length (linkObjs (heap (world a))) + length ls) (length ls)).
  set (h2 := mkHeap _ _ _).
  set (h3 := initializeNodes 0 wns h2).
  assert (F1 : ids_of h3 wns = ids).
  { subst h3. rewrite (ids_of_ext h2) by apply initializeNodes_id.
    rewrite ids_of_read. subst h2 wns. unfold read_nodes. cbn [nodeObjs].
    rewrite <- (length_app (nodeObjs (heap (world a))) ns).
    by rewrite lookup_seq_app. }
  assert (F2 : Forall2 (λ r l, ∃ o, linkObjs h3 !! l = Some o ∧ raw_link_matches r o)
                       (raw_links data) wls).
  { subst h3. destruct (initializeNodes_shape 0 wns h2) as (_ & -> & _).
    subst h2 wls. cbn [linkObjs].
    rewrite <- (length_app (linkObjs (heap (world a))) ls).
    by apply links_at_fresh. }
  assert (F3 : ∀ k, bool_decide (is_Some (map_get (nodeById h3 wns) k))
                    = bool_decide (k ∈ ids)).
  { intros k. apply bool_decide_ext. rewrite <- F1, <- nodeById_keys.
    rewrite <- not_eq_None_Some. rewrite map_get_None.
    split; [apply dec_stable|tauto]. }
  pose proof (link_initialize_raw (nodeById h3 wns) 0 wls (raw_links data) h3
                (NoDup_seq _ _) F2) as Hli.
  cbv zeta in Hli. rewrite (first_missing_ext _ _ _ F3) in Hli.
  pose proof (link_initialize_shape (nodeById h3 wns) 0 wls h3) as (Hn4 & _ & _).
  destruct (link_initialize (nodeById h3 wns) 0 wls h3) as [h4 thrown].
  cbn [fst snd] in *.
  destruct (first_missing _ (raw_links data)) as [k|].
  - rewrite Hli. done.
  - destruct Hli as [-> Hall]. cbn [comp uncaught world sims heap].
    eexists _, _, _. split; [done|]. split; [done|]. split; [done|].
    split; [by apply list_lookup_middle|]. cbn [sim_nodes sim_links].
    split.
    + rewrite <- F1. apply ids_of_ext. intros d. by rewrite Hn4.
    + by apply (resolved_links_view h3 h4 wns).
Qed.
End Ingestion.

Section Frame.
Context `{D3}.

Lemma store_grows_refl h : store_grows h h.
Proof. repeat split; auto. Qed.

Lemma store_grows_trans h1 h2 h3 :
  store_grows h1 h2 → store_grows h2 h3 → store_grows h1 h3.
Proof.
  intros (Hn & Hl & Hp) (Hn' & Hl' & Hp'). split; [lia|]. split.
  - intros l Hlt. rewrite Hl', Hl; [done..|].
    apply lookup_lt_is_Some. rewrite Hl by done. by apply lookup_lt_is_Some.
  - intros p Hlt. rewrite Hp', Hp; [done..|].
    apply lookup_lt_is_Some. rewrite Hp by done. by apply lookup_lt_is_Some.
Qed.

Lemma store_grows_shape h h' :
  length (nodeObjs h') = length (nodeObjs h) → linkObjs h' = linkObjs h →
  propObjs h' = propObjs h → store_grows h h'.
Proof. intros Hn Hl Hp. unfold store_grows. rewrite Hn, Hl, Hp. auto. Qed.

Lemma store_grows_app h ns ls ps :
  store_grows h (mkHeap (nodeObjs h ++ ns) (linkObjs h ++ ls) (propObjs h ++ ps)).
Proof.
  split; [cbn; rewrite length_app; lia|]. split; intros l Hl; cbn;
    by rewrite lookup_app_l.
Qed.

Lemma tick_grows e h : store_grows h (tick e h).2.
Proof. destruct (tick_shape e h) as (Hn & Hl & Hp). by apply store_grows_shape. Qed.

Lemma on_frame_grows e h : store_grows h (on_frame e h).2.
Proof.
  unfold on_frame, step. destruct (stepper e); [|apply store_grows_refl].
  pose proof (tick_grows e h) as Hg. by destruct (tick e h).
Qed.

Lemma frame_engine_grows w i : store_grows (heap w) (heap (frame_engine w i)).
Proof.
  unfold frame_engine. destruct (sims w !! i) as [e|]; [|apply store_grows_refl].
  pose proof (on_frame_grows e (heap w)) as Hg. by destruct (on_frame e (heap w)).
Qed.

Lemma frames_grow w js : store_grows (heap w) (heap (foldl frame_engine w js)).
Proof.
  revert w. induction js as [|j js IH]; intros w; [apply store_grows_refl|].
  cbn. eapply store_grows_trans; [apply frame_engine_grows|apply IH].
Qed.

Lemma update_node_grows l f h : store_grows h (update_node l f h).
Proof. destruct (update_node_length l f h) as (Hn & Hl & Hp). by apply store_grows_shape. Qed.

Lemma graph_effect_body_grows c w :
  store_grows (heap w) (heap (graph_effect_body c w).1.2).
Proof.
  unfold graph_effect_body.
  destruct (graphData c) as [gd|]; [|apply store_grows_refl].
  destruct (svgRef c) as [svg|]; [|apply store_grows_refl].
  change (match simulationRef c with
          | Some i => update_sim i sim_stop w | None => w end)
    with (stop_opt (simulationRef c) w).
  rewrite stop_opt_heap.
  destruct (copy_nodes_spec (nodes gd) (heap w)) as [xn ->].
  destruct (copy_links_spec (links gd)
              (mkHeap (nodeObjs (heap w) ++ xn) (linkObjs (heap w))
                      (propObjs (heap w)))) as [xl ->].
  cbn [nodeObjs linkObjs propObjs]. unfold forceSimulation.
  set (ns := seq (length (nodeObjs (heap w))) (length xn)).
  set (ls := seq (length (linkObjs (heap w))) (length xl)).
  set (h2 := mkHeap _ _ _).
  set (h3 := initializeNodes 0 ns h2).
  assert (Hg : store_grows (heap w) (link_initialize (nodeById h3 ns) 0 ls h3).1).
  { destruct (link_initialize_shape (nodeById h3 ns) 0 ls h3) as (Hn4 & Hl4 & Hp4).
    destruct (initializeNodes_shape 0 ns h2) as (Hn3 & Hl3 & Hp3). fold h3 in Hn3, Hl3, Hp3.
    split; [|split].
    - rewrite Hn4, Hn3. subst h2. cbn. rewrite length_app. lia.
    - intros l Hl. rewrite link_initialize_other.
      + rewrite Hl3. subst h2. cbn. by rewrite lookup_app_l.
      + subst ls. rewrite elem_of_seq. lia.
    - intros p Hp. rewrite Hp4, Hp3. subst h2. done. }
  destruct (link_initialize _ _ _ _) as [h4 [msg|]]; exact Hg.
Qed.

Lemma graph_effect_grows c w u :
  store_grows (heap w) (heap (world (graph_effect c w u))).
Proof.
  unfold graph_effect.
  pose proof (run_cleanup_heap c w) as Hh.
  destruct (run_cleanup c w) as [c1 w1]. cbn [snd] in Hh.
  pose proof (graph_effect_body_grows c1 w1) as Hg. rewrite Hh in Hg.
  by destruct (graph_effect_body c1 w1) as [[c2 w2] [msg|]].
Qed.

Lemma handle_grows (a : App) (ev : Event) :
  store_grows (heap (world a)) (heap (world (handle a ev))).
Proof.
  destruct ev; cbn [handle].
  - destruct (comp a); apply store_grows_refl.
  - destruct (comp a) as [c|]; [|apply store_grows_refl].
    destruct (bool_decide _); apply store_grows_refl.
  - destruct (comp a) as [c|]; [|apply store_grows_refl].
    destruct (_ && _); [apply store_grows_refl|apply graph_effect_grows].
  - destruct (pending (world a)); [apply store_grows_refl|].
    destruct (alloc_response_spec data (heap (world a))) as (ns & ls & ps & ->).
    destruct (comp a) as [c|]; [|apply store_grows_app].
    eapply store_grows_trans; [apply (store_grows_app _ ns ls ps)|].
    apply (graph_effect_grows _ (with_heap _ (settle (world a)))).
  - destruct (pending (world a)); apply store_grows_refl.
  - apply frames_grow.
  - unfold with_comp. destruct (comp a); apply store_grows_refl.
  - unfold with_comp. destruct (comp a); apply store_grows_refl.
  - destruct (comp a) as [c|]; [|apply store_grows_refl].
    destruct (svgRef c) as [svg|]; [|apply store_grows_refl].
    destruct (content svg); apply store_grows_refl.
  - destruct (comp a) as [c|]; [|apply store_grows_refl].
    destruct (surface_sim c ≫= _); apply store_grows_refl.
  - destruct (comp a) as [c|]; [|apply store_grows_refl].
    destruct (surface_sim c); apply store_grows_refl.
  - destruct (comp a) as [c|]; [|apply store_grows_refl].
    destruct (selectedNode c), (loading c); apply store_grows_refl.
  - destruct (comp a) as [c|]; [|apply store_grows_refl].
    destruct (surface_sim c) as [e|]; [|apply store_grows_refl].
    destruct (node_of (world a) e i) as [d|]; [|apply store_grows_refl].
    cbn [world]. unfold dragstarted, update_node_w. cbn [heap with_heap].
    destruct (bool_decide _); apply update_node_grows.
  - destruct (node_of (world a) e i) as [d|]; [|apply store_grows_refl].
    apply update_node_grows.
  - destruct (node_of (world a) e i) as [d|]; [|apply store_grows_refl].
    cbn [world]. unfold dragended, update_node_w. cbn [heap with_heap].
    destruct (bool_decide _); apply update_node_grows.
  - destruct (comp a) as [c|]; [|apply store_grows_refl]. cbn [world].
    rewrite run_cleanup_heap. apply store_grows_refl.
Qed.


(** ** Simulations keep their nodes; new ones work on new objects *)

Lemma sims_same_nodes_refl ss : sims_same_nodes ss ss.
Proof. intros e s Hs. by exists s. Qed.

Lemma sims_same_nodes_trans ss1 ss2 ss3 :
  sims_same_nodes ss1 ss2 → sims_same_nodes ss2 ss3 → sims_same_nodes ss1 ss3.
Proof.
  intros H12 H23 e s3 Hs3. destruct (H23 e s3 Hs3) as (s2 & Hs2 & Hn2).
  destruct (H12 e s2 Hs2) as (s1 & Hs1 & Hn1). exists s1. split; congruence.
Qed.

Lemma sims_same_nodes_alter (f : Simulation → Simulation) i ss :
  (∀ s, sim_nodes (f s) = sim_nodes s) → sims_same_nodes ss (alter f i ss).
Proof.
  intros Hf e s' Hs'. destruct (decide (i = e)) as [->|Hne].
  - rewrite list_lookup_alter_eq in Hs'.
    destruct (ss !! e) as [s|]; [|done]. injection Hs' as <-. exists s. auto.
  - rewrite list_lookup_alter_ne in Hs' by done. by exists s'.
Qed.

Lemma sims_same_nodes_stop_opt o w : sims_same_nodes (sims w) (sims (stop_opt o w)).
Proof. destruct o; [|apply sims_same_nodes_refl]. by apply sims_same_nodes_alter. Qed.

Lemma sims_fresh_same w w' :
  sims_same_nodes (sims w) (sims w') → sims_fresh w w'.
Proof. intros Hs e s' Hs'. left. by apply Hs. Qed.

Lemma sims_fresh_trans w1 w2 w3 :
  length (nodeObjs (heap w1)) ≤ length (nodeObjs (heap w2)) →
  length (nodeObjs (heap w2)) ≤ length (nodeObjs (heap w3)) →
  sims_fresh w1 w2 → sims_fresh w2 w3 → sims_fresh w1 w3.
Proof.
  intros Hl12 Hl23 H12 H23 e s3 Hs3.
  destruct (H23 e s3 Hs3) as [(s2 & Hs2 & Hn2)|Hnew].
  - destruct (H12 e s2 Hs2) as [(s1 & Hs1 & Hn1)|Hnew].
    + left. exists s1. split; congruence.
    + right. intros d Hd. rewrite Hn2 in Hd. specialize (Hnew d Hd). lia.
  - right. intros d Hd. specialize (Hnew d Hd). lia.
Qed.

Lemma on_frame_nodes e h : sim_nodes (on_frame e h).1 = sim_nodes e.
Proof.
  unfold on_frame, step, tick. destruct (stepper e); [|done]. cbn.
  by destruct (Qltb _ _).
Qed.

Lemma frame_engine_nodes w i : sims_same_nodes (sims w) (sims (frame_engine w i)).
Proof.
  unfold frame_engine. destruct (sims w !! i) as [s|] eqn:Hi;
    [|apply sims_same_nodes_refl].
  pose proof (on_frame_nodes s (heap w)) as Hn.
  destruct (on_frame s (heap w)) as [s1 h1]. cbn [sims fst] in *.
  intros e s' Hs'. destruct (decide (i = e)) as [->|Hne].
  - rewrite list_lookup_insert_eq in Hs' by (by eapply lookup_lt_Some).
    injection Hs' as <-. exists s. auto.
  - rewrite list_lookup_insert_ne in Hs' by done. by exists s'.
Qed.

Lemma frames_nodes w js : sims_same_nodes (sims w) (sims (foldl frame_engine w js)).
Proof.
  revert w. induction js as [|j js IH]; intros w; [apply sims_same_nodes_refl|].
  cbn. eapply sims_same_nodes_trans; [apply frame_engine_nodes|apply IH].
Qed.

Lemma graph_effect_body_fresh c w : sims_fresh w (graph_effect_body c w).1.2.
Proof.
  unfold graph_effect_body.
  destruct (graphData c) as [gd|]; [|apply sims_fresh_same, sims_same_nodes_refl].
  destruct (svgRef c) as [svg|]; [|apply sims_fresh_same, sims_same_nodes_refl].
  change (match simulationRef c with
          | Some i => update_sim i sim_stop w | None => w end)
    with (stop_opt (simulationRef c) w).
  rewrite stop_opt_heap.
  destruct (copy_nodes_spec (nodes gd) (heap w)) as [xn ->].
  destruct (copy_links_spec (links gd)
              (mkHeap (nodeObjs (heap w) ++ xn) (linkObjs (heap w))
                      (propObjs (heap w)))) as [xl ->].
  cbn [nodeObjs linkObjs propObjs]. unfold forceSimulation.
  set (ns := seq (length (nodeObjs (heap w))) (length xn)).
  set (ls := seq (length (linkObjs (heap w))) (length xl)).
  set (h2 := mkHeap _ _ _).
  set (h3 := initializeNodes 0 ns h2).
  destruct (link_initialize_shape (nodeById h3 ns) 0 ls h3) as (Hn4 & _ & _).
  destruct (initializeNodes_shape 0 ns h2) as (Hn3 & _ & _). fold h3 in Hn3.
  assert (Hlen : length (nodeObjs (link_initialize (nodeById h3 ns) 0 ls h3).1)
                 = length (nodeObjs (heap w)) + length xn).
  { rewrite Hn4, Hn3. subst h2. cbn. by rewrite length_app. }
  assert (Hcase : ∀ e s' snew,
            sim_nodes snew = ns →
            (sims (stop_opt (simulationRef c) w) ++ [snew]) !! e = Some s' →
            (∃ s, sims w !! e = Some s ∧ sim_nodes s' = sim_nodes s)
            ∨ (∀ d, d ∈ sim_nodes s' →
                 length (nodeObjs (heap w)) ≤ d
                 < length (nodeObjs (link_initialize (nodeById h3 ns) 0 ls h3).1))).
  { intros e s' snew Hnew Hs'. apply lookup_app_Some in Hs' as [Hs'|[_ Hs']].
    - left. by apply (sims_same_nodes_stop_opt (simulationRef c) w).
    - right. apply list_lookup_singleton_Some in Hs' as [_ <-].
      intros d Hd. rewrite Hnew in Hd. subst ns. apply elem_of_seq in Hd. lia. }
  destruct (link_initialize _ _ _ _) as [h4 [msg|]]; cbn [fst snd] in *;
    intros e s' Hs'; cbn [sims heap] in *; eapply Hcase; try exact Hs'; done.
Qed.

Lemma graph_effect_fresh c w u : sims_fresh w (world (graph_effect c w u)).
Proof.
  unfold graph_effect.
  pose proof (run_cleanup_spec c w) as (Hw & _).
  destruct (run_cleanup c w) as [c1 w1]. cbn [snd] in Hw. subst w1.
  pose proof (graph_effect_body_fresh c1 (stop_opt (cleanup c) w)) as Hf.
  pose proof (graph_effect_body_grows c1 (stop_opt (cleanup c) w)) as (Hg & _).
  assert (Hgoal : sims_fresh w (graph_effect_body c1 (stop_opt (cleanup c) w)).1.2).
  { eapply sims_fresh_trans; [| |apply sims_fresh_same, sims_same_nodes_stop_opt|exact Hf].
    - by rewrite stop_opt_heap.
    - exact Hg. }
  by destruct (graph_effect_body c1 _) as [[c2 w2] [msg|]].
Qed.

Lemma handle_fresh (a : App) (ev : Event) :
  sims_fresh (world a) (world (handle a ev)).
Proof.
  assert (Hrefl : ∀ w', sims w' = sims (world a) → sims_fresh (world a) w').
  { intros w' Hs. apply sims_fresh_same. rewrite Hs. apply sims_same_nodes_refl. }
  destruct ev; cbn [handle].
  - destruct (comp a); by apply Hrefl.
  - destruct (comp a) as [c|]; [|by apply Hrefl].
    destruct (bool_decide _); by apply Hrefl.
  - destruct (comp a) as [c|]; [|by apply Hrefl].
    destruct (_ && _); [by apply Hrefl|apply graph_effect_fresh].
  - destruct (pending (world a)); [by apply Hrefl|].
    destruct (alloc_response_spec data (heap (world a))) as (ns & ls & ps & ->).
    destruct (comp a) as [c|]; [|by apply Hrefl].
    set (w1 := with_heap _ (settle (world a))).
    eapply (sims_fresh_trans _ w1).
    + subst w1. cbn. rewrite length_app. lia.
    + apply graph_effect_grows.
    + by apply Hrefl.
    + apply graph_effect_fresh.
  - destruct (pending (world a)); by apply Hrefl.
  - apply sims_fresh_same. apply frames_nodes.
  - unfold with_comp. destruct (comp a); by apply Hrefl.
  - unfold with_comp. destruct (comp a); by apply Hrefl.
  - destruct (comp a) as [c|]; [|by apply Hrefl].
    destruct (svgRef c) as [svg|]; [|by apply Hrefl].
    destruct (content svg); by apply Hrefl.
  - destruct (comp a) as [c|]; [|by apply Hrefl].
    destruct (surface_sim c ≫= _); by apply Hrefl.
  - destruct (comp a) as [c|]; [|by apply Hrefl].
    destruct (surface_sim c); by apply Hrefl.
  - destruct (comp a) as [c|]; [|by apply Hrefl].
    destruct (selectedNode c), (loading c); by apply Hrefl.
  - destruct (comp a) as [c|]; [|by apply Hrefl].
    destruct (surface_sim c) as [e|]; [|by apply Hrefl].
    destruct (node_of (world a) e i) as [d|]; [|by apply Hrefl].
    cbn [world]. unfold dragstarted, update_node_w. apply sims_fresh_same.
    cbn [sims with_heap]. destruct (bool_decide _); [|apply sims_same_nodes_refl].
    by apply sims_same_nodes_alter.
  - destruct (node_of (world a) e i) as [d|]; by apply Hrefl.
  - destruct (node_of (world a) e i) as [d|]; [|by apply Hrefl].
    cbn [world]. unfold dragended, update_node_w. apply sims_fresh_same.
    cbn [sims with_heap]. destruct (bool_decide _); [|apply sims_same_nodes_refl].
    by apply sims_same_nodes_alter.
  - destruct (comp a) as [c|]; [|by apply Hrefl]. cbn [world].
    destruct (run_cleanup_spec c (world a)) as (-> & _).
    apply sims_fresh_same, sims_same_nodes_stop_opt.
Qed.

(** ** Caller-owned nodes are not written *)

Lemma drag_subject_in (a : App) (ev : Event) (d : loc) :
  drag_subject a ev = Some d →
  ∃ e s, sims (world a) !! e = Some s ∧ d ∈ sim_nodes s.
Proof.
  assert (Hnode : ∀ e i, node_of (world a) e i = Some d →
            ∃ e s, sims (world a) !! e = Some s ∧ d ∈ sim_nodes s).
  { intros e i. unfold node_of. destruct (sims (world a) !! e) as [s|] eqn:Hs; [|done].
    cbn. intros Hi. exists e, s. split; [done|]. by eapply list_elem_of_lookup_2. }
  destruct ev; cbn [drag_subject]; try done.
  - destruct (comp a) as [c|]; [|done]. cbn.
    destruct (surface_sim c) as [e|]; [|done]. cbn. apply Hnode.
  - apply Hnode.
  - apply Hnode.
Qed.

Lemma apart_same P w w' :
  sims_same_nodes (sims w) (sims w') → apart P w → apart P w'.
Proof.
  intros Hs Ha e s' d Hs' Hd. destruct (Hs e s' Hs') as (s & Hs0 & Hn).
  rewrite Hn in Hd. by eapply Ha.
Qed.

Lemma frame_engine_protects P w i l :
  apart P w → l ∈ P →
  nodeObjs (heap (frame_engine w i)) !! l = nodeObjs (heap w) !! l.
Proof.
  intros Ha Hl. unfold frame_engine. destruct (sims w !! i) as [s|] eqn:Hi; [|done].
  assert (Hout : l ∉ sim_nodes s) by (intros Hin; by eapply Ha).
  unfold on_frame, step. destruct (stepper s); [|done].
  pose proof (tick_other s (heap w) l Hout) as Ht.
  by destruct (tick s (heap w)).
Qed.

Lemma frames_protect P w js l :
  apart P w → l ∈ P →
  nodeObjs (heap (foldl frame_engine w js)) !! l = nodeObjs (heap w) !! l.
Proof.
  revert w. induction js as [|j js IH]; intros w Ha Hl; [done|].
  cbn. rewrite IH; [by apply (frame_engine_protects P)|  |done].
  eapply apart_same; [apply frame_engine_nodes|done].
Qed.

Lemma handle_protects P (a : App) (ev : Event) l :
  (∀ d, d ∈ P → d < length (nodeObjs (heap (world a)))) →
  apart P (world a) → l ∈ P →
  nodeObjs (heap (world (handle a ev))) !! l = nodeObjs (heap (world a)) !! l.
Proof.
  intros Hv Ha Hl.
  assert (Hcase : ev = Frame ∨ ev ≠ Frame) by (destruct ev; auto).
  destruct Hcase as [->|Hne].
  - cbn. by apply (frames_protect P).
  - apply handle_quiet; [done| |by apply Hv].
    intros Hd. apply drag_subject_in in Hd as (e & s & Hs & Hin).
    by eapply Ha.
Qed.

Lemma handle_apart P (a : App) (ev : Event) :
  (∀ d, d ∈ P → d < length (nodeObjs (heap (world a)))) →
  apart P (world a) → apart P (world (handle a ev)).
Proof.
  intros Hv Ha e s' d Hs' Hd.
  destruct (handle_fresh a ev e s' Hs') as [(s & Hs & Hn)|Hnew].
  - rewrite Hn in Hd. by eapply Ha.
  - intros Hin. specialize (Hnew d Hd). specialize (Hv d Hin). lia.
Qed.

Lemma handle_valid (a : App) (ev : Event) :
  valid_sims (world a) → valid_sims (world (handle a ev)).
Proof.
  intros Hv e s' d Hs' Hd. destruct (handle_grows a ev) as (Hlen & _).
  destruct (handle_fresh a ev e s' Hs') as [(s & Hs & Hn)|Hnew].
  - rewrite Hn in Hd. specialize (Hv e s d Hs Hd). lia.
  - by apply Hnew.
Qed.

Lemma store_grows_links h h' l :
  store_grows h h' → l < length (linkObjs h) → l < length (linkObjs h').
Proof.
  intros (_ & Hl & _) Hlt. apply lookup_lt_is_Some. rewrite Hl by done.
  by apply lookup_lt_is_Some.
Qed.

Lemma run_protects P (a : App) (evs : list Event) :
  (∀ d, d ∈ P → d < length (nodeObjs (heap (world a)))) →
  apart P (world a) →
  (∀ l, l ∈ P →
     nodeObjs (heap (world (run a evs))) !! l = nodeObjs (heap (world a)) !! l)
  ∧ store_grows (heap (world a)) (heap (world (run a evs))).
Proof.
  revert a. induction evs as [|ev evs IH]; intros a Hv Ha.
  - split; [done|apply store_grows_refl].
  - cbn [run foldl]. pose proof (handle_grows a ev) as Hg.
    destruct (IH (handle a ev)) as [Hn Hg'].
    + intros d Hd. destruct Hg as (Hlen & _). specialize (Hv d Hd). lia.
    + by apply handle_apart.
    + split; [|by eapply store_grows_trans].
      intros l Hl. unfold run in Hn. rewrite Hn by done. by apply (handle_protects P).
Qed.

(** ** The fetched graph is apart from every simulation *)

Lemma handle_comp_none (a : App) (ev : Event) :
  comp a = None → comp (handle a ev) = None.
Proof.
  intros Hn. destruct ev; cbn [handle]; unfold with_comp; rewrite ?Hn; try done.
  - destruct (pending (world a)); [done|]. by destruct (alloc_response _ _).
  - destruct (pending (world a)); cbn; rewrite ?Hn; done.
  - by destruct (node_of _ _ _).
  - by destruct (node_of _ _ _).
Qed.

Lemma handle_graphData (a : App) (ev : Event) (c' : Component) :
  comp (handle a ev) = Some c' →
  ∃ c, comp a = Some c
    ∧ (graphData c' = graphData c
       ∨ ∃ data n, ev = FetchResolve data ∧ pending (world a) = S n
           ∧ graphData c' = Some (alloc_response data (heap (world a))).1).
Proof.
  destruct (comp a) as [c|] eqn:Hc;
    [|intros Hc'; by rewrite handle_comp_none in Hc'].
  intros Hc'. exists c. split; [done|]. revert Hc'.
  destruct ev; cbn [handle]; unfold with_comp; rewrite ?Hc.
  - unfold start_fetch, fetchGraphData. cbn [comp]. intros [= <-]. left.
    by destruct (render_fields (setError None (setLoading true c))) as (_ & -> & _).
  - destruct (bool_decide _); [rewrite ?Hc; intros [= <-]; auto|].
    unfold start_fetch, fetchGraphData. cbn [comp]. intros [= <-]. left.
    by destruct (render_fields (setError None (setLoading true
                   (set_props i (width c) (height c) c)))) as (_ & -> & _).
  - destruct (_ && _); [rewrite ?Hc; intros [= <-]; auto|].
    intros Hc'. apply graph_effect_state in Hc' as (_ & _ & -> & _). auto.
  - destruct (pending (world a)) as [|n] eqn:Hp; [rewrite ?Hc; intros [= <-]; auto|].
    destruct (alloc_response data (heap (world a))) as [gd h1] eqn:Hal.
    intros Hc'. apply graph_effect_state in Hc' as (_ & _ & -> & _).
    right. exists data, n. split; [done|]. split; [done|]. rewrite Hal. cbn [fst].
    by destruct (render_fields (setLoading false (setGraphData (Some gd) c)))
      as (_ & -> & _).
  - destruct (pending (world a)); [rewrite ?Hc; intros [= <-]; auto|].
    cbn [comp fmap option_fmap option_map compose]. intros [= <-]. left.
    by destruct (render_fields (fetch_failed c)) as (_ & -> & _).
  - cbn [comp]. rewrite ?Hc. intros [= <-]. auto.
  - cbn [comp]. intros [= <-]. left.
    unfold handleZoomIn, update_zoom. destruct (Qeq_bool _ _); [done|].
    unfold zoom_effect. cbn. by destruct (svgRef c).
  - cbn [comp]. intros [= <-]. left.
    unfold handleZoomOut, update_zoom. destruct (Qeq_bool _ _); [done|].
    unfold zoom_effect. cbn. by destruct (svgRef c).
  - destruct (svgRef c) as [svg|]; [|rewrite ?Hc; intros [= <-]; auto].
    destruct (content svg); [|rewrite ?Hc]; intros [= <-]; auto.
  - destruct (surface_sim c ≫= _); [|rewrite ?Hc]; intros [= <-]; auto.
  - destruct (surface_sim c); [|rewrite ?Hc]; intros [= <-]; auto.
  - destruct (selectedNode c), (loading c); rewrite ?Hc; intros [= <-]; auto.
  - destruct (surface_sim c) as [e|]; [|rewrite ?Hc; intros [= <-]; auto].
    destruct (node_of (world a) e i); cbn [comp]; rewrite ?Hc; intros [= <-]; auto.
  - destruct (node_of (world a) e i); cbn [comp]; rewrite ?Hc; intros [= <-]; auto.
  - destruct (node_of (world a) e i); cbn [comp]; rewrite ?Hc; intros [= <-]; auto.
  - done.
Qed.

Lemma owned_mount (i : option string) (w h : Q) : owned (mount i w h).
Proof.
  split.
  - intros e s d Hs. cbn in Hs. done.
  - intros c gd Hc Hgd. cbn in Hc. injection Hc as <-. done.
Qed.

Lemma owned_step (a : App) (ev : Event) : owned a → owned (handle a ev).
Proof.
  intros [Hvalid Hown]. split; [by apply handle_valid|].
  intros c' gd' Hc' Hgd'.
  pose proof (handle_grows a ev) as Hg.
  destruct (handle_graphData a ev c' Hc')
    as (c & Hc & [Heq|(data & n & -> & Hp & Heq)]).
  - rewrite Heq in Hgd'. destruct (Hown c gd' Hc Hgd') as (Hn & Hl & Ha).
    split; [|split].
    + intros l Hin. destruct Hg as (Hlen & _). specialize (Hn l Hin). lia.
    + intros l Hin. eapply store_grows_links; [exact Hg|]. by apply Hl.
    + by apply handle_apart.
  - rewrite Heq in Hgd'. injection Hgd' as <-. clear Heq.
    revert Hc' Hg. cbn [handle]. rewrite Hp, Hc.
    destruct (alloc_response_spec data (heap (world a))) as (ns & ls & ps & ->).
    cbn [fst nodes links]. intros Hc' Hg.
    set (h1 := mkHeap _ _ _) in *. set (w1 := with_heap h1 (settle (world a))) in *.
    set (c1 := render _) in *.
    pose proof (graph_effect_grows c1 w1 (uncaught a)) as Hg1.
    pose proof (graph_effect_fresh c1 w1 (uncaught a)) as Hf1.
    assert (Hn1 : length (nodeObjs (heap w1))
                  = length (nodeObjs (heap (world a))) + length ns)
      by (subst w1 h1; cbn [heap with_heap nodeObjs]; apply length_app).
    assert (Hl1 : length (linkObjs (heap w1))
                  = length (linkObjs (heap (world a))) + length ls)
      by (subst w1 h1; cbn [heap with_heap linkObjs]; apply length_app).
    split; [|split].
    + intros l Hin. apply elem_of_seq in Hin. destruct Hg1 as (Hlen & _). lia.
    + intros l Hin. apply elem_of_seq in Hin.
      eapply store_grows_links; [exact Hg1|]. lia.
    + intros e s' d Hs' Hd Hin. apply elem_of_seq in Hin.
      destruct (Hf1 e s' Hs') as [(s & Hs & Hn)|Hnew].
      * rewrite Hn in Hd. specialize (Hvalid e s d Hs Hd). lia.
      * specialize (Hnew d Hd). lia.
Qed.

Lemma owned_run (a : App) (evs : list Event) : owned a → owned (run a evs).
Proof.
  revert a. induction evs as [|ev evs IH]; intros a Ho; [done|].
  cbn. apply IH. by apply owned_step.
Qed.

(** X2. The copy is only one level deep, and still the fetched data is
    safe: from mounting on, whatever graph the component holds in
    [graphData], no later event writes to its node objects, to its link
    objects, or to any properties object. *)
Theorem caller_data_untouched (i : option string) (w h : Q) (evs evs' : list Event)
    (c : Component) (gd : GraphData) :
  let a := run (mount i w h) evs in
  comp a = Some c → graphData c = Some gd →
  (∀ l, l ∈ nodes gd →
     nodeObjs (heap (world (run a evs'))) !! l = nodeObjs (heap (world a)) !! l)
  ∧ (∀ l, l ∈ links gd →
       linkObjs (heap (world (run a evs'))) !! l = linkObjs (heap (world a)) !! l)
  ∧ (∀ p, p < length (propObjs (heap (world a))) →
       propObjs (heap (world (run a evs'))) !! p = propObjs (heap (world a)) !! p).
Proof.
  intros a Hc Hgd.
  destruct (owned_run (mount i w h) evs (owned_mount i w h)) as [_ Hown].
  destruct (Hown c gd Hc Hgd) as (Hn & Hl & Ha).
  destruct (run_protects (nodes gd) a evs' Hn Ha) as [Hnodes (_ & Hlinks & Hprops)].
  split; [exact Hnodes|]. split; [|exact Hprops].
  intros l Hin. apply Hlinks. by apply Hl.
Qed.

End Frame.

(** ** The stroke width of a link *)

Section Strokes.
Context `{D3}.

Lemma link_of_raw_app ps more r o : link_of_raw ps r o → link_of_raw (ps ++ more) r o.
Proof.
  unfold link_of_raw. destruct (raw_lproperties r) as [props|]; [|done].
  intros (p & Hp & Hl). exists p. split; [done|]. by apply lookup_app_l_Some.
Qed.

Lemma alloc_link_fold_props (acc : list loc) (h : Heap) (rs : list RawLink) :
  ∃ ls ps,
    foldl alloc_link (acc, h) rs
    = (acc ++ seq (length (linkObjs h)) (length ls),
       mkHeap (nodeObjs h) (linkObjs h ++ ls) (propObjs h ++ ps))
    ∧ Forall2 (link_of_raw (propObjs h ++ ps)) rs ls.
Proof.
  revert acc h. induction rs as [|r rs IH]; intros acc h.
  - exists [], []. cbn. rewrite !app_nil_r. split; [by destruct h|constructor].
  - cbn [foldl alloc_link]. destruct (raw_lproperties r) as [p|] eqn:Hr.
    + destruct (IH (acc ++ [length (linkObjs h)])
                  (mkHeap (nodeObjs h)
                     (linkObjs h ++
                        [mkLink (ById (raw_source r)) (ById (raw_target r))
                                (raw_ltype r) (Some (length (propObjs h))) None])
                     (propObjs h ++ [p]))) as (ls & ps & -> & Hc).
      eexists (_ :: ls), (_ :: ps). cbn [nodeObjs linkObjs propObjs length].
      rewrite length_app, <- !app_assoc. cbn [app length].
      rewrite Nat.add_1_r. split; [done|].
      cbn [propObjs] in Hc. rewrite <- app_assoc in Hc. cbn [app] in Hc.
      constructor; [|done]. unfold link_of_raw. rewrite Hr.
      exists (length (propObjs h)). split; [done|]. by rewrite list_lookup_middle.
    + destruct (IH (acc ++ [length (linkObjs h)])
                  (mkHeap (nodeObjs h)
                     (linkObjs h ++
                        [mkLink (ById (raw_source r)) (ById (raw_target r))
                                (raw_ltype r) None None])
                     (propObjs h))) as (ls & ps & -> & Hc).
      eexists (_ :: ls), ps. cbn [nodeObjs linkObjs propObjs length].
      rewrite length_app, <- !app_assoc. cbn [app length].
      rewrite Nat.add_1_r. split; [done|].
      constructor; [|done]. unfold link_of_raw. by rewrite Hr.
Qed.

Lemma alloc_response_links (raw : RawGraph) (h : Heap) :
  ∃ ns ls ps,
    alloc_response raw h
    = (mkGraphData (seq (length (nodeObjs h)) (length ns))
                   (seq (length (linkObjs h)) (length ls)),
       mkHeap (nodeObjs h ++ ns) (linkObjs h ++ ls) (propObjs h ++ ps))
    ∧ Forall2 (link_of_raw (propObjs h ++ ps)) (raw_links raw) ls.
Proof.
  unfold alloc_response.
  destruct (alloc_node_fold_ids [] h (raw_nodes raw)) as (ns & ps1 & -> & _).
  destruct (alloc_link_fold_props [] (mkHeap (nodeObjs h ++ ns) (linkObjs h)
                                      (propObjs h ++ ps1)) (raw_links raw))
    as (ls & ps2 & -> & Hc).
  exists ns, ls, (ps1 ++ ps2). cbn [nodeObjs linkObjs propObjs app] in *.
  by rewrite app_assoc.
Qed.

(** The link force writes [index], [source] and [target] of a link. *)
Lemma update_link_properties (l d : loc) f (h : Heap) :
  (∀ o, link_properties (f o) = link_properties o) →
  link_properties <$> linkObjs (update_link l f h) !! d
  = link_properties <$> linkObjs h !! d.
Proof.
  intros Hf. unfold update_link. cbn [linkObjs].
  destruct (decide (l = d)) as [->|Hne].
  - rewrite list_lookup_alter_eq. destruct (linkObjs h !! d); [|done].
    cbn. by rewrite Hf.
  - by rewrite list_lookup_alter_ne.
Qed.

Lemma link_initialize_properties m (i : nat) (ls : list loc) (h : Heap) (d : loc) :
  link_properties <$> linkObjs (link_initialize m i ls h).1 !! d
  = link_properties <$> linkObjs h !! d.
Proof.
  revert i h. induction ls as [|l ls IH]; intros i h; [done|].
  cbn [link_initialize].
  destruct (linkObjs (update_link l (set_link_index i) h) !! l) as [o|].
  - destruct (resolve m (link_source o)) as [err|s];
      [cbn [fst]; by apply update_link_properties|].
    destruct (resolve m (link_target o)) as [err|t].
    + cbn [fst]. rewrite !update_link_properties; done.
    + rewrite IH. rewrite !update_link_properties; done.
  - rewrite IH. by apply update_link_properties.
Qed.

Lemma props_get_absent (props : Props) (k : string) :
  k ∉ props.*1 → props_get props k = JsUndefined.
Proof.
  induction props as [|[k' v] props IH]; [done|]. cbn.
  rewrite not_elem_of_cons. intros [Hne Hnot].
  rewrite bool_decide_false by done. by apply IH.
Qed.

(** The accessor on a link whose [strength] is [v]. *)
Lemma stroke_width_of_strength (h : Heap) (d : SimulationLinkDatum) (v : JsValue) :
  strength h d = v →
  stroke_width h d
  = js_sqrt (js_mul (JsNumber 2) (if truthy v then v else JsNumber 1))
  ∧ (truthy v = false → stroke_width h d = Some (Math_sqrt 2))
  ∧ (∀ q, v = JsNumber q → (0 < q)%Q → stroke_width h d = Some (Math_sqrt (2 * q)))
  ∧ (∀ q, v = JsNumber q → (q < 0)%Q → stroke_width h d = None).
Proof.
  intros Hv. unfold stroke_width, js_or. rewrite Hv. split; [|split; [|split]].
  - by rewrite js_mul_comm.
  - by intros ->.
  - intros q -> Hq. cbn [truthy].
    assert (Hz : Qeq_bool q 0 = false).
    { apply not_true_is_false. intros Heq%Qeq_bool_eq. lra. }
    rewrite Hz. cbn [negb js_mul ToNumber js_sqrt].
    assert (Hle : Qle_bool 0 (q * 2) = true) by (apply Qle_bool_iff; lra).
    rewrite Hle. by rewrite (Qmult_swap q 2).
  - intros q -> Hq. cbn [truthy].
    assert (Hz : Qeq_bool q 0 = false).
    { apply not_true_is_false. intros Heq%Qeq_bool_eq. lra. }
    rewrite Hz. cbn [negb js_mul ToNumber js_sqrt].
    assert (Hle : Qle_bool 0 (q * 2) = false).
    { apply not_true_is_false. intros Hle%Qle_bool_iff. lra. }
    by rewrite Hle.
Qed.

(** The links that a load draws: working copies of the links of the
    response, in the order of the response, each with the properties object
    of its original. *)
Lemma drawn_links (a : App) (c c1 : Component) (data : RawGraph) :
  comp a = Some c → pending (world a) ≠ 0 →
  comp (handle a (FetchResolve data)) = Some c1 →
  let a1 := handle a (FetchResolve data) in
  surface_sim c1 = Some (length (sims (world a)))
  ∧ ∃ s, sims (world a1) !! length (sims (world a)) = Some s
      ∧ length (sim_links s) = length (raw_links data)
      ∧ Forall2 (λ r l, ∃ o, linkObjs (heap (world a1)) !! l = Some o
                           ∧ link_of_raw (propObjs (heap (world a1))) r o)
                (raw_links data) (sim_links s).
Proof.
  intros Hc Hp. cbn [handle].
  destruct (pending (world a)) as [|pn] eqn:Hpn; [done|].
  destruct (alloc_response_links data (heap (world a)))
    as (ns & ls & ps & -> & Hlinks).
  assert (Hlen : length (raw_links data) = length ls) by (by eapply Forall2_length).
  rewrite Hc. unfold graph_effect.
  set (gd := mkGraphData _ _).
  set (c0 := render (setLoading false (setGraphData (Some gd) c))).
  set (w1 := with_heap _ _).
  pose proof (run_cleanup_spec c0 w1) as (Hw & Hcl & Hsr & Hsv & Hgd).
  destruct (run_cleanup c0 w1) as [c2 w2]. cbn [fst snd] in *. subst w2.
  assert (Hgd0 : graphData c0 = Some gd).
  { subst c0. by destruct (render_fields (setLoading false (setGraphData (Some gd) c)))
      as (_ & -> & _). }
  destruct (render_mounts (setLoading false (setGraphData (Some gd) c)) eq_refl)
    as [svg Hsvg]. fold c0 in Hsvg.
  unfold graph_effect_body. rewrite Hgd, Hgd0, Hsv, Hsvg.
  change (match simulationRef c2 with
          | Some i => update_sim i sim_stop (stop_opt (cleanup c0) w1)
          | None => stop_opt (cleanup c0) w1 end)
    with (stop_opt (simulationRef c2) (stop_opt (cleanup c0) w1)).
  rewrite !stop_opt_heap. subst w1 gd. cbn [heap with_heap nodes links].
  rewrite copy_nodes_fresh, copy_links_fresh. unfold forceSimulation.
  set (wns := seq (length (nodeObjs (heap (world a))) + length ns) (length ns)).
  set (wls := seq (length (linkObjs (heap (world a))) + length ls) (length ls)).
  set (h2 := mkHeap _ _ _).
  set (h3 := initializeNodes 0 wns h2).
  pose proof (link_initialize_shape (nodeById h3 wns) 0 wls h3) as (_ & _ & Hp4).
  pose proof (link_initialize_properties (nodeById h3 wns) 0 wls h3) as Hprops.
  destruct (initializeNodes_shape 0 wns h2) as (_ & Hl3 & Hp3).
  fold h3 in Hp3, Hl3.
  destruct (link_initialize (nodeById h3 wns) 0 wls h3) as [h4 [msg|]];
    cbn [fst snd comp world sims heap] in *; [done|].
  intros [= <-].
  rewrite !stop_opt_length. cbn [length sims with_heap settle].
  split; [done|]. eexists. split.
  { apply list_lookup_middle. by rewrite !stop_opt_length. }
  cbn [sim_links sim_restart sim_alpha sim_force sim_set_links].
  split; [subst wls; by rewrite length_seq|].
  assert (F2 : Forall2 (λ r l, ∃ o, linkObjs h3 !! l = Some o
                                  ∧ link_of_raw (propObjs h3) r o)
                       (raw_links data) wls).
  { rewrite Hl3, Hp3. subst h2 wls. cbn [linkObjs propObjs].
    rewrite <- (length_app (linkObjs (heap (world a))) ls).
    by apply (links_at_fresh (link_of_raw (propObjs (heap (world a)) ++ ps))). }
  eapply list.Forall2_impl; [exact F2|].
  intros r l (o & Ho & Hraw). specialize (Hprops l). rewrite Ho in Hprops.
  destruct (linkObjs h4 !! l) as [o4|]; [|done]. cbn in Hprops.
  injection Hprops as Hprops. exists o4. split; [done|]. rewrite Hp4.
  unfold link_of_raw in *. destruct (raw_lproperties r); by rewrite Hprops.
Qed.

(** C10. The stroke width of a link is [sqrt(2 * s)], where [s] is the
    [strength] entry of the link's properties object when that is truthy
    and 1 otherwise.  A link without properties, without the entry, or
    with an entry that is zero or otherwise falsy gets [sqrt(2)]; a
    positive number [q] gives [sqrt(2 * q)] and a negative one [NaN].
    The links that a load draws are copies of the links of the response
    that hold the properties of the response, so the width of the [k]-th
    line is given by the [strength] of the [k]-th link of the response. *)
Theorem stroke_width_spec :
  (∀ (h : Heap) (d : SimulationLinkDatum),
     (link_properties d = None → stroke_width h d = Some (Math_sqrt 2))
     ∧ ∀ p props, link_properties d = Some p → propObjs h !! p = Some props →
         let v := props_get props "strength" in
         stroke_width h d
         = js_sqrt (js_mul (JsNumber 2) (if truthy v then v else JsNumber 1))
         ∧ (truthy v = false → stroke_width h d = Some (Math_sqrt 2))
         ∧ ("strength" ∉ props.*1 → stroke_width h d = Some (Math_sqrt 2))
         ∧ (∀ q, v = JsNumber q → (0 < q)%Q →
              stroke_width h d = Some (Math_sqrt (2 * q)))
         ∧ (∀ q, v = JsNumber q → (q < 0)%Q → stroke_width h d = None))
  ∧ Forall (λ v, truthy v = false)
      [JsUndefined; JsNull; JsNumber 0; JsNaN; JsBool false; JsString ""]
  ∧ (∀ (a : App) (c : Component) (data : RawGraph),
       comp a = Some c → pending (world a) ≠ 0 →
       let a1 := handle a (FetchResolve data) in
       is_Some (comp a1) →
       ∃ s, (comp a1 ≫= surface_sim) = Some (length (sims (world a)))
         ∧ sims (world a1) !! length (sims (world a)) = Some s
         ∧ length (sim_links s) = length (raw_links data)
         ∧ ∀ k r, raw_links data !! k = Some r →
             ∃ l d, sim_links s !! k = Some l
               ∧ linkObjs (heap (world a1)) !! l = Some d
               ∧ stroke_width (heap (world a1)) d
                 = js_sqrt (js_mul (JsNumber 2)
                      (js_or match raw_lproperties r with
                             | Some props => props_get props "strength"
                             | None => JsUndefined
                             end (JsNumber 1)))).
Proof.
  split; [|split; [repeat constructor|]].
  - intros h d. split.
    + intros Hnone.
      apply (stroke_width_of_strength h d JsUndefined); [|done].
      unfold strength. by rewrite Hnone.
    + intros p props Hp Hprops v.
      assert (Hv : strength h d = v) by (unfold strength; by rewrite Hp, Hprops).
      destruct (stroke_width_of_strength h d v Hv) as (Hw & Hfalsy & Hpos & Hneg).
      split; [done|]. split; [done|]. split; [|done].
      intros Habs. apply Hfalsy. subst v. by rewrite props_get_absent.
  - intros a c data Hc Hp a1 [c1 Hc1].
    destruct (drawn_links a c c1 data Hc Hp Hc1) as (Hsurf & s & Hs & Hlen & Hall).
    fold a1 in Hs, Hall. exists s. split; [by rewrite Hc1|]. split; [done|].
    split; [done|]. intros k r Hr.
    destruct (Forall2_lookup_l _ _ _ _ _ Hall Hr) as (l & Hl & d & Hd & Hraw).
    exists l, d. split; [done|]. split; [done|].
    unfold link_of_raw in Hraw. unfold js_or.
    destruct (raw_lproperties r) as [props|].
    + destruct Hraw as (p & Hp' & Hprops).
      assert (Hv : strength (heap (world a1)) d = props_get props "strength")
        by (unfold strength; by rewrite Hp', Hprops).
      by destruct (stroke_width_of_strength _ d _ Hv) as (-> & _).
    + assert (Hv : strength (heap (world a1)) d = JsUndefined)
        by (unfold strength; by rewrite Hraw).
      by destruct (stroke_width_of_strength _ d _ Hv) as (-> & _).
Qed.

End Strokes.

(** * More of the component and of the code around it *)

Section Frames.
Context `{D3}.

Lemma on_frame_fst (s : Simulation) (h h' : Heap) : (on_frame s h).1 = (on_frame s h').1.
Proof. unfold on_frame, step, tick. destruct (stepper s); [|done]. cbn. done. Qed.

Lemma frame_engine_lookup (w : World) (j e : nat) (s : Simulation) (h0 : Heap) :
  sims w !! e = Some s →
  sims (frame_engine w j) !! e = Some (if decide (j = e) then (on_frame s h0).1 else s).
Proof.
  intros He. unfold frame_engine. destruct (decide (j = e)) as [->|Hne].
  - rewrite He. rewrite (on_frame_fst s h0 (heap w)).
    destruct (on_frame s (heap w)) as [s1 h1]. cbn [sims fst].
    by rewrite list_lookup_insert_eq by (by eapply lookup_lt_Some).
  - destruct (sims w !! j) as [s'|]; [|done].
    destruct (on_frame s' (heap w)) as [s1 h1]. cbn [sims].
    by rewrite list_lookup_insert_ne.
Qed.

Lemma frames_lookup (w : World) (js : list nat) (e : nat) (s : Simulation) (h0 : Heap) :
  NoDup js → sims w !! e = Some s →
  sims (foldl frame_engine w js) !! e
  = Some (if decide (e ∈ js) then (on_frame s h0).1 else s).
Proof.
  revert w s. induction js as [|j js IH]; intros w s Hnd He.
  - cbn. by rewrite decide_False by apply not_elem_of_nil.
  - apply list.NoDup_cons in Hnd as [Hj Hnd]. cbn [foldl].
    pose proof (frame_engine_lookup w j e s h0 He) as Hstep.
    rewrite (IH _ _ Hnd Hstep). f_equal.
    destruct (decide (j = e)) as [->|Hne].
    + rewrite decide_False by done. rewrite decide_True by left. done.
    + destruct (decide (e ∈ js)) as [Hin|Hout].
      * by rewrite decide_True by (by right).
      * rewrite decide_False; [done|]. rewrite not_elem_of_cons. split; [auto|done].
Qed.

(** An animation frame gives every simulation one call of its timer
    callback. *)
Lemma frame_all_lookup (w : World) (e : nat) (s : Simulation) (h0 : Heap) :
  sims w !! e = Some s → sims (frame_all w) !! e = Some (on_frame s h0).1.
Proof.
  intros He. unfold frame_all.
  rewrite (frames_lookup w _ e s h0 (NoDup_seq _ _) He).
  rewrite decide_True; [done|]. apply elem_of_seq.
  apply lookup_lt_Some in He. lia.
Qed.

Lemma frame_all_length (w : World) : length (sims (frame_all w)) = length (sims w).
Proof.
  unfold frame_all. generalize (seq 0 (length (sims w))) as js. intros js.
  revert w. induction js as [|j js IH]; intros w; [done|].
  cbn [foldl]. rewrite IH. unfold frame_engine.
  destruct (sims w !! j) as [s|]; [|done].
  destruct (on_frame s (heap w)). cbn [sims]. by rewrite length_insert.
Qed.

End Frames.

Section Held.
Context `{D3}.

Lemma held_step (a : App) (e i : nat) (s : Simulation) (ev : Event) :
  sims (world a) !! e = Some s →
  alphaTarget s == 0.3 → alphaMin s == 0.001 →
  (1 # 300 <= alphaDecay s <= 1)%Q → (0 <= alpha s)%Q → stepper s = true →
  while_held e i ev →
  ∃ s', sims (world (handle a ev)) !! e = Some s'
    ∧ alphaTarget s' == 0.3 ∧ alphaMin s' == 0.001
    ∧ alphaDecay s' = alphaDecay s ∧ (0 <= alpha s')%Q ∧ stepper s' = true
    ∧ ticks s' = ticks s + frame_count [ev].
Proof.
  intros He Ht Hm Hd H0 Hst [->|(px & py & ->)].
  - cbn [handle world].
    rewrite (frame_all_lookup (world a) e s (heap (world a)) He).
    destruct (on_frame_running s (heap (world a)) Hst)
      as (Ha' & Ht' & Hm' & Hd' & Hs' & Htk' & _).
    eexists. split; [done|]. rewrite Ht', Hm', Hd'.
    split; [done|]. split; [done|]. split; [done|].
    set (d := alphaDecay s) in *.
    assert (Hav : alpha (on_frame s (heap (world a))).1
                  == alpha s * (1 - d) + 0.3 * d).
    { rewrite Ha', Ht. ring. }
    assert (Hprod : (0 <= alpha s * (1 - d))%Q) by (apply Qmult_le_0_compat; lra).
    split; [rewrite Hav; lra|]. split; [|cbn; lia].
    rewrite Hs'. apply negb_true_iff, Qltb_false. rewrite Hm, Hav. lra.
  - exists s. cbn [handle].
    assert (Hs : sims (world (match node_of (world a) e i with
                              | Some d => mkApp (dragged d px py (world a)) (comp a)
                                                (uncaught a)
                              | None => a end)) = sims (world a))
      by (by destruct (node_of (world a) e i)).
    rewrite Hs. cbn. rewrite Nat.add_0_r. done.
Qed.

Lemma held_run (a : App) (e i : nat) (s : Simulation) (evs : list Event) :
  sims (world a) !! e = Some s →
  alphaTarget s == 0.3 → alphaMin s == 0.001 →
  (1 # 300 <= alphaDecay s <= 1)%Q → (0 <= alpha s)%Q → stepper s = true →
  Forall (while_held e i) evs →
  ∃ s', sims (world (run a evs)) !! e = Some s'
    ∧ alphaTarget s' == 0.3 ∧ stepper s' = true
    ∧ ticks s' = ticks s + frame_count evs.
Proof.
  intros He Ht Hm Hd H0 Hst Hall. revert a s He Ht Hm Hd H0 Hst.
  induction Hall as [|ev evs Hev _ IH]; intros a s He Ht Hm Hd H0 Hst.
  - exists s. cbn. rewrite Nat.add_0_r. done.
  - destruct (held_step a e i s ev He Ht Hm Hd H0 Hst Hev)
      as (s1 & He1 & Ht1 & Hm1 & Hd1 & H01 & Hst1 & Htk1).
    rewrite <- Hd1 in Hd.
    destruct (IH (handle a ev) s1 He1 Ht1 Hm1 Hd H01 Hst1)
      as (s' & He' & Ht' & Hst' & Htk').
    exists s'. split; [done|]. split; [done|]. split; [done|].
    rewrite Htk', Htk1. unfold frame_count. cbn [List.filter].
    destruct (is_frame ev); cbn; lia.
Qed.

(** X3. While a node is held the simulation does not go idle.  The start
    of a drag gesture (no other gesture being active) sets the target of
    alpha to 0.3 and restarts the timer; from then on, through every frame
    and every move of the gesture, the timer stays scheduled and every
    frame is a tick, however many frames pass. *)
Theorem held_node_keeps_simulation_running (a : App) (c : Component)
    (e i : nat) (d : loc) (s : Simulation) (evs : list Event) :
  comp a = Some c → surface_sim c = Some e → node_of (world a) e i = Some d →
  sims (world a) !! e = Some s →
  alphaMin s == 0.001 → (1 # 300 <= alphaDecay s <= 1)%Q → (0 <= alpha s)%Q →
  Forall (while_held e i) evs →
  let a' := run (handle a (DragStart i 0)) evs in
  running (world a') e
  ∧ ticks_of (world a') e = ticks s + frame_count evs
  ∧ ∃ s', sims (world a') !! e = Some s' ∧ alphaTarget s' == 0.3.
Proof.
  intros Hc Hs Hn He Hm Hd H0 Hall a'.
  assert (He1 : sims (world (handle a (DragStart i 0))) !! e
                = Some (sim_restart (sim_alphaTarget 0.3 s))).
  { cbn [handle]. rewrite Hc, Hs, Hn. cbn [world]. unfold dragstarted.
    rewrite bool_decide_true by done. unfold update_node_w, update_sim.
    cbn [sims with_heap]. by rewrite list_lookup_alter_eq, He. }
  destruct (held_run (handle a (DragStart i 0)) e i _ evs He1)
    as (s' & He' & Ht' & Hst' & Htk'); try done.
  subst a'. unfold running, ticks_of. rewrite He'. cbn.
  split; [by rewrite Hst'|]. split; [done|]. by exists s'.
Qed.

End Held.

Section Afterlife.
Context `{D3}.

(** Once the component is gone, an event other than an animation frame
    leaves every simulation's timer as it is. *)
Lemma dead_step (a : App) (ev : Event) :
  comp a = None → is_frame ev = false →
  ∃ (f : Simulation → Simulation) (j : nat),
    (∀ s, stepper (f s) = stepper s)
    ∧ sims (world (handle a ev)) = alter f j (sims (world a)).
Proof.
  intros Hc Hf.
  assert (Hid : ∀ w', sims w' = sims (world a) →
            ∃ (f : Simulation → Simulation) (j : nat),
              (∀ s, stepper (f s) = stepper s) ∧ sims w' = alter f j (sims (world a))).
  { intros w' ->. exists id, 0. split; [done|]. by rewrite list_alter_id. }
  destruct ev; try done; cbn [handle]; unfold with_comp; rewrite ?Hc; try by apply Hid.
  - destruct (pending (world a)); [by apply Hid|].
    destruct (alloc_response _ _). by apply Hid.
  - destruct (pending (world a)); by apply Hid.
  - destruct (node_of (world a) e i); by apply Hid.
  - destruct (node_of (world a) e i) as [d|]; [|by apply Hid].
    cbn [world]. unfold dragended, update_node_w. cbn [sims with_heap].
    case_bool_decide; [|by apply Hid]. by exists (sim_alphaTarget 0), e.
Qed.

Lemma dead_running (a : App) (ev : Event) (j : nat) :
  comp a = None → running (world (handle a ev)) j → running (world a) j.
Proof.
  intros Hc. destruct (is_frame ev) eqn:Hf.
  - destruct ev; try done. cbn. apply frame_all_running.
  - destruct (dead_step a ev Hc Hf) as (f & k & Hst & Hs).
    unfold running. rewrite Hs. destruct (decide (k = j)) as [->|Hne].
    + rewrite list_lookup_alter_eq. destruct (sims (world a) !! j); cbn; [|done].
      by rewrite Hst.
    + by rewrite list_lookup_alter_ne.
Qed.

Lemma dead_length (a : App) (ev : Event) :
  comp a = None → length (sims (world (handle a ev))) = length (sims (world a)).
Proof.
  intros Hc. destruct (is_frame ev) eqn:Hf.
  - destruct ev; try done. cbn. apply frame_all_length.
  - destruct (dead_step a ev Hc Hf) as (f & k & Hst & ->). apply length_alter.
Qed.

Lemma dead_run (a : App) (evs : list Event) :
  comp a = None →
  comp (run a evs) = None
  ∧ length (sims (world (run a evs))) = length (sims (world a))
  ∧ ∀ j, running (world (run a evs)) j → running (world a) j.
Proof.
  revert a. induction evs as [|ev evs IH]; intros a Hc; [done|].
  change (run a (ev :: evs)) with (run (handle a ev) evs).
  destruct (IH (handle a ev)) as (Hc' & Hl & Hr).
  { by apply handle_comp_none. }
  split; [done|]. split; [by rewrite Hl, dead_length|].
  intros j Hj. eapply dead_running; [done|]. by apply Hr.
Qed.

(** X4. Removing the component is final.  From mounting on, whatever
    happened before, after the component is removed no simulation has its
    timer scheduled, and no later event (a response that arrives late, a
    pointer event, a frame) schedules one or creates a simulation. *)
Theorem nothing_runs_after_unmount (i : option string) (w h : Q)
    (evs evs' : list Event) (c : Component) :
  comp (run (mount i w h) evs) = Some c →
  let gone := handle (run (mount i w h) evs) Unmount in
  comp (run gone evs') = None
  ∧ length (sims (world (run gone evs'))) = length (sims (world (run (mount i w h) evs)))
  ∧ ∀ j, ¬ running (world (run gone evs')) j.
Proof.
  intros Hc gone.
  assert (Hgone : comp gone = None) by (subst gone; cbn [handle]; by rewrite Hc).
  destruct (dead_run gone evs' Hgone) as (Hc' & Hl & Hr).
  split; [done|]. split.
  - rewrite Hl. subst gone. cbn [handle]. rewrite Hc. cbn [world].
    destruct (run_cleanup_spec c (world (run (mount i w h) evs))) as (-> & _).
    apply stop_opt_length.
  - intros j Hj. apply Hr in Hj. by eapply unmount_stops_all.
Qed.

Lemma orphan_run (a : App) (e : nat) (s : Simulation) (evs : list Event) :
  comp a = None → sims (world a) !! e = Some s → stepper s = true →
  Forall (λ ev, is_frame ev = false) evs →
  running (world (run a evs)) e.
Proof.
  intros Hc He Hst Hall. revert a s Hc He Hst.
  induction Hall as [|ev evs Hev _ IH]; intros a s Hc He Hst.
  - unfold running. cbn. by rewrite He, <- Hst.
  - change (run a (ev :: evs)) with (run (handle a ev) evs).
    destruct (dead_step a ev Hc Hev) as (f & k & Hf & Hs).
    apply (IH _ (if decide (k = e) then f s else s)).
    + by apply handle_comp_none.
    + rewrite Hs. destruct (decide (k = e)) as [->|Hne].
      * by rewrite list_lookup_alter_eq, He.
      * by rewrite list_lookup_alter_ne.
    + destruct (decide (k = e)); [by rewrite Hf|done].
Qed.

(** X5. A load that takes the component down leaves a simulation behind.
    The exception leaves the graph effect after [d3.forceSimulation] has
    started the timer of the new simulation and before the simulation is
    stored in [simulationRef] or a clean-up function is returned.  The new
    simulation therefore runs on: the component never comes back, nothing
    but the frames of its own cooling changes its timer, and the next
    animation frame is its first tick. *)
Theorem failed_build_leaves_simulation_running (a : App) (c : Component)
    (data : RawGraph) :
  comp a = Some c → pending (world a) ≠ 0 →
  let a' := handle a (FetchResolve data) in
  let e := length (sims (world a)) in
  comp a' = None →
  running (world a') e ∧ ticks_of (world a') e = 0
  ∧ (∀ evs, comp (run a' evs) = None)
  ∧ (∀ evs, Forall (λ ev, is_frame ev = false) evs → running (world (run a' evs)) e)
  ∧ ticks_of (world (handle a' Frame)) e = 1.
Proof.
  intros Hc Hp a' e Hdown.
  assert (Hs : ∃ s, sims (world a') !! e = Some s ∧ stepper s = true ∧ ticks s = 0).
  { subst a' e. revert Hdown. cbn [handle].
    destruct (pending (world a)) as [|n]; [done|].
    destruct (alloc_response data (heap (world a))) as [gd h1]. rewrite Hc.
    set (c1 := render _). set (w1 := with_heap _ _). intros Hdown.
    destruct (graph_effect_inv c1 w1 (uncaught a))
      as [(_ & _ & c' & Hc' & _)|(s & _ & Hsims & Hst & Htk & _)]; [congruence|].
    exists s. rewrite Hsims. split; [|done].
    apply list_lookup_middle. rewrite !stop_opt_length. by subst w1. }
  destruct Hs as (s & He & Hst & Htk).
  split; [unfold running; by rewrite He, <- Hst|].
  split; [unfold ticks_of; by rewrite He|].
  split; [intros evs; by apply dead_run|].
  split; [intros evs Hall; by eapply orphan_run|].
  unfold ticks_of. cbn [handle world].
  rewrite (frame_all_lookup (world a') e s (heap (world a')) He).
  destruct (on_frame_running s (heap (world a')) Hst) as (_ & _ & _ & _ & _ & Htk' & _).
  cbn [fmap option_fmap option_map default]. by rewrite Htk', Htk.
Qed.

End Afterlife.

Section Blank.
Context `{D3}.

(** X6. A refresh takes the drawing down, and a refresh that fails does
    not bring it back.  While the request is pending the component shows
    the spinner in place of the [svg]; when the request fails a new, empty
    [svg] is mounted.  The graph data and the simulations are what they
    were, so the graph effect does not run and the simulation is not
    stopped, but the surface carries no elements and no handlers: clicks,
    drag starts and zoom gestures do nothing. *)
Theorem failed_refresh_blanks_drawing (a : App) (c : Component) :
  comp a = Some c →
  let a1 := handle a Refresh in
  let a2 := handle a1 FetchReject in
  (comp a1 ≫= svgRef) = None
  ∧ (comp a2 ≫= svgRef) = Some fresh_svg
  ∧ (comp a2 ≫= graphData) = graphData c
  ∧ sims (world a1) = sims (world a) ∧ sims (world a2) = sims (world a)
  ∧ ∀ a', a' = a1 ∨ a' = a2 →
      ∀ i active k px py,
        handle a' (ClickNode i) = a' ∧ handle a' ClickBackground = a'
        ∧ handle a' (DragStart i active) = a'
        ∧ handle a' (PointerZoom k px py) = a'.
Proof.
  intros Hc a1 a2.
  assert (H1 : a1 = mkApp (mkWorld (heap (world a)) (sims (world a))
                                   (graph_url c :: requests (world a))
                                   (S (pending (world a))))
                          (Some (set_svgRef None (setError None (setLoading true c))))
                          (uncaught a)).
  { subst a1. cbn [handle]. rewrite Hc. done. }
  assert (H2 : a2 = mkApp (mkWorld (heap (world a)) (sims (world a))
                                   (graph_url c :: requests (world a))
                                   (pending (world a)))
                          (Some (set_svgRef (Some fresh_svg)
                                   (fetch_failed (set_svgRef None
                                      (setError None (setLoading true c))))))
                          (uncaught a)).
  { subst a2. rewrite H1. done. }
  rewrite H1, H2. do 5 (split; [done|]).
  intros a' Ha' i active k px py. destruct Ha' as [->| ->]; done.
Qed.

End Blank.

Section Pressed.
Context `{D3}.

(** X7. A node that is pressed stays where it is.  The start of a drag
    gesture pins the node at the position it has, and through every later
    sequence of events that does not drag this node (frames of any
    simulation, reloads, zooming) the node keeps that pin and that
    position, whether or not the gesture ever ends. *)
Theorem pressed_node_stays_put (a : App) (c : Component) (e i active : nat)
    (d : loc) (n0 : SimulationNodeDatum) (px py : Q) (evs : list Event) :
  comp a = Some c → surface_sim c = Some e → node_of (world a) e i = Some d →
  nodeObjs (heap (world a)) !! d = Some n0 →
  node_x n0 = Some px → node_y n0 = Some py →
  let a0 := handle a (DragStart i active) in
  undisturbed d a0 evs →
  ∃ n, nodeObjs (heap (world (run a0 evs))) !! d = Some n
     ∧ node_fx n = Some px ∧ node_fy n = Some py
     ∧ node_x n = Some px ∧ node_y n = Some py.
Proof.
  intros Hc Hs Hn Hl Hx Hy a0 Hu.
  assert (Ha0 : a0 = mkApp (dragstarted e d active (world a)) (comp a) (uncaught a)).
  { subst a0. cbn [handle]. by rewrite Hc, Hs, Hn. }
  assert (Hw1 : ∀ w1, heap w1 = heap (world a) → node_of w1 e i = Some d →
            pin_pre px py e i d (update_node_w d (λ n, set_fixed (node_x n) (node_y n) n) w1)
            ∧ node_holds (placed_at px py)
                (heap (update_node_w d (λ n, set_fixed (node_x n) (node_y n) n) w1)) d).
  { intros w1 Hh1 Hn1.
    assert (Hl1 : nodeObjs (heap (update_node_w d
                                (λ n, set_fixed (node_x n) (node_y n) n) w1)) !! d
                  = Some (set_fixed (node_x n0) (node_y n0) n0)).
    { unfold update_node_w, update_node. cbn [heap with_heap nodeObjs].
      by rewrite Hh1, list_lookup_alter_eq, Hl. }
    split; [split; [done|]|]; eexists; (split; [exact Hl1|]);
      unfold placed_at, pinned_at; cbn; rewrite ?Hx, ?Hy; done. }
  assert (Hpre : pin_pre px py e i d (world a0)
                 ∧ node_holds (placed_at px py) (heap (world a0)) d).
  { rewrite Ha0. cbn [world]. unfold dragstarted. apply Hw1.
    - by destruct (bool_decide _).
    - destruct (bool_decide _); [|done]. unfold node_of in *. cbn [update_sim sims].
      destruct (sims (world a) !! e) as [s|] eqn:Hse; [|done].
      by rewrite list_lookup_alter_eq, Hse. }
  destruct Hpre as [Hpre Hplaced].
  destruct (run_pin_step px py e i d a0 evs Hpre Hu) as (_ & Hkeep & _).
  destruct (Hkeep Hplaced) as (n & Hln & (Hfx & Hfy) & Hnx & Hny).
  by exists n.
Qed.

End Pressed.

Section Scene.
Context `{D3}.

Lemma link_initialize_joins m (i : nat) (ls : list loc) (h : Heap) :
  NoDup ls → Forall (link_by_id h) ls →
  (link_initialize m i ls h).2 = None →
  Forall (link_joins (link_initialize m i ls h).1 m.*2) ls.
Proof.
  revert i h. induction ls as [|l ls IH]; intros i h Hnd Hall Hok; [constructor|].
  apply list.NoDup_cons in Hnd as [Hnotin Hnd].
  inversion Hall as [|? ? (o & src & tgt & Ho & Hsrc & Htgt) Hall']; subst.
  revert Hok. cbn [link_initialize].
  assert (Ho1 : linkObjs (update_link l (set_link_index i) h) !! l
                = Some (set_link_index i o)).
  { unfold update_link. cbn [linkObjs]. by rewrite list_lookup_alter_eq, Ho. }
  rewrite Ho1. cbn [set_link_index link_source link_target]. rewrite Hsrc, Htgt.
  cbn [resolve]. unfold find.
  destruct (map_get m src) as [sl|] eqn:Hs; [|done].
  destruct (map_get m tgt) as [tl|] eqn:Ht; [|done].
  set (h3 := update_link l (set_link_target (ByRef tl))
               (update_link l (set_link_source (ByRef sl))
                  (update_link l (set_link_index i) h))).
  intros Hok.
  assert (Hl3 : linkObjs h3 !! l
                = Some (mkLink (ByRef sl) (ByRef tl) (link_type o)
                               (link_properties o) (Some i))).
  { subst h3. unfold update_link. cbn [linkObjs].
    by rewrite !list_lookup_alter_eq, Ho. }
  assert (Hrest : Forall (link_by_id h3) ls).
  { apply list.Forall_forall. intros l0 Hin.
    rewrite list.Forall_forall in Hall'.
    destruct (Hall' l0 Hin) as (o0 & s0 & t0 & Ho0 & Hm).
    exists o0, s0, t0. split; [|done]. subst h3.
    rewrite !update_link_other; [done|by intros ->..]. }
  constructor; [|by apply IH].
  exists (mkLink (ByRef sl) (ByRef tl) (link_type o) (link_properties o) (Some i)), sl, tl.
  split; [by rewrite link_initialize_other|]. split; [done|]. split; [done|].
  apply map_get_Some in Hs, Ht.
  split; apply list_elem_of_fmap; [by exists (src, sl)|by exists (tgt, tl)].
Qed.

Lemma nodeById_values (h : Heap) (ns : list loc) (l : loc) :
  l ∈ (nodeById h ns).*2 → l ∈ ns.
Proof.
  intros Hl. apply list_elem_of_fmap in Hl as ([k l'] & -> & Hin).
  by apply nodeById_elem in Hin as [? _].
Qed.

Lemma sims_same_model_refl ss : sims_same_model ss ss.
Proof. intros e s Hs. by exists s. Qed.

Lemma sims_same_model_trans ss1 ss2 ss3 :
  sims_same_model ss1 ss2 → sims_same_model ss2 ss3 → sims_same_model ss1 ss3.
Proof.
  intros H12 H23 e s3 Hs3. destruct (H23 e s3 Hs3) as (s2 & Hs2 & Hn2 & Hl2).
  destruct (H12 e s2 Hs2) as (s1 & Hs1 & Hn1 & Hl1). exists s1.
  split; [done|]. split; congruence.
Qed.

Lemma sims_same_model_alter (f : Simulation → Simulation) i ss :
  (∀ s, sim_nodes (f s) = sim_nodes s ∧ sim_links (f s) = sim_links s) →
  sims_same_model ss (alter f i ss).
Proof.
  intros Hf e s' Hs'. destruct (decide (i = e)) as [->|Hne].
  - rewrite list_lookup_alter_eq in Hs'.
    destruct (ss !! e) as [s|]; [|done]. injection Hs' as <-. exists s.
    split; [done|]. apply Hf.
  - rewrite list_lookup_alter_ne in Hs' by done. by exists s'.
Qed.

Lemma sims_same_model_stop_opt o w : sims_same_model (sims w) (sims (stop_opt o w)).
Proof. destruct o; [|apply sims_same_model_refl]. by apply sims_same_model_alter. Qed.

Lemma on_frame_model e h :
  sim_nodes (on_frame e h).1 = sim_nodes e ∧ sim_links (on_frame e h).1 = sim_links e.
Proof.
  unfold on_frame, step, tick. destruct (stepper e); [|done]. cbn.
  by destruct (Qltb _ _).
Qed.

Lemma frame_engine_model w i : sims_same_model (sims w) (sims (frame_engine w i)).
Proof.
  unfold frame_engine. destruct (sims w !! i) as [s|] eqn:Hi;
    [|apply sims_same_model_refl].
  pose proof (on_frame_model s (heap w)) as Hn.
  destruct (on_frame s (heap w)) as [s1 h1]. cbn [sims fst] in *.
  intros e s' Hs'. destruct (decide (i = e)) as [->|Hne].
  - rewrite list_lookup_insert_eq in Hs' by (by eapply lookup_lt_Some).
    injection Hs' as <-. exists s. auto.
  - rewrite list_lookup_insert_ne in Hs' by done. by exists s'.
Qed.

Lemma frames_model w js : sims_same_model (sims w) (sims (foldl frame_engine w js)).
Proof.
  revert w. induction js as [|j js IH]; intros w; [apply sims_same_model_refl|].
  cbn. eapply sims_same_model_trans; [apply frame_engine_model|apply IH].
Qed.

Lemma link_by_id_grows (h h' : Heap) (l : loc) :
  store_grows h h' → link_by_id h l → link_by_id h' l.
Proof.
  intros (_ & Hl & _) (o & src & tgt & Ho & Hm). exists o, src, tgt.
  split; [|done]. rewrite Hl; [done|]. by eapply lookup_lt_Some.
Qed.

Lemma link_joins_grows (h h' : Heap) (ns : list loc) (l : loc) :
  store_grows h h' → link_joins h ns l → link_joins h' ns l.
Proof.
  intros (_ & Hl & _) (o & sn & tn & Ho & Hm). exists o, sn, tn.
  split; [|done]. rewrite Hl; [done|]. by eapply lookup_lt_Some.
Qed.

(** The copies of links that hold ids hold the same ids. *)
Lemma copied_links_by_id (ls : list loc) (h : Heap) :
  Forall (link_by_id h) ls →
  (copy_links ls h).1 = seq (length (linkObjs h)) (length ls)
  ∧ nodeObjs (copy_links ls h).2 = nodeObjs h
  ∧ Forall (link_by_id (copy_links ls h).2) (copy_links ls h).1.
Proof.
  intros Hall.
  assert (Hv : Forall (λ l, l < length (linkObjs h)) ls).
  { eapply list.Forall_impl; [exact Hall|]. intros l (o & _ & _ & Ho & _).
    by eapply lookup_lt_Some. }
  unfold copy_links. rewrite copy_link_fold_valid by done. cbn [fst snd app nodeObjs].
  split; [done|]. split; [done|].
  apply list.Forall_forall. intros l' Hl'. apply elem_of_seq in Hl' as [Hlo Hhi].
  assert (Hk : ∃ k, l' = length (linkObjs h) + k ∧ k < length ls)
    by (exists (l' - length (linkObjs h)); lia).
  destruct Hk as (k & -> & Hk).
  destruct (lookup_lt_is_Some_2 ls k Hk) as [l Hl].
  rewrite list.Forall_forall in Hall.
  destruct (Hall l (list_elem_of_lookup_2 _ _ _ Hl)) as (o & src & tgt & Ho & Hm).
  exists o, src, tgt. split; [|done]. cbn [linkObjs].
  rewrite lookup_app_r by lia.
  replace (length (linkObjs h) + k - length (linkObjs h)) with k by lia.
  unfold read_links. clear -Hv Hl Ho. revert k Hl.
  induction Hv as [|l0 ls Hl0 _ IH]; intros k Hl; [done|].
  cbn. destruct (lookup_lt_is_Some_2 _ _ Hl0) as [o0 Ho0]. rewrite Ho0. cbn.
  destruct k as [|k]; cbn in *; [congruence|]. by apply IH.
Qed.

Lemma graph_effect_body_joins (c : Component) (w : World) :
  (∀ gd, graphData c = Some gd → Forall (link_by_id (heap w)) (links gd)) →
  ∀ e s', sims (graph_effect_body c w).1.2 !! e = Some s' →
    (∃ s, sims w !! e = Some s ∧ sim_nodes s' = sim_nodes s
          ∧ sim_links s' = sim_links s)
    ∨ Forall (link_joins (heap (graph_effect_body c w).1.2) (sim_nodes s'))
             (sim_links s').
Proof.
  intros Hby. unfold graph_effect_body.
  destruct (graphData c) as [gd|]; [|intros e s' Hs'; left; by exists s'].
  destruct (svgRef c) as [svg|]; [|intros e s' Hs'; left; by exists s'].
  specialize (Hby gd eq_refl).
  change (match simulationRef c with
          | Some i => update_sim i sim_stop w | None => w end)
    with (stop_opt (simulationRef c) w).
  rewrite stop_opt_heap.
  destruct (copy_nodes_spec (nodes gd) (heap w)) as [xn ->].
  set (h1 := mkHeap (nodeObjs (heap w) ++ xn) (linkObjs (heap w)) (propObjs (heap w))).
  assert (Hby1 : Forall (link_by_id h1) (links gd)).
  { eapply list.Forall_impl; [exact Hby|]. intros l.
    apply link_by_id_grows. subst h1. split; [cbn; rewrite length_app; lia|by split]. }
  destruct (copied_links_by_id (links gd) h1 Hby1) as (Hls & Hn2 & Hby2).
  destruct (copy_links (links gd) h1) as [ls h2]. cbn [fst snd] in *.
  unfold forceSimulation.
  set (ns := seq (length (nodeObjs (heap w))) (length xn)).
  set (h3 := initializeNodes 0 ns h2).
  assert (Hby3 : Forall (link_by_id h3) ls).
  { destruct (initializeNodes_shape 0 ns h2) as (_ & Hl3 & _). fold h3 in Hl3.
    eapply list.Forall_impl; [exact Hby2|]. intros l (o & src & tgt & Ho & Hm).
    exists o, src, tgt. by rewrite Hl3. }
  assert (Hnd : NoDup ls) by (rewrite Hls; apply NoDup_seq).
  pose proof (link_initialize_joins (nodeById h3 ns) 0 ls h3 Hnd Hby3) as Hjoin.
  assert (Hold : ∀ e s' snew,
            (sims (stop_opt (simulationRef c) w) ++ [snew]) !! e = Some s' →
            (∃ s, sims w !! e = Some s ∧ sim_nodes s' = sim_nodes s
                  ∧ sim_links s' = sim_links s)
            ∨ s' = snew).
  { intros e s' snew Hs'. apply lookup_app_Some in Hs' as [Hs'|[_ Hs']].
    - left. by apply (sims_same_model_stop_opt (simulationRef c) w).
    - right. by apply list_lookup_singleton_Some in Hs' as [_ <-]. }
  destruct (link_initialize (nodeById h3 ns) 0 ls h3) as [h4 [msg|]];
    cbn [fst snd sims heap] in *; intros e s' Hs';
    destruct (Hold e s' _ Hs') as [Hs| ->]; [by left|right|by left|right].
  - cbn. constructor.
  - cbn [sim_nodes sim_links sim_restart sim_alpha sim_force sim_set_links].
    eapply list.Forall_impl; [exact (Hjoin eq_refl)|].
    intros l (o & sn & tn & Ho & Hs & Ht & Hsn & Htn).
    exists o, sn, tn. repeat split; try done; by eapply nodeById_values.
Qed.

Lemma scene_kept (a a' : App) :
  store_grows (heap (world a)) (heap (world a')) →
  sims_same_model (sims (world a)) (sims (world a')) →
  (∀ c', comp a' = Some c' → ∃ c, comp a = Some c ∧ graphData c' = graphData c) →
  scene_inv a → scene_inv a'.
Proof.
  intros Hg Hs Hc [I1 I2]. split.
  - intros e s' Hs'. destruct (Hs e s' Hs') as (s & Hs0 & -> & ->).
    eapply list.Forall_impl; [exact (I1 e s Hs0)|].
    intros l. by apply link_joins_grows.
  - intros c' gd Hc' Hgd. destruct (Hc c' Hc') as (c & Hc0 & Heq).
    rewrite Heq in Hgd. eapply list.Forall_impl; [exact (I2 c gd Hc0 Hgd)|].
    intros l. by apply link_by_id_grows.
Qed.

Lemma graph_effect_scene (c : Component) (w : World) (u : option string) :
  scene_inv (mkApp w (Some c) u) → scene_inv (graph_effect c w u).
Proof.
  intros [I1 I2]. cbn [world comp] in *.
  pose proof (graph_effect_grows c w u) as Hg.
  split.
  - revert Hg. unfold graph_effect.
    pose proof (run_cleanup_spec c w) as (Hw & _ & _ & _ & Hgd).
    destruct (run_cleanup c w) as [c1 w1]. cbn [fst snd] in *. subst w1.
    assert (Hby : ∀ gd, graphData c1 = Some gd →
              Forall (link_by_id (heap (stop_opt (cleanup c) w))) (links gd)).
    { intros gd Hgd1. rewrite stop_opt_heap. apply (I2 c); congruence. }
    pose proof (graph_effect_body_joins c1 _ Hby) as Hj.
    assert (Hgoal : store_grows (heap w) (heap (graph_effect_body c1
                                    (stop_opt (cleanup c) w)).1.2) →
              ∀ e s, sims (graph_effect_body c1 (stop_opt (cleanup c) w)).1.2 !! e
                     = Some s →
                Forall (link_joins (heap (graph_effect_body c1
                                      (stop_opt (cleanup c) w)).1.2) (sim_nodes s))
                       (sim_links s)).
    { intros Hg e s' Hs'. destruct (Hj e s' Hs') as [(s & Hs & -> & ->)|Hnew]; [|done].
      destruct (sims_same_model_stop_opt (cleanup c) w e s Hs) as (s0 & Hs0 & -> & ->).
      eapply list.Forall_impl; [exact (I1 e s0 Hs0)|].
      intros l. by apply link_joins_grows. }
    destruct (graph_effect_body c1 _) as [[c2 w2] [msg|]]; cbn [fst snd world] in *;
      intros Hg; by apply Hgoal.
  - intros c' gd Hc' Hgd'.
    apply graph_effect_state in Hc' as (_ & _ & Heq & _). rewrite Heq in Hgd'.
    eapply list.Forall_impl; [exact (I2 c gd eq_refl Hgd')|].
    intros l. by apply link_by_id_grows.
Qed.

(** Events that do not run the graph effect keep the simulations' nodes
    and links. *)
Lemma handle_same_model (a : App) (ev : Event) :
  (∀ w h, ev ≠ Resize w h) → (∀ data, ev ≠ FetchResolve data) →
  sims_same_model (sims (world a)) (sims (world (handle a ev))).
Proof.
  intros Hr Hf.
  assert (Hrefl : ∀ w', sims w' = sims (world a) →
            sims_same_model (sims (world a)) (sims w')).
  { intros w' ->. apply sims_same_model_refl. }
  destruct ev; cbn [handle]; unfold with_comp.
  - destruct (comp a); by apply Hrefl.
  - destruct (comp a) as [c|]; [|by apply Hrefl].
    destruct (bool_decide _); by apply Hrefl.
  - by destruct (Hr w h).
  - by destruct (Hf data).
  - destruct (pending (world a)); by apply Hrefl.
  - apply frames_model.
  - destruct (comp a); by apply Hrefl.
  - destruct (comp a); by apply Hrefl.
  - destruct (comp a) as [c|]; [|by apply Hrefl].
    destruct (svgRef c) as [svg|]; [|by apply Hrefl].
    destruct (content svg); by apply Hrefl.
  - destruct (comp a) as [c|]; [|by apply Hrefl].
    destruct (surface_sim c ≫= _); by apply Hrefl.
  - destruct (comp a) as [c|]; [|by apply Hrefl].
    destruct (surface_sim c); by apply Hrefl.
  - destruct (comp a) as [c|]; [|by apply Hrefl].
    destruct (selectedNode c), (loading c); by apply Hrefl.
  - destruct (comp a) as [c|]; [|by apply Hrefl].
    destruct (surface_sim c) as [e|]; [|by apply Hrefl].
    destruct (node_of (world a) e i) as [d|]; [|by apply Hrefl].
    cbn [world]. unfold dragstarted, update_node_w.
    cbn [sims with_heap]. destruct (bool_decide _); [|apply sims_same_model_refl].
    by apply sims_same_model_alter.
  - destruct (node_of (world a) e i) as [d|]; by apply Hrefl.
  - destruct (node_of (world a) e i) as [d|]; [|by apply Hrefl].
    cbn [world]. unfold dragended, update_node_w.
    cbn [sims with_heap]. destruct (bool_decide _); [|apply sims_same_model_refl].
    by apply sims_same_model_alter.
  - destruct (comp a) as [c|]; [|by apply Hrefl]. cbn [world].
    destruct (run_cleanup_spec c (world a)) as (-> & _).
    apply sims_same_model_stop_opt.
Qed.

Lemma handle_scene (a : App) (ev : Event) : scene_inv a → scene_inv (handle a ev).
Proof.
  intros Hinv.
  assert (Hcase : (∃ w h, ev = Resize w h) ∨ (∃ data, ev = FetchResolve data)
                  ∨ ((∀ w h, ev ≠ Resize w h) ∧ ∀ data, ev ≠ FetchResolve data)).
  { destruct ev; eauto; right; right; split; intros; discriminate. }
  destruct Hcase as [(w & h & ->)|[(data & ->)|[Hr Hf]]].
  - cbn [handle]. destruct (comp a) as [c|] eqn:Hc; [|done].
    destruct (_ && _); [done|]. apply graph_effect_scene.
    apply (scene_kept a); cbn [world comp]; [apply store_grows_refl
      |apply sims_same_model_refl| |done].
    intros c' [= <-]. by exists c.
  - cbn [handle]. destruct (pending (world a)) as [|n]; [done|].
    destruct (alloc_response_content data (heap (world a)))
      as (ns & ls & ps & -> & _ & Hlinks).
    set (h1 := mkHeap _ _ _).
    assert (Hg : store_grows (heap (world a)) h1) by apply store_grows_app.
    destruct (comp a) as [c|] eqn:Hc.
    + apply graph_effect_scene. destruct Hinv as [I1 I2]. split; cbn [world comp heap].
      * intros e s Hs. eapply list.Forall_impl; [exact (I1 e s Hs)|].
        intros l. by apply link_joins_grows.
      * intros c' gd [= <-].
        destruct (render_fields (setLoading false
                    (setGraphData (Some (mkGraphData
                       (seq (length (nodeObjs (heap (world a)))) (length ns))
                       (seq (length (linkObjs (heap (world a)))) (length ls)))) c)))
          as (_ & -> & _).
        cbn [graphData setLoading setGraphData]. intros [= <-]. cbn [links].
        apply list.Forall_forall. intros l Hl. apply elem_of_seq in Hl as [Hlo Hhi].
        assert (Hk : ∃ k, l = length (linkObjs (heap (world a))) + k ∧ k < length ls)
          by (exists (l - length (linkObjs (heap (world a)))); lia).
        destruct Hk as (k & -> & Hk).
        destruct (lookup_lt_is_Some_2 ls k Hk) as [o Ho].
        destruct (Forall2_lookup_r _ _ _ _ _ Hlinks Ho) as (r & _ & Hs & Ht & _).
        exists o, (raw_source r), (raw_target r). split; [|done].
        subst h1. cbn [heap with_heap linkObjs].
        rewrite lookup_app_r by lia.
        by replace (length (linkObjs (heap (world a))) + k
                    - length (linkObjs (heap (world a)))) with k by lia.
    + apply (scene_kept a); cbn [world comp heap with_heap]; [done
        |apply sims_same_model_refl|done|done].
  - apply (scene_kept a); [apply handle_grows|by apply handle_same_model| |done].
    intros c' Hc'.
    destruct (handle_graphData a ev c' Hc') as (c & Hc & [Heq|(data & n & -> & _)]).
    + by exists c.
    + by destruct (Hf data).
Qed.

Lemma scene_mount (i : option string) (w h : Q) : scene_inv (mount i w h).
Proof.
  split.
  - intros e s Hs. cbn in Hs. done.
  - intros c gd Hc Hgd. cbn in Hc. injection Hc as <-. done.
Qed.

Lemma scene_run (a : App) (evs : list Event) : scene_inv a → scene_inv (run a evs).
Proof.
  revert a. induction evs as [|ev evs IH]; intros a Hi; [done|].
  change (run a (ev :: evs)) with (run (handle a ev) evs). by apply IH, handle_scene.
Qed.

(** X8. Every line is drawn between its two nodes.  From mounting on, at
    every state and for every link of every simulation, the link holds a
    node of that simulation at each end, and a tick draws its line from
    the position it gives the group of the source node to the position it
    gives the group of the target node, with the label half way between
    the two. *)
Theorem lines_join_their_nodes (i : option string) (w h : Q) (evs : list Event)
    (e : nat) (s : Simulation) (l : loc) :
  let a := run (mount i w h) evs in
  sims (world a) !! e = Some s → l ∈ sim_links s →
  ∃ o sn tn source target,
    linkObjs (heap (world a)) !! l = Some o
    ∧ link_source o = ByRef sn ∧ link_target o = ByRef tn
    ∧ sn ∈ sim_nodes s ∧ tn ∈ sim_nodes s
    ∧ nodeObjs (heap (world a)) !! sn = Some source
    ∧ nodeObjs (heap (world a)) !! tn = Some target
    ∧ link_line (heap (world a)) o
      = mkLine (node_translate source).1 (node_translate source).2
               (node_translate target).1 (node_translate target).2
    ∧ link_label_at (heap (world a)) o
      = ((((node_translate source).1 + (node_translate target).1) / 2)%Q,
         (((node_translate source).2 + (node_translate target).2) / 2)%Q).
Proof.
  intros a Hs Hl.
  destruct (scene_run _ evs (scene_mount i w h)) as [I1 _].
  destruct (owned_run _ evs (owned_mount i w h)) as [Hvalid _].
  fold a in I1, Hvalid.
  pose proof (I1 e s Hs) as Hall. rewrite list.Forall_forall in Hall.
  destruct (Hall l Hl) as (o & sn & tn & Ho & Hsrc & Htgt & Hsn & Htn).
  destruct (lookup_lt_is_Some_2 _ _ (Hvalid e s sn Hs Hsn)) as [source Hsource].
  destruct (lookup_lt_is_Some_2 _ _ (Hvalid e s tn Hs Htn)) as [target Htarget].
  exists o, sn, tn, source, target. do 7 (split; [done|]).
  unfold link_line, link_label_at, node_translate, endpoint_node.
  rewrite Hsrc, Htgt, Hsource, Htarget. done.
Qed.

End Scene.

Section Panel.
Context `{D3}.

Lemma alloc_node_fold_full (acc : list loc) (h : Heap) (rs : list RawNode) :
  ∃ ns ps,
    foldl alloc_node (acc, h) rs
    = (acc ++ seq (length (nodeObjs h)) (length ns),
       mkHeap (nodeObjs h ++ ns) (linkObjs h) (propObjs h ++ ps))
    ∧ Forall2 (node_of_raw (propObjs h ++ ps)) rs ns.
Proof.
  revert acc h. induction rs as [|r rs IH]; intros acc h.
  - exists [], []. cbn. rewrite !app_nil_r. split; [by destruct h|constructor].
  - cbn [foldl alloc_node].
    destruct (IH (acc ++ [length (nodeObjs h)])
                (mkHeap (nodeObjs h ++
                           [mkNode (raw_id r) (raw_name r) (raw_type r)
                                   (length (propObjs h)) (raw_x r) (raw_y r)
                                   (raw_fx r) (raw_fy r) None None None])
                        (linkObjs h) (propObjs h ++ [raw_properties r])))
      as (ns & ps & -> & Hall).
    eexists (_ :: ns), (_ :: ps). cbn [nodeObjs linkObjs propObjs length].
    rewrite length_app, <- !app_assoc. cbn [app length].
    rewrite Nat.add_1_r. split; [done|].
    cbn [propObjs] in Hall. rewrite <- app_assoc in Hall. cbn [app] in Hall.
    constructor; [|done]. split; [done|]. cbn [node_properties].
    by rewrite list_lookup_middle.
Qed.

Lemma alloc_response_full (raw : RawGraph) (h : Heap) :
  ∃ ns ls ps,
    alloc_response raw h
    = (mkGraphData (seq (length (nodeObjs h)) (length ns))
                   (seq (length (linkObjs h)) (length ls)),
       mkHeap (nodeObjs h ++ ns) (linkObjs h ++ ls) (propObjs h ++ ps))
    ∧ Forall2 (node_of_raw (propObjs h ++ ps)) (raw_nodes raw) ns
    ∧ length ls = length (raw_links raw).
Proof.
  unfold alloc_response.
  destruct (alloc_node_fold_full [] h (raw_nodes raw)) as (ns & ps1 & -> & Hn).
  destruct (alloc_link_fold_content [] (mkHeap (nodeObjs h ++ ns) (linkObjs h)
                                        (propObjs h ++ ps1)) (raw_links raw))
    as (ls & ps2 & -> & Hc).
  exists ns, ls, (ps1 ++ ps2). cbn. rewrite app_assoc. split; [done|]. split.
  - eapply list.Forall2_impl; [exact Hn|]. intros r n [Hs Hp]. split; [done|].
    by apply lookup_app_l_Some.
  - symmetry. by eapply Forall2_length.
Qed.

Lemma init_node_static i n : node_static (init_node i n) = node_static n.
Proof.
  destruct n as [? ? ? ? x y fx fy ? vx vy]. unfold init_node. cbv zeta.
  destruct fx, fy, x, y, vx, vy; done.
Qed.

Lemma initializeNodes_static (i : nat) (ls : list loc) (h : Heap) (d : loc) :
  node_static <$> nodeObjs (initializeNodes i ls h) !! d
  = node_static <$> nodeObjs h !! d.
Proof.
  revert i h. induction ls as [|l ls IH]; intros i h; [done|].
  cbn [initializeNodes]. rewrite IH. unfold update_node. cbn [nodeObjs].
  destruct (decide (l = d)) as [->|Hne].
  - rewrite list_lookup_alter_eq. destruct (nodeObjs h !! d); [|done].
    cbn. by rewrite init_node_static.
  - by rewrite list_lookup_alter_ne.
Qed.

(** What a load that succeeds installs. *)
Lemma build_outcome (a : App) (c c1 : Component) (data : RawGraph) :
  comp a = Some c → pending (world a) ≠ 0 →
  comp (handle a (FetchResolve data)) = Some c1 →
  let a1 := handle a (FetchResolve data) in
  let n0 := length (nodeObjs (heap (world a))) in
  let n := length (raw_nodes data) in
  loading c1 = false
  ∧ surface_sim c1 = Some (length (sims (world a)))
  ∧ simulationRef c1 = Some (length (sims (world a)))
  ∧ length (sims (world a1)) = S (length (sims (world a)))
  ∧ pending (world a1) = pred (pending (world a))
  ∧ (∃ gd, graphData c1 = Some gd ∧ length (nodes gd) = n
           ∧ length (links gd) = length (raw_links data))
  ∧ ∃ s, sims (world a1) !! length (sims (world a)) = Some s
      ∧ stepper s = true
      ∧ sim_nodes s = seq (n0 + n) n
      ∧ Forall2 (λ r l, ∃ o, nodeObjs (heap (world a1)) !! l = Some o
                           ∧ node_of_raw (propObjs (heap (world a1))) r o)
                (raw_nodes data) (seq (n0 + n) n).
Proof.
  intros Hc Hp. cbn [handle].
  destruct (pending (world a)) as [|pn] eqn:Hpn; [done|].
  destruct (alloc_response_full data (heap (world a)))
    as (ns & ls & ps & -> & Hnodes & Hlen).
  assert (Hnlen : length (raw_nodes data) = length ns) by (by eapply Forall2_length).
  rewrite Hc. unfold graph_effect.
  set (gd := mkGraphData _ _).
  set (c0 := render (setLoading false (setGraphData (Some gd) c))).
  set (w1 := with_heap _ _).
  pose proof (run_cleanup_spec c0 w1) as (Hw & Hcl & Hsr & Hsv & Hgd).
  assert (Hld : loading (run_cleanup c0 w1).1 = loading c0)
    by (unfold run_cleanup; by destruct (cleanup c0)).
  destruct (run_cleanup c0 w1) as [c2 w2]. cbn [fst snd] in *. subst w2.
  assert (Hf0 : graphData c0 = Some gd ∧ loading c0 = false).
  { subst c0. by destruct (render_fields (setLoading false (setGraphData (Some gd) c)))
      as (_ & -> & _ & _ & _ & -> & _). }
  destruct Hf0 as [Hgd0 Hl0].
  destruct (render_mounts (setLoading false (setGraphData (Some gd) c)) eq_refl)
    as [svg Hsvg]. fold c0 in Hsvg.
  unfold graph_effect_body. rewrite Hgd, Hgd0, Hsv, Hsvg.
  change (match simulationRef c2 with
          | Some i => update_sim i sim_stop (stop_opt (cleanup c0) w1)
          | None => stop_opt (cleanup c0) w1 end)
    with (stop_opt (simulationRef c2) (stop_opt (cleanup c0) w1)).
  rewrite !stop_opt_heap. subst w1 gd. cbn [heap with_heap nodes links].
  rewrite copy_nodes_fresh, copy_links_fresh. unfold forceSimulation.
  set (wns := seq (length (nodeObjs (heap (world a))) + length ns) (length ns)).
  set (wls := seq (length (linkObjs (heap (world a))) + length ls) (length ls)).
  set (h2 := mkHeap _ _ _).
  set (h3 := initializeNodes 0 wns h2).
  pose proof (link_initialize_shape (nodeById h3 wns) 0 wls h3) as (Hn4 & _ & Hp4).
  destruct (initializeNodes_shape 0 wns h2) as (_ & _ & Hp3). fold h3 in Hp3.
  destruct (link_initialize (nodeById h3 wns) 0 wls h3) as [h4 [msg|]];
    cbn [fst snd comp world sims heap] in *; [done|].
  intros [= <-].
  rewrite !stop_opt_length. cbn [length sims with_heap settle].
  split; [cbn; congruence|]. split; [done|]. split; [done|].
  split; [rewrite length_app, !stop_opt_length; cbn; lia|].
  split; [destruct (simulationRef c2), (cleanup c0); cbn; by rewrite Hpn|].
  split.
  { eexists. cbn [graphData set_cleanup set_svgRef set_simulationRef].
    rewrite Hgd, Hgd0. split; [done|]. cbn [nodes links].
    by rewrite !length_seq, Hlen, Hnlen. }
  eexists. split.
  { apply list_lookup_middle. by rewrite !stop_opt_length. }
  cbn [stepper sim_nodes sim_restart sim_alpha sim_force sim_set_links].
  split; [done|]. rewrite Hnlen. split; [done|].
  apply Forall2_same_length_lookup_2; [by rewrite length_seq|].
  intros i r l Hr Hl. apply lookup_seq in Hl as [-> Hi].
  destruct (Forall2_lookup_l _ _ _ _ _ Hnodes Hr) as (o0 & Ho0 & Hs0 & Hprops).
  pose proof (initializeNodes_static 0 wns h2
                (length (nodeObjs (heap (world a))) + length ns + i)) as Hst.
  fold h3 in Hst.
  assert (Hh2 : nodeObjs h2 !! (length (nodeObjs (heap (world a))) + length ns + i)
                = Some o0).
  { subst h2. cbn [nodeObjs]. rewrite lookup_app_r by (rewrite length_app; lia).
    rewrite length_app.
    by replace (length (nodeObjs (heap (world a))) + length ns + i
                - (length (nodeObjs (heap (world a))) + length ns)) with i by lia. }
  rewrite Hh2 in Hst. rewrite Hn4.
  destruct (nodeObjs h3 !! _) as [o|]; [|done]. cbn in Hst. injection Hst as Hst.
  exists o. split; [done|]. rewrite Hp4, Hp3. subst h2. cbn [propObjs].
  unfold node_of_raw, node_static in *.
  assert (Hprop : node_properties o = node_properties o0) by congruence.
  rewrite Hprop. split; [congruence|done].
Qed.

End Panel.

Section PanelFacts.
Context `{D3}.
Variable NumberToString : Q → string.

(** X9. After a load that succeeds, a click on the [i]-th node group opens
    the panel on the [i]-th node of the response: it shows that node's
    name, its type, and one row per entry of its properties, and the
    selection carries its id.  A position beyond the last node has no
    group, and a click there does nothing. *)
Theorem click_shows_fetched_node (a : App) (c : Component) (data : RawGraph) :
  comp a = Some c → pending (world a) ≠ 0 →
  let a1 := handle a (FetchResolve data) in
  is_Some (comp a1) →
  (∀ i r, raw_nodes data !! i = Some r →
     overlay NumberToString (handle a1 (ClickNode i))
     = Some (mkOverlay (raw_name r) (raw_type r)
               ((λ kv, (kv.1, js_String NumberToString kv.2)) <$> raw_properties r))
     ∧ selected_id (handle a1 (ClickNode i)) = Some (raw_id r))
  ∧ (∀ i, raw_nodes data !! i = None → handle a1 (ClickNode i) = a1).
Proof.
  intros Hc Hp a1 [c1 Hc1].
  destruct (build_outcome a c c1 data Hc Hp Hc1)
    as (Hload & Hsurf & _ & _ & _ & _ & s & Hs & _ & Hsn & Hall).
  fold a1 in Hs, Hall.
  set (n0 := length (nodeObjs (heap (world a)))) in *.
  set (n := length (raw_nodes data)) in *.
  assert (Hnode : ∀ i, surface_sim c1 ≫= (λ e, node_of (world a1) e i)
                       = seq (n0 + n) n !! i).
  { intros i. rewrite Hsurf. cbn [mbind option_bind]. unfold node_of. rewrite Hs.
    cbn [mbind option_bind]. by rewrite Hsn. }
  split.
  - intros i r Hr.
    destruct (Forall2_lookup_l _ _ _ _ _ Hall Hr) as (l & Hl & o & Ho & Hst & Hprops).
    assert (Hclick : handle a1 (ClickNode i)
                     = mkApp (world a1) (Some (setSelectedNode (Some l) c1))
                             (uncaught a1)).
    { cbn [handle]. rewrite Hc1, Hnode, Hl. done. }
    rewrite Hclick. unfold overlay, selected_id, selection.
    cbn [comp world mbind option_bind selectedNode setSelectedNode loading].
    rewrite Hload, Ho. cbn [mbind option_bind fmap option_fmap option_map].
    rewrite Hprops. cbn [mbind option_bind].
    unfold node_static in Hst.
    assert (Hf : node_id o = raw_id r ∧ node_name o = raw_name r
                 ∧ node_type o = raw_type r) by (repeat split; congruence).
    destruct Hf as (-> & -> & ->). done.
  - intros i Hi. cbn [handle]. rewrite Hc1, Hnode.
    rewrite (lookup_ge_None_2 (seq (n0 + n) n) i); [done|].
    rewrite length_seq. by apply lookup_ge_None.
Qed.

(** X10. The line under the drawing reports the last response that was
    loaded.  Before any load it says that no graph data is available;
    after a load that succeeds it gives the numbers of nodes and links of
    that response; a failed request leaves it as it is. *)
Theorem footer_reports_last_load (a : App) (c : Component) (data : RawGraph) :
  comp a = Some c → pending (world a) ≠ 0 →
  (∀ i w h, footer <$> comp (mount i w h) = Some "No graph data available")
  ∧ (∀ c1, comp (handle a (FetchResolve data)) = Some c1 →
       footer c1 = "Showing " +:+ pretty (length (raw_nodes data))
                   +:+ " entities with " +:+ pretty (length (raw_links data))
                   +:+ " relationships")
  ∧ (footer <$> comp (handle a FetchReject) = Some (footer c)).
Proof.
  intros Hc Hp. split; [done|]. split.
  - intros c1 Hc1.
    destruct (build_outcome a c c1 data Hc Hp Hc1)
      as (_ & _ & _ & _ & _ & (gd & Hgd & Hn & Hl) & _).
    unfold footer. by rewrite Hgd, Hn, Hl.
  - cbn [handle]. destruct (pending (world a)); [done|]. rewrite Hc.
    cbn [comp fmap option_fmap option_map compose]. f_equal. unfold footer.
    by destruct (render_fields (fetch_failed c)) as (_ & -> & _).
Qed.

(** X11. Nothing cancels a request or orders the responses.  Two presses
    of the refresh button put two requests for the same URL on their way.
    The first response to arrive is loaded and ends the spinner while the
    other request is still pending; the second response is loaded in its
    turn: it stops the simulation built from the first, and the drawing
    and the line under it are those of the response that arrived last. *)
Theorem overlapping_loads_apply_in_arrival_order (a : App) (c : Component)
    (d1 d2 : RawGraph) :
  comp a = Some c →
  let a2 := run a [Refresh; Refresh] in
  let a3 := handle a2 (FetchResolve d1) in
  let a4 := handle a3 (FetchResolve d2) in
  let e1 := length (sims (world a)) in
  requests (world a2) = graph_url c :: graph_url c :: requests (world a)
  ∧ ∀ c3, comp a3 = Some c3 →
      loading c3 = false ∧ pending (world a3) = S (pending (world a))
      ∧ surface_sim c3 = Some e1 ∧ running (world a3) e1
      ∧ ∀ c4, comp a4 = Some c4 →
          surface_sim c4 = Some (S e1)
          ∧ footer c4 = "Showing " +:+ pretty (length (raw_nodes d2))
                        +:+ " entities with " +:+ pretty (length (raw_links d2))
                        +:+ " relationships"
          ∧ ¬ running (world a4) e1 ∧ running (world a4) (S e1).
Proof.
  intros Hc a2 a3 a4 e1.
  set (c1 := render (setError None (setLoading true c))).
  set (c2 := render (setError None (setLoading true c1))).
  assert (Hid : investigationId c1 = investigationId c).
  { subst c1. unfold render. cbn. by destruct (svgRef c). }
  assert (Ha2 : a2 = mkApp (mkWorld (heap (world a)) (sims (world a))
                              (graph_url c :: graph_url c :: requests (world a))
                              (S (S (pending (world a)))))
                           (Some c2) (uncaught a)).
  { subst a2. cbn [run foldl handle]. rewrite Hc. unfold start_fetch, fetchGraphData.
    cbn [comp world heap sims requests pending uncaught]. fold c1.
    unfold graph_url at 1. rewrite Hid. done. }
  split; [by rewrite Ha2|].
  assert (Hc2 : comp a2 = Some c2) by (by rewrite Ha2).
  assert (Hp2 : pending (world a2) ≠ 0) by (by rewrite Ha2).
  intros c3 Hc3.
  destruct (build_outcome a2 c2 c3 d1 Hc2 Hp2 Hc3)
    as (Hl3 & Hsurf3 & Href3 & Hlen3 & Hpend3 & _ & s3 & Hs3 & Hst3 & _).
  fold a3 in Hlen3, Hpend3, Hs3.
  assert (Hsims2 : length (sims (world a2)) = e1) by (by rewrite Ha2).
  rewrite Hsims2 in *.
  assert (Hpend : pending (world a3) = S (pending (world a)))
    by (rewrite Hpend3, Ha2; done).
  split; [done|]. split; [done|]. split; [done|].
  split; [unfold running; by rewrite Hs3, <- Hst3|].
  intros c4 Hc4.
  assert (Hp3 : pending (world a3) ≠ 0) by (by rewrite Hpend).
  destruct (build_outcome a3 c3 c4 d2 Hc3 Hp3 Hc4)
    as (_ & Hsurf4 & _ & _ & _ & (gd & Hgd & Hn & Hl) & s4 & Hs4 & Hst4 & _).
  fold a4 in Hs4. rewrite Hlen3 in *.
  split; [done|]. split; [unfold footer; by rewrite Hgd, Hn, Hl|].
  split; [|unfold running; by rewrite Hs4, <- Hst4].
  destruct (install_retires a3 c3 e1 d2 Hc3 Href3) as [[Hstop _] _]; [eauto|done|].
  fold a4 in Hstop. unfold running. rewrite Hstop. discriminate.
Qed.

End PanelFacts.

Section Rebuild.
Context `{D3}.

Lemma initializeNodes_at (i : nat) (ls : list loc) (h : Heap) (k : nat) (l : loc) :
  NoDup ls → ls !! k = Some l →
  nodeObjs (initializeNodes i ls h) !! l = init_node (i + k) <$> nodeObjs h !! l.
Proof.
  revert i h k. induction ls as [|l0 ls IH]; intros i h k Hnd Hk; [done|].
  apply list.NoDup_cons in Hnd as [Hnotin Hnd]. cbn [initializeNodes].
  destruct k as [|k]; cbn in Hk.
  - injection Hk as ->. rewrite initializeNodes_other by done.
    unfold update_node. cbn [nodeObjs]. rewrite list_lookup_alter_eq.
    by rewrite Nat.add_0_r.
  - rewrite (IH (S i) _ k) by done.
    assert (Hne : l0 ≠ l).
    { intros ->. apply Hnotin. by eapply list_elem_of_lookup_2. }
    rewrite update_node_other by done. f_equal. f_equal. lia.
Qed.

Lemma init_node_pin (i : nat) (n : SimulationNodeDatum) :
  node_fx (init_node i n) = node_fx n ∧ node_fy (init_node i n) = node_fy n.
Proof.
  destruct n as [? ? ? ? x y fx fy ? vx vy]. unfold init_node. cbv zeta.
  destruct fx, fy, x, y, vx, vy; done.
Qed.

Lemma read_nodes_lookup (h : Heap) (ls : list loc) (k : nat) (l : loc) :
  Forall (λ l, l < length (nodeObjs h)) ls → ls !! k = Some l →
  read_nodes h ls !! k = nodeObjs h !! l.
Proof.
  intros Hv. revert k. induction Hv as [|l0 ls Hl0 _ IH]; intros k Hk; [done|].
  unfold read_nodes in *. cbn.
  destruct (lookup_lt_is_Some_2 _ _ Hl0) as [o0 Ho0]. rewrite Ho0. cbn.
  destruct k as [|k]; cbn in *; [congruence|]. by apply IH.
Qed.

(** What a run of the graph effect that completes builds its nodes from. *)
Lemma graph_effect_rebuilds (c c' : Component) (w : World) (u : option string)
    (gd : GraphData) (svg : Svg) :
  graphData c = Some gd → svgRef c = Some svg →
  Forall (λ l, l < length (nodeObjs (heap w))) (nodes gd) →
  comp (graph_effect c w u) = Some c' →
  let w' := world (graph_effect c w u) in
  surface_sim c' = Some (length (sims w))
  ∧ ∃ s, sims w' !! length (sims w) = Some s
      ∧ ticks s = 0 ∧ alpha s = 1%Q ∧ stepper s = true
      ∧ sim_nodes s = seq (length (nodeObjs (heap w))) (length (nodes gd))
      ∧ ∀ k l, nodes gd !! k = Some l →
          nodeObjs (heap w') !! (length (nodeObjs (heap w)) + k)
          = init_node k <$> nodeObjs (heap w) !! l.
Proof.
  intros Hgd Hsvg Hv. unfold graph_effect.
  pose proof (run_cleanup_spec c w) as (Hw & Hcl & Hsr & Hsv & Hgd1).
  destruct (run_cleanup c w) as [c1 w1]. cbn [fst snd] in *. subst w1.
  unfold graph_effect_body. rewrite Hgd1, Hgd, Hsv, Hsvg.
  change (match simulationRef c1 with
          | Some i => update_sim i sim_stop (stop_opt (cleanup c) w)
          | None => stop_opt (cleanup c) w end)
    with (stop_opt (simulationRef c1) (stop_opt (cleanup c) w)).
  rewrite !stop_opt_heap, !stop_opt_length.
  unfold copy_nodes. rewrite copy_node_fold_valid by done. cbn [app].
  set (h1 := mkHeap _ _ _).
  destruct (copy_links_spec (links gd) h1) as [xl ->].
  unfold forceSimulation.
  set (ns := seq (length (nodeObjs (heap w))) (length (nodes gd))).
  set (ls := seq _ _). set (h2 := mkHeap _ _ _).
  set (h3 := initializeNodes 0 ns h2).
  pose proof (link_initialize_shape (nodeById h3 ns) 0 ls h3) as (Hn4 & _ & _).
  destruct (link_initialize (nodeById h3 ns) 0 ls h3) as [h4 [msg|]];
    cbn [fst snd comp world sims heap] in *; [done|].
  intros [= <-]. split; [done|]. eexists. split.
  { apply list_lookup_middle. by rewrite !stop_opt_length. }
  cbn [ticks alpha stepper sim_nodes sim_restart sim_alpha sim_force sim_set_links].
  do 4 (split; [done|]).
  intros k l Hk. rewrite Hn4. subst h3.
  assert (Hnk : ns !! k = Some (length (nodeObjs (heap w)) + k)).
  { subst ns. apply lookup_seq. split; [done|]. by eapply lookup_lt_Some. }
  rewrite (initializeNodes_at 0 ns h2 k _ (NoDup_seq _ _) Hnk). cbn [Nat.add].
  f_equal. subst h2 h1. cbn [nodeObjs].
  rewrite lookup_app_r by lia.
  replace (length (nodeObjs (heap w)) + k - length (nodeObjs (heap w))) with k by lia.
  by apply read_nodes_lookup.
Qed.

(** X12. A change of width or height rebuilds the model from the fetched
    data.  From mounting on, when the component shows a graph and is given
    another size, the graph effect replaces the simulation by a new one
    that starts at alpha = 1 with no tick behind it, over new node
    objects: the [k]-th of them is the [k]-th fetched node as
    [d3.forceSimulation] initialises it, so positions and pins of the
    layout that was on screen are not carried over. *)
Theorem resize_rebuilds_from_fetched_data (i0 : option string) (w0 h0 : Q)
    (evs : list Event) (c : Component) (gd : GraphData) (svg : Svg) (w h : Q) :
  let a := run (mount i0 w0 h0) evs in
  comp a = Some c → graphData c = Some gd → svgRef c = Some svg →
  Qeq_bool w (width c) && Qeq_bool h (height c) = false →
  let a' := handle a (Resize w h) in
  is_Some (comp a') →
  (comp a' ≫= surface_sim) = Some (length (sims (world a)))
  ∧ ∃ s, sims (world a') !! length (sims (world a)) = Some s
      ∧ ticks s = 0 ∧ alpha s = 1%Q ∧ stepper s = true
      ∧ length (sim_nodes s) = length (nodes gd)
      ∧ ∀ k l, nodes gd !! k = Some l →
          ∃ o d, nodeObjs (heap (world a)) !! l = Some o
            ∧ sim_nodes s !! k = Some d
            ∧ nodeObjs (heap (world a')) !! d = Some (init_node k o)
            ∧ node_fx (init_node k o) = node_fx o
            ∧ node_fy (init_node k o) = node_fy o.
Proof.
  intros a Hc Hgd Hsvg Hdims a' [c' Hc'].
  destruct (owned_run _ evs (owned_mount i0 w0 h0)) as [_ Hown]. fold a in Hown.
  destruct (Hown c gd Hc Hgd) as (Hnodes & _ & _).
  assert (Hv : Forall (λ l, l < length (nodeObjs (heap (world a)))) (nodes gd))
    by (by apply list.Forall_forall).
  subst a'. revert Hc'. cbn [handle]. rewrite Hc, Hdims. intros Hc'.
  destruct (graph_effect_rebuilds (set_props (investigationId c) w h c) c' (world a)
              (uncaught a) gd svg Hgd Hsvg Hv Hc')
    as (Hsurf & s & Hs & Htk & Hal & Hst & Hsn & Hbuilt).
  rewrite Hc'. cbn [mbind option_bind]. split; [done|].
  exists s. do 4 (split; [done|]). split; [by rewrite Hsn, length_seq|].
  intros k l Hk.
  destruct (lookup_lt_is_Some_2 _ _ (Hnodes l (list_elem_of_lookup_2 _ _ _ Hk)))
    as [o Ho].
  exists o, (length (nodeObjs (heap (world a))) + k).
  split; [done|]. split.
  - rewrite Hsn. apply lookup_seq. split; [done|]. by eapply lookup_lt_Some.
  - rewrite (Hbuilt k l Hk), Ho. split; [done|]. apply init_node_pin.
Qed.

End Rebuild.

Section Glyphs.

Lemma index_get_None d l : index_get d l = None ↔ d ∉ l.
Proof.
  induction l as [|x l IH]; cbn.
  - split; [intros _; apply not_elem_of_nil|done].
  - rewrite not_elem_of_cons. case_bool_decide as Hx.
    + split; [done|]. intros [Hne _]. by subst.
    + destruct (index_get d l); cbn; split; try done.
      * intros [_ Hn]. by apply IH in Hn.
      * intros _. split; [done|]. by apply IH.
Qed.

Lemma index_get_Some d l i : index_get d l = Some i → l !! i = Some d.
Proof.
  revert i. induction l as [|x l IH]; intros i; cbn; [done|].
  case_bool_decide as Hx; [by intros [= <-]; subst|].
  destruct (index_get d l) as [j|]; cbn; [|done]. intros [= <-]. by apply IH.
Qed.

Lemma index_get_app_l d l r i :
  index_get d l = Some i → index_get d (l ++ r) = Some i.
Proof.
  revert i. induction l as [|x l IH]; intros i; cbn; [done|].
  case_bool_decide; [done|].
  destruct (index_get d l) as [j|]; cbn; [|done]. intros [= <-].
  by rewrite (IH j).
Qed.

Lemma index_get_app_r d l r :
  d ∉ l → index_get d (l ++ d :: r) = Some (length l).
Proof.
  induction l as [|x l IH]; cbn.
  - intros _. by rewrite bool_decide_true.
  - rewrite not_elem_of_cons. intros [Hne Hn].
    rewrite bool_decide_false by done. by rewrite IH.
Qed.

Lemma index_get_prefix d l l' i :
  l `prefix_of` l' → index_get d l = Some i → index_get d l' = Some i.
Proof. intros [r ->]. apply index_get_app_l. Qed.

Lemma index_get_NoDup d l i : NoDup l → l !! i = Some d → index_get d l = Some i.
Proof.
  intros Hnd Hi. destruct (index_get d l) as [j|] eqn:Hj.
  - apply index_get_Some in Hj. f_equal. by eapply NoDup_lookup.
  - apply index_get_None in Hj. destruct Hj. by eapply list_elem_of_lookup_2.
Qed.

Lemma extend_domain_prefix dom ds : dom `prefix_of` extend_domain dom ds.
Proof.
  revert dom. induction ds as [|d ds IH]; intros dom; [done|].
  cbn. case_bool_decide; [apply IH|].
  etransitivity; [|apply IH]. by apply prefix_app_r.
Qed.

Lemma extend_domain_known dom ds :
  Forall (λ d, d ∈ dom) ds → extend_domain dom ds = dom.
Proof.
  induction 1 as [|d ds Hd _ IH]; [done|]. cbn. by rewrite bool_decide_true.
Qed.

Lemma extend_domain_app dom ds ds' :
  extend_domain dom (ds ++ ds') = extend_domain (extend_domain dom ds) ds'.
Proof. apply foldl_app. Qed.

Lemma scale_call_spec s d :
  scale_range (scale_call s d).1 = scale_range s
  ∧ scale_domain (scale_call s d).1 = extend_domain (scale_domain s) [d]
  ∧ ∃ i, index_get d (scale_domain (scale_call s d).1) = Some i
         ∧ (scale_call s d).2 = scale_range s !! (i mod length (scale_range s)).
Proof.
  unfold scale_call. cbn [extend_domain foldl].
  destruct (index_get d (scale_domain s)) as [i|] eqn:Hi; cbn [fst snd].
  - split; [done|]. split; [|by exists i].
    rewrite bool_decide_true; [done|]. eapply list_elem_of_lookup_2.
    by apply index_get_Some.
  - apply index_get_None in Hi. cbn [scale_domain scale_range].
    split; [done|]. split; [by rewrite bool_decide_false|].
    exists (length (scale_domain s)). split; [|done]. by apply index_get_app_r.
Qed.

Lemma paint_spec shape s ds :
  scale_range (paint shape s ds).1 = scale_range s
  ∧ scale_domain (paint shape s ds).1
    = extend_domain (scale_domain s) (node_type <$> ds)
  ∧ glyph_node <$> (paint shape s ds).2 = ds
  ∧ Forall (λ g, glyph_shape g = shape
                 ∧ painted (scale_range s) (scale_domain (paint shape s ds).1) g)
           (paint shape s ds).2.
Proof.
  revert s. induction ds as [|d ds IH]; intros s; [done|].
  cbn [paint]. destruct (scale_call_spec s (node_type d)) as (Hr & Hd & i & Hi & Hc).
  destruct (scale_call s (node_type d)) as [s1 c]. cbn [fst snd] in *.
  destruct (IH s1) as (Hr2 & Hd2 & Hn2 & Hall).
  destruct (paint shape s1 ds) as [s2 gs]. cbn [fst snd] in *.
  split; [congruence|]. split; [by rewrite Hd2, Hd|]. split; [cbn; by rewrite Hn2|].
  constructor.
  - split; [done|]. exists i. cbn. split; [|done].
    eapply index_get_prefix; [|exact Hi]. rewrite Hd2. apply extend_domain_prefix.
  - rewrite Hr in Hall. exact Hall.
Qed.

(** Every glyph is painted from the final domain of the scale, which
    starts with the five known types. *)
Lemma node_glyphs_painted (ns : list SimulationNodeDatum) :
  let others := filter (λ d, ¬ node_type d = "person") ns in
  let domain := extend_domain (scale_domain nodeColorScale) (node_type <$> others) in
  glyph_node <$> node_glyphs ns
  = filter (λ d, node_type d = "person") ns ++ others
  ∧ Forall (λ g, (glyph_shape g = ShapeCircle ↔ node_type (glyph_node g) = "person")
                 ∧ painted (scale_range nodeColorScale) domain g)
           (node_glyphs ns).
Proof.
  intros others domain. unfold node_glyphs. fold others.
  set (persons := filter (λ d, node_type d = "person") ns).
  destruct (paint_spec ShapeCircle nodeColorScale persons) as (Hr1 & Hd1 & Hn1 & Hall1).
  destruct (paint ShapeCircle nodeColorScale persons) as [s1 circles].
  cbn [fst snd] in *.
  assert (Hdom1 : scale_domain s1 = scale_domain nodeColorScale).
  { rewrite Hd1. apply extend_domain_known. apply list.Forall_forall.
    intros t Ht. apply list_elem_of_fmap in Ht as (d & -> & Hd).
    apply list_elem_of_filter in Hd as [-> _]. cbn. left. }
  destruct (paint_spec ShapeRect s1 others) as (Hr2 & Hd2 & Hn2 & Hall2).
  destruct (paint ShapeRect s1 others) as [s2 rects]. cbn [fst snd] in *.
  rewrite Hdom1 in Hd2. fold domain in Hd2. rewrite Hd2, Hr1 in Hall2.
  split; [by rewrite fmap_app, Hn1, Hn2|].
  apply Forall_app. split.
  - assert (Hin : Forall (λ g, node_type (glyph_node g) = "person") circles).
    { apply list.Forall_forall. intros g Hg.
      assert (Hd : glyph_node g ∈ persons)
        by (rewrite <- Hn1; by apply list_elem_of_fmap_2).
      by apply list_elem_of_filter in Hd as [? _]. }
    eapply list.Forall_impl; [exact (Forall_and Hall1 Hin)|].
    intros g [[Hs (i & Hi & Hc)] Hp]. cbn in Hp. split; [by rewrite Hs|].
    exists i. split; [|done]. rewrite Hdom1 in Hi.
    eapply index_get_prefix; [apply extend_domain_prefix|done].
  - assert (Hin : Forall (λ g, ¬ node_type (glyph_node g) = "person") rects).
    { apply list.Forall_forall. intros g Hg.
      assert (Hd : glyph_node g ∈ others)
        by (rewrite <- Hn2; by apply list_elem_of_fmap_2).
      by apply list_elem_of_filter in Hd as [? _]. }
    eapply list.Forall_impl; [exact (Forall_and Hall2 Hin)|].
    intros g [[Hs Hp] Hn]. cbn in Hn. split; [|done]. rewrite Hs. split; done.
Qed.

(** X13. Every node group gets exactly one shape, a circle if and only if
    the node's type is [person], filled with one of the five colours of
    the range.  Nodes of one type have one colour, and each of the five
    known types has its own.  A type outside the known five is not
    refused: the scale takes it into its domain, and the first such type
    among the nodes is given the first colour of the range again, the
    colour of [person]. *)
Theorem node_glyphs_spec (ns : list SimulationNodeDatum) :
  glyph_node <$> node_glyphs ns ≡ₚ ns
  ∧ (∀ g, g ∈ node_glyphs ns →
       (glyph_shape g = ShapeCircle ↔ node_type (glyph_node g) = "person")
       ∧ (∃ c, glyph_fill g = Some c ∧ c ∈ scale_range nodeColorScale)
       ∧ (∀ i, scale_domain nodeColorScale !! i = Some (node_type (glyph_node g)) →
            glyph_fill g = scale_range nodeColorScale !! i))
  ∧ (∀ g g', g ∈ node_glyphs ns → g' ∈ node_glyphs ns →
       node_type (glyph_node g) = node_type (glyph_node g') →
       glyph_fill g = glyph_fill g')
  ∧ (∀ i u g,
       list_find (λ d, node_type d ∉ scale_domain nodeColorScale) ns = Some (i, u) →
       g ∈ node_glyphs ns → node_type (glyph_node g) = node_type u →
       glyph_fill g = Some "#60a5fa").
Proof.
  destruct (node_glyphs_painted ns) as [Hnodes Hall]. cbv zeta in Hall.
  set (others := filter (λ d, ¬ node_type d = "person") ns) in *.
  set (domain := extend_domain (scale_domain nodeColorScale) (node_type <$> others)) in *.
  rewrite list.Forall_forall in Hall.
  assert (Hpre : scale_domain nodeColorScale `prefix_of` domain)
    by apply extend_domain_prefix.
  assert (Hnd : NoDup (scale_domain nodeColorScale)).
  { by apply (bool_decide_unpack (NoDup _)). }
  split; [|split; [|split]].
  - rewrite Hnodes. apply filter_app_complement.
  - intros g Hg. destruct (Hall g Hg) as [Hshape (i & Hi & Hc)].
    split; [done|]. split.
    + assert (Hlt : i mod 5 < 5) by (apply Nat.mod_upper_bound; lia).
      cbn [scale_range nodeColorScale length] in *.
      destruct (lookup_lt_is_Some_2
                  ["#60a5fa"; "#34d399"; "#f87171"; "#a78bfa"; "#fbbf24"] (i mod 5))
        as [c Hlook]; [done|].
      exists c. split; [congruence|]. by eapply list_elem_of_lookup_2.
    + intros j Hj. rewrite Hc.
      assert (Hij : index_get (node_type (glyph_node g)) domain = Some j).
      { eapply index_get_prefix; [done|]. by apply index_get_NoDup. }
      assert (i = j) as -> by congruence.
      apply lookup_lt_Some in Hj. cbn in Hj. by rewrite Nat.mod_small.
  - intros g g' Hg Hg' Hty. destruct (Hall g Hg) as [_ (i & Hi & ->)].
    destruct (Hall g' Hg') as [_ (i' & Hi' & ->)]. rewrite Hty in Hi.
    by assert (i = i') as -> by congruence.
  - intros i u g Hfind Hg Hty. destruct (Hall g Hg) as [_ (k & Hk & ->)].
    apply list_find_Some in Hfind as (Hu & Hunknown & Hbefore).
    assert (Hidx : index_get (node_type u) domain = Some 5).
    { subst domain others.
      rewrite <- (take_drop_middle ns i u Hu), list.filter_app, filter_cons_True.
      2:{ intros Hp. apply Hunknown. rewrite Hp. left. }
      rewrite fmap_app, fmap_cons, extend_domain_app.
      rewrite (extend_domain_known (scale_domain nodeColorScale)).
      2:{ apply list.Forall_forall. intros t Ht.
          apply list_elem_of_fmap in Ht as (d & -> & Hd).
          apply list_elem_of_filter in Hd as [_ Hd].
          apply list_elem_of_lookup in Hd as [j Hj].
          pose proof (lookup_lt_Some _ _ _ Hj) as Hlt. rewrite length_take in Hlt.
          rewrite lookup_take_lt in Hj by lia.
          apply dec_stable. apply (Hbefore j d Hj). lia. }
      cbn [extend_domain foldl]. rewrite bool_decide_false by done.
      eapply index_get_prefix;
        [apply (extend_domain_prefix (scale_domain nodeColorScale ++ [node_type u]))|].
      by apply index_get_app_r. }
    rewrite Hty, Hidx in Hk. by injection Hk as <-.
Qed.

End Glyphs.

Section Strings.

Lemma append_cons (a : Ascii.ascii) (s t : string) :
  String a s +:+ t = String a (s +:+ t).
Proof. reflexivity. Qed.

Lemma length_append (s t : string) :
  String.length (s +:+ t) = String.length s + String.length t.
Proof.
  induction s as [|a s IH]; [done|]. rewrite append_cons. simpl. by rewrite IH.
Qed.

Lemma length_substring0 (n : nat) (s : string) :
  String.length (String.substring 0 n s) = n `min` String.length s.
Proof.
  revert s. induction n as [|n IH]; intros s; [by destruct s|].
  destruct s as [|a s]; simpl; [done|]. by rewrite IH.
Qed.

Lemma substring0_prefix (n : nat) (s : string) :
  ∃ rest, s = String.substring 0 n s +:+ rest.
Proof.
  revert s. induction n as [|n IH]; intros s.
  - exists s. by destruct s.
  - destruct s as [|a s]; [by exists ""|].
    destruct (IH s) as [rest Hrest]. exists rest. simpl. rewrite append_cons. by f_equal.
Qed.

(** X14. The label under a node never has more than 15 characters: a name
    of up to 15 characters is shown as it is, a longer one as its first 12
    characters followed by three dots. *)
Theorem node_label_fits (d : SimulationNodeDatum) :
  String.length (node_label d) ≤ 15
  ∧ (String.length (node_name d) ≤ 15 → node_label d = node_name d)
  ∧ (15 < String.length (node_name d) →
       String.length (node_label d) = 15
       ∧ ∃ head rest, node_name d = head +:+ rest ∧ String.length head = 12
                      ∧ node_label d = head +:+ "...").
Proof.
  unfold node_label. destruct (Nat.ltb_spec 15 (String.length (node_name d))) as [Hlt|Hle].
  - assert (Hlen : String.length (String.substring 0 12 (node_name d)) = 12).
    { rewrite length_substring0. lia. }
    split; [rewrite length_append, Hlen; cbn; lia|]. split; [lia|]. intros _.
    split; [rewrite length_append, Hlen; cbn; lia|].
    destruct (substring0_prefix 12 (node_name d)) as [rest Hrest].
    by exists (String.substring 0 12 (node_name d)), rest.
  - split; [done|]. split; [done|lia].
Qed.

(** X15. [truncate(str, n)] leaves a string of at most [n] characters as it
    is.  A longer one becomes its first [n - 1] characters followed by
    three dots, which makes [n + 2] characters, two more than [n]; a
    string of [n + 1] characters comes out one character longer than it
    went in.  For [n <= 0] the result is the three dots alone. *)
Theorem truncate_spec (str : string) (n : Z) :
  ((Z.of_nat (String.length str) ≤ n)%Z → truncate str n = str)
  ∧ ((1 ≤ n < Z.of_nat (String.length str))%Z →
       String.length (truncate str n) = Z.to_nat n + 2
       ∧ ∃ head rest, str = head +:+ rest ∧ String.length head = Z.to_nat n - 1
                      ∧ truncate str n = head +:+ "...")
  ∧ ((1 ≤ n)%Z → Z.of_nat (String.length str) = (n + 1)%Z →
       String.length (truncate str n) = String.length str + 1)
  ∧ ((n ≤ 0)%Z → (n < Z.of_nat (String.length str))%Z → truncate str n = "...").
Proof.
  assert (Hlong : (1 ≤ n < Z.of_nat (String.length str))%Z →
            String.length (truncate str n) = Z.to_nat n + 2
            ∧ ∃ head rest, str = head +:+ rest ∧ String.length head = Z.to_nat n - 1
                           ∧ truncate str n = head +:+ "...").
  { intros [H1 Hlt]. unfold truncate, substr0.
    destruct (Z.ltb_spec n (Z.of_nat (String.length str))) as [_|?]; [|lia].
    assert (Hlen : String.length (String.substring 0 (Z.to_nat (n - 1)) str)
                   = Z.to_nat n - 1).
    { rewrite length_substring0. lia. }
    split; [rewrite length_append, Hlen; simpl; lia|].
    destruct (substring0_prefix (Z.to_nat (n - 1)) str) as [rest Hrest].
    by exists (String.substring 0 (Z.to_nat (n - 1)) str), rest. }
  split; [|split; [exact Hlong|split]].
  - intros Hle. unfold truncate.
    by destruct (Z.ltb_spec n (Z.of_nat (String.length str))) as [?|_]; [lia|].
  - intros H1 Hlen. destruct Hlong as [-> _]; lia.
  - intros H0 Hlt. unfold truncate, substr0.
    destruct (Z.ltb_spec n (Z.of_nat (String.length str))) as [_|?]; [|lia].
    replace (Z.to_nat (n - 1)) with 0 by lia. by destruct str.
Qed.

End Strings.

Section Dates.
Variable Date_parse : string → option Z.
Variable toLocaleDateString : option Z → string.


End Dates.

Section Url.

(** X17. The request URL depends on the investigation id alone.  Without an
    id, or with the empty string as id, it is the bare [/api/graph]; any
    other id is appended verbatim as the query, so two different ids never
    share a URL. *)
Theorem graph_url_spec (c c' : Component) :
  (investigationId c = None ∨ investigationId c = Some "" →
     graph_url c = "/api/graph")
  ∧ (∀ i, investigationId c = Some i → i ≠ "" →
       graph_url c = "/api/graph?investigation_id=" +:+ i
       ∧ graph_url c ≠ "/api/graph")
  ∧ (∀ i j, investigationId c = Some i → investigationId c' = Some j →
       i ≠ "" → j ≠ "" → graph_url c = graph_url c' → i = j).
Proof.
  assert (Hsome : ∀ (k : Component) i, investigationId k = Some i → i ≠ "" →
            graph_url k = "/api/graph?investigation_id=" +:+ i).
  { intros k i Hi Hne. unfold graph_url. rewrite Hi.
    by rewrite bool_decide_false. }
  split; [|split].
  - unfold graph_url. intros [->| ->]; done.
  - intros i Hi Hne. split; [by apply Hsome|].
    rewrite (Hsome c i Hi Hne). done.
  - intros i j Hi Hj Hni Hnj. rewrite (Hsome c i Hi Hni), (Hsome c' j Hj Hnj).
    apply String.app_inj.
Qed.

End Url.

Section ApiFacts.
Context {Response : Type}.
Variable transport : RequestConfig → AxiosError + Response.

(** X18. A request carries the header [Authorization: Bearer <token>] exactly
    when a token that is not the empty string is stored under
    [auth_token]; method, URL and every other header go out as the caller
    gave them. *)
Theorem request_carries_token (config : RequestConfig) (b : Browser) :
  let sent := (api_request transport config b).1.1 in
  config_method sent = config_method config
  ∧ config_url sent = config_url config
  ∧ (∀ k, k ≠ "Authorization" → config_headers sent !! k = config_headers config !! k)
  ∧ (∀ token, localStorage b !! "auth_token" = Some token → token ≠ "" →
       config_headers sent !! "Authorization" = Some ("Bearer " +:+ token))
  ∧ (localStorage b !! "auth_token" = None ∨ localStorage b !! "auth_token" = Some "" →
       sent = config).
Proof.
  assert (Hsent : (api_request transport config b).1.1 = request_interceptor b config).
  { unfold api_request. destruct (transport _); [|done].
    by destruct (response_error_interceptor _ _). }
  cbv zeta. rewrite Hsent. unfold request_interceptor.
  destruct (localStorage b !! "auth_token") as [token|] eqn:Htok.
  - case_bool_decide as He.
    + subst token. repeat split; try done. intros token [= <-]. done.
    + cbn. repeat split; try done.
      * intros k Hk. by rewrite lookup_insert_ne.
      * intros t [= <-] _. by rewrite lookup_insert_eq.
      * intros [?|[= ?]]; done.
  - repeat split; done.
Qed.

(** X19. An answer with status 401 logs the user out: the stored token is
    removed, the page is sent to [/login], and the next request through
    the instance goes out exactly as the caller gave it, without the token.
    Any other failure leaves the browser as it was.  In both cases the
    caller gets the transport's error, and a successful answer changes
    nothing. *)
Theorem unauthorized_logs_out (config next : RequestConfig) (b : Browser) :
  let '(_, b', result) := api_request transport config b in
  match transport (request_interceptor b config) with
  | inl error =>
      result = inl error
      ∧ (error_status error = Some 401%Z →
           localStorage b' !! "auth_token" = None
           ∧ (∀ k, k ≠ "auth_token" → localStorage b' !! k = localStorage b !! k)
           ∧ location_href b' = "/login"
           ∧ (api_request transport next b').1.1 = next)
      ∧ (error_status error ≠ Some 401%Z → b' = b)
  | inr response => result = inr response ∧ b' = b
  end.
Proof.
  unfold api_request at 1.
  destruct (transport (request_interceptor b config)) as [error|response]; [|done].
  unfold response_error_interceptor. case_bool_decide as H401.
  - split; [done|]. split; [|done]. intros _. cbn.
    split; [by rewrite lookup_delete_eq|]. split.
    + intros k Hk. by rewrite lookup_delete_ne.
    + split; [done|].
      assert (Hreq : request_interceptor
                {| localStorage := delete "auth_token" (localStorage b);
                   location_href := "/login" |} next = next).
      { unfold request_interceptor. cbn. by rewrite lookup_delete_eq. }
      unfold api_request. rewrite Hreq. destruct (transport next); [|done].
      by destruct (response_error_interceptor _ _).
  - split; [done|]. split; [done|]. done.
Qed.

End ApiFacts.

Section Dropdown.

(** X20. The bell opens the dropdown and cannot close it.  A press on the
    bell while the dropdown is open first closes it, through the
    listener for a [mousedown] outside the dropdown, and then the click
    toggles it open again, so after a press on the bell the dropdown is
    always open.  A press anywhere else outside the dropdown closes it,
    a press inside changes nothing; the menu button toggles the sidebar
    besides, and the sidebar's own controls close the sidebar. *)
Theorem bell_opens_but_never_closes (s : Shell) :
  showNotifications (press OnBell s) = true
  ∧ sidebarOpen (press OnBell s) = sidebarOpen s
  ∧ (∀ t, dropdown_contains t = false → t ≠ OnBell →
       showNotifications (press t s) = false)
  ∧ press InDropdown s = s
  ∧ sidebarOpen (press OnMenuButton s) = negb (sidebarOpen s)
  ∧ sidebarOpen (press OnSidebarClose s) = false
  ∧ press Elsewhere s = onClose s.
Proof.
  destruct s as [sb [|]]; repeat split; try done.
  - by intros [] Hc Hb.
  - by intros [] Hc Hb.
Qed.

End Dropdown.

(** * Worked examples on the sample graph *)

(** The sample application holds simulation 0 over the working nodes 2 and
    3, copies of the fetched nodes 0 and 1. *)
Example sample_app_shape :
  (comp sample_app ≫= graphData) = Some (mkGraphData [0; 1] [0])
  ∧ (comp sample_app ≫= simulationRef) = Some 0
  ∧ (sim_nodes <$> sims (world sample_app) !! 0) = Some [2; 3]
  ∧ (sim_links <$> sims (world sample_app) !! 0) = Some [1].
Proof. vm_compute. done. Qed.

(** C4 at the sample graph: the working copy of a node is a new object,
    but its [properties] field holds the address of the fetched node's
    properties object, so the copy is one level deep. *)
Theorem working_copy_shares_properties :
  let h := heap (world sample_app) in
  (node_properties <$> nodeObjs h !! 0) = Some 0
  ∧ (node_properties <$> nodeObjs h !! 2) = Some 0
  ∧ propObjs h !! 0 = Some [("age", JsNumber 41)]
  ∧ (link_properties <$> linkObjs h !! 0) = Some (Some 2)
  ∧ (link_properties <$> linkObjs h !! 1) = Some (Some 2).
Proof. vm_compute. done. Qed.

(** A drag of node 0 that ends at (5, 7), then a frame: the node sits at
    (5, 7) with its pin set, and the simulation has cooled by one tick
    towards the target 0 that the end of the drag restored. *)
Example drag_then_frame :
  let a := run (H := sample_d3) sample_app
               [DragStart 0 0; Drag 0 0 5 6; DragEnd 0 0 5 7 0; Frame] in
  ((λ n, (node_x n, node_y n, node_fx n, node_fy n))
     <$> nodeObjs (heap (world a)) !! 2)
  = Some (Some 5%Q, Some 7%Q, Some 5%Q, Some 7%Q)
  ∧ ((λ s, (alphaTarget s, stepper s, ticks s)) <$> sims (world a) !! 0)
    = Some (0%Q, true, 1).
Proof. vm_compute. done. Qed.

(** After a reload the model is made of new node objects: the working copy
    of the dragged node's original has no pin, while the old object keeps
    its own. *)
Example rebuilt_node_is_unpinned :
  let a := run (H := sample_d3) sample_app
               [DragEnd 0 0 5 7 0; Refresh; FetchResolve sample_graph] in
  (sim_nodes <$> sims (world a) !! 1) = Some [6; 7]
  ∧ (node_fx <$> nodeObjs (heap (world a)) !! 6) = Some None
  ∧ (node_fx <$> nodeObjs (heap (world a)) !! 2) = Some (Some 5%Q).
Proof. vm_compute. done. Qed.

(** Eleven presses of zoom-in end at 3, four presses of zoom-out at 0.5. *)
Example zoom_buttons_saturate :
  ((λ c, Qeq_bool (zoom c) 3)
     <$> comp (run (H := sample_d3) sample_app (replicate 11 ZoomIn)))
  = Some true
  ∧ ((λ c, Qeq_bool (zoom c) 0.5)
       <$> comp (run (H := sample_d3) sample_app (replicate 4 ZoomOut)))
    = Some true.
Proof. vm_compute. done. Qed.

(** Node 0 of the sample, dropped at (5, 7), through two frames and a press
    of zoom-in. *)
Lemma dragged_node_stays_pinned_witness :
  ∃ n, nodeObjs (heap (world (run (H := sample_d3)
                                (handle (H := sample_d3) sample_app (DragEnd 0 0 5 7 0))
                                [Frame; ZoomIn; Frame]))) !! 2 = Some n
     ∧ node_fx n = Some 5%Q ∧ node_fy n = Some 7%Q
     ∧ (ticks_of (world (handle (H := sample_d3) sample_app (DragEnd 0 0 5 7 0))) 0
        < ticks_of (world (run (H := sample_d3)
                             (handle (H := sample_d3) sample_app (DragEnd 0 0 5 7 0))
                             [Frame; ZoomIn; Frame])) 0 →
        node_x n = Some 5%Q ∧ node_y n = Some 7%Q).
Proof.
  apply (dragged_node_stays_pinned (H := sample_d3) 5 7 0 0 2 sample_app 0
           [Frame; ZoomIn; Frame]).
  - vm_compute. reflexivity.
  - eexists. vm_compute. reflexivity.
  - simpl. repeat split; discriminate.
Defined.

(** A simulation of d3's defaults with decay 0.0228, as the graph effect
    starts it. *)
Lemma alpha_cools_to_idle_witness :
  let e := sim_restart (sim_alpha 1 (forceSimulation (H := sample_d3) [] empty_heap).1) in
  (∀ n, (alpha (frames (S n) e empty_heap).1 <= alpha (frames n e empty_heap).1)%Q)
  ∧ (∀ n, stepper (frames n e empty_heap).1 = true →
          alpha (frames (S n) e empty_heap).1
          == alpha (frames n e empty_heap).1 * (1 - alphaDecay e))
  ∧ (∀ n, idle_bound (alphaDecay e) ≤ n →
          stepper (frames n e empty_heap).1 = false
          ∧ (alpha (frames n e empty_heap).1 < 0.001)%Q
          ∧ ticks (frames n e empty_heap).1 ≤ idle_bound (alphaDecay e) + ticks e
          ∧ frames (S n) e empty_heap = frames n e empty_heap).
Proof.
  apply alpha_cools_to_idle.
  - reflexivity.
  - reflexivity.
  - reflexivity.
  - split; [reflexivity|]. unfold Qle. simpl. lia.
  - reflexivity.
Defined.

(** A refresh of the sample application retires simulation 0; frames and
    a drag on the new surface do not wake it. *)
Lemma stop_and_replace_witness :
  let a := run (H := sample_d3) sample_app [Refresh] in
  ¬ running (world (run (H := sample_d3)
                      (handle (H := sample_d3) a (FetchResolve sample_graph))
                      [Frame; DragStart 0 0; Frame])) 0
  ∧ ticks_of (world (run (H := sample_d3)
                       (handle (H := sample_d3) a (FetchResolve sample_graph))
                       [Frame; DragStart 0 0; Frame])) 0
    = ticks_of (world a) 0.
Proof.
  intros a.
  eapply (proj1 (proj2 (proj2 (stop_and_replace (H := sample_d3))))).
  - vm_compute. reflexivity.
  - reflexivity.
  - apply lookup_lt_is_Some_2. vm_compute. lia.
  - vm_compute. discriminate.
Defined.

(** C5 fails for a data refresh: after node 0 is selected, a refresh that
    succeeds and installs simulation 1 leaves the selection on the node
    object of the replaced model. *)
Lemma selection_survives_refresh :
  let a := run (H := sample_d3) sample_app [ClickNode 0] in
  let a' := run (H := sample_d3) a [Refresh; FetchResolve sample_graph] in
  selection a = Some 2
  ∧ (comp a' ≫= simulationRef) = Some 1
  ∧ (comp a' ≫= graphData) = Some (mkGraphData [4; 5] [2])
  ∧ selection a' = Some 2
  ∧ selection a' ≠ None.
Proof. vm_compute. repeat split; discriminate. Qed.

(** Selecting the second node of the sample, clicking the background,
    removing the component. *)
Lemma selection_protocol_witness :
  selection (handle (H := sample_d3) sample_app (ClickNode 1)) = Some 3
  ∧ selected_id (handle (H := sample_d3) sample_app (ClickNode 1)) = Some "b"
  ∧ selection (handle (H := sample_d3) sample_app ClickBackground) = None
  ∧ selection (handle (H := sample_d3) sample_app Unmount) = None.
Proof.
  destruct (comp sample_app) as [c|] eqn:Hc; [|vm_compute in Hc; discriminate].
  pose proof (selection_protocol (H := sample_d3) sample_app c Hc)
    as (Hnode & Hback & _ & Hunmount & _).
  assert (Hs : surface_sim c = Some 0).
  { vm_compute in Hc. injection Hc as <-. reflexivity. }
  destruct (Hnode 1 0 3 Hs) as (Hsel & Hid & _); [vm_compute; reflexivity|].
  split; [exact Hsel|]. split; [rewrite Hid; vm_compute; reflexivity|].
  split; [exact (Hback 0 Hs)|exact Hunmount].
Defined.


(** C7 fails: a wheel gesture that asks for scale 2 changes the transform
    on the surface and leaves the [zoom] state at 1. *)
Lemma zoom_state_and_surface_differ :
  let a := run (H := sample_d3) sample_app [PointerZoom 2 0 0] in
  ∃ c svg, comp a = Some c ∧ svgRef c = Some svg
    ∧ zoom c = 1%Q ∧ t_k (zoomTransform svg) = 2%Q
    ∧ ¬ zoom c == t_k (zoomTransform svg).
Proof.
  eexists _, _. split; [vm_compute; reflexivity|]. split; [reflexivity|].
  split; [reflexivity|]. split; [vm_compute; reflexivity|].
  vm_compute. discriminate.
Qed.

(** A gesture that asks for scale 9 on the sample is clamped, and [zoom]
    stays 1. *)
Lemma zoom_paths_witness :
  ∃ c', comp (handle (H := sample_d3) sample_app (PointerZoom 9 3 4)) = Some c'
    ∧ zoom c' = 1%Q
    ∧ (t_k ∘ zoomTransform <$> svgRef c') = Some (constrain_scale 9)
    ∧ (0.1 <= constrain_scale 9 <= 4)%Q.
Proof.
  destruct (comp sample_app) as [c|] eqn:Hc; [|vm_compute in Hc; discriminate].
  destruct (svgRef c) as [svg|] eqn:Hs;
    [|vm_compute in Hc; injection Hc as <-; vm_compute in Hs; discriminate].
  destruct (zoom_paths (H := sample_d3) sample_app c svg Hc Hs) as [_ Hptr].
  destruct (Hptr 9%Q 3%Q 4%Q 0) as (c' & Hc' & Hz & Hsvg & Hrange).
  { vm_compute in Hc. injection Hc as <-. vm_compute in Hs. injection Hs as <-.
    reflexivity. }
  exists c'. split; [exact Hc'|]. split.
  - rewrite Hz. vm_compute in Hc. injection Hc as <-. reflexivity.
  - split; [by rewrite Hsvg|exact Hrange].
Defined.

(** C8 fails: a link to a node that is not in the fetched set makes the
    build throw; the exception is not caught and the component is gone. *)
Lemma dangling_link_is_uncaught :
  let a := run (H := sample_d3) (mount (H := sample_d3) None 800 600)
               [FetchResolve dangling_graph] in
  comp a = None ∧ uncaught a = Some "node not found: ghost".
Proof. vm_compute. done. Qed.

(** The first load of the sample graph. *)
Lemma build_resolves_or_throws_witness :
  let a' := handle (H := sample_d3) (mount (H := sample_d3) None 800 600)
                   (FetchResolve sample_graph) in
  ∃ c' e s, comp a' = Some c' ∧ uncaught a' = None
    ∧ simulationRef c' = Some e ∧ sims (world a') !! e = Some s
    ∧ ids_of (heap (world a')) (sim_nodes s) = ["a"; "b"]
    ∧ link_view (heap (world a')) <$> read_links (heap (world a')) (sim_links s)
      = [(Some "a", Some "b", "works_at")].
Proof.
  destruct (comp (mount (H := sample_d3) None 800 600)) as [c|] eqn:Hc;
    [|vm_compute in Hc; discriminate].
  exact (build_resolves_or_throws (H := sample_d3)
           (mount (H := sample_d3) None 800 600) c sample_graph Hc
           ltac:(vm_compute; discriminate)).
Defined.

(** A refresh of the sample application that fails. *)
Lemma fetch_failure_outcome_witness :
  let a := run (H := sample_d3) sample_app [Refresh] in
  let a' := handle (H := sample_d3) a FetchReject in
  (∃ c', comp a' = Some c' ∧ loading c' = false
     ∧ error c' = Some fetch_error_message
     ∧ graphData c' = Some (mkGraphData [0; 1] [0])
     ∧ simulationRef c' = Some 0)
  ∧ requests (world a') = ["/api/graph"; "/api/graph"]
  ∧ requests (world (run (H := sample_d3) a' [Frame; ZoomIn; ClickNode 0]))
    = ["/api/graph"; "/api/graph"].
Proof.
  intros a a'.
  destruct (comp a) as [c|] eqn:Hc; [|vm_compute in Hc; discriminate].
  destruct (fetch_failure_outcome (H := sample_d3) a c Hc
              ltac:(vm_compute; discriminate))
    as ((c' & Hc' & Hl & He & Hg & Hr) & _ & _ & Hreq & Hquiet).
  split; [|split].
  - exists c'. split; [exact Hc'|]. split; [exact Hl|]. split; [exact He|].
    vm_compute in Hc. injection Hc as <-. split; [rewrite Hg|rewrite Hr]; reflexivity.
  - exact Hreq.
  - apply (Hquiet [Frame; ZoomIn; ClickNode 0]).
    repeat constructor; discriminate.
Defined.

(** C9. A refresh of the sample application that fails.  The [catch] and
    [finally] blocks end the loading state, set the error message and keep
    the graph data, the line under the drawing still reports two entities
    and one relationship, and no request follows the failure.  But the
    [svg] that carried the drawing went when the spinner was shown: the
    [svg] mounted after the failure is empty and later events draw nothing
    on it, so the graph that was rendered is not left in place. *)
Example failed_fetch_loses_drawing :
  let a := sample_app in
  let a' := run (H := sample_d3) a [Refresh; FetchReject] in
  ((comp a ≫= svgRef) ≫= content) = Some 0
  ∧ (loading <$> comp a') = Some false
  ∧ (comp a' ≫= error) = Some fetch_error_message
  ∧ (comp a' ≫= graphData) = (comp a ≫= graphData)
  ∧ (footer <$> comp a') = Some "Showing 2 entities with 1 relationships"
  ∧ requests (world a') = requests (world (run (H := sample_d3) a [Refresh]))
  ∧ (comp a' ≫= svgRef) = Some fresh_svg
  ∧ ((comp (run (H := sample_d3) a'
              [Frame; ZoomIn; ClickNode 0; DragStart 0 0; PointerZoom 2 0 0])
        ≫= svgRef) ≫= content) = None.
Proof. repeat apply conj; vm_compute; reflexivity. Qed.

(** After a load of the weighted graph the first line has the width
    [sqrt(16)], the second, whose link has no properties, [sqrt(2)]. *)
Lemma stroke_width_spec_witness :
  let a1 := handle (H := sample_d3) (mount (H := sample_d3) None 800 600)
                   (FetchResolve weighted_graph) in
  ∃ s l0 d0 l1 d1,
    sims (world a1) !! 0 = Some s
    ∧ sim_links s !! 0 = Some l0 ∧ linkObjs (heap (world a1)) !! l0 = Some d0
    ∧ sim_links s !! 1 = Some l1 ∧ linkObjs (heap (world a1)) !! l1 = Some d1
    ∧ stroke_width (H := sample_d3) (heap (world a1)) d0 = Some 4%Q
    ∧ stroke_width (H := sample_d3) (heap (world a1)) d1
      = Some (Math_sqrt (D3 := sample_d3) 2)
    ∧ Math_sqrt (D3 := sample_d3) 2 ≠ 4%Q.
Proof.
  intros a1.
  destruct (stroke_width_spec (H := sample_d3)) as (_ & _ & Hdrawn).
  assert (Hc : is_Some (comp (mount (H := sample_d3) None 800 600)))
    by (vm_compute; eauto).
  destruct Hc as [c Hc].
  assert (Hc1 : is_Some (comp a1)) by (vm_compute; eauto).
  destruct (Hdrawn (mount (H := sample_d3) None 800 600) c weighted_graph Hc
              ltac:(vm_compute; discriminate) Hc1)
    as (s & _ & Hs & _ & Hk).
  destruct (Hk 0 _ eq_refl) as (l0 & d0 & Hl0 & Hd0 & Hw0).
  destruct (Hk 1 _ eq_refl) as (l1 & d1 & Hl1 & Hd1 & Hw1).
  exists s, l0, d0, l1, d1.
  split; [exact Hs|]. split; [exact Hl0|]. split; [exact Hd0|].
  split; [exact Hl1|]. split; [exact Hd1|].
  split; [exact Hw0|]. split; [exact Hw1|].
  vm_compute. discriminate.
Defined.

(** * Instances of the further properties *)

(** The sample application through a drop of node 0 and a frame: the
    fetched node 0 is what it was. *)
Lemma caller_data_untouched_witness :
  let a := run (H := sample_d3) (mount (H := sample_d3) None 800 600)
               [FetchResolve sample_graph] in
  nodeObjs (heap (world (run (H := sample_d3) a [DragEnd 0 0 5 7 0; Frame]))) !! 0
  = nodeObjs (heap (world a)) !! 0.
Proof.
  intros a.
  assert (Hc : is_Some (comp a)) by (vm_compute; eauto). destruct Hc as [c Hc].
  assert (Hgd : (comp a ≫= graphData) = Some (mkGraphData [0; 1] [0]))
    by (vm_compute; reflexivity).
  rewrite Hc in Hgd. cbn [mbind option_bind] in Hgd.
  destruct (caller_data_untouched (H := sample_d3) None 800 600
              [FetchResolve sample_graph] [DragEnd 0 0 5 7 0; Frame] c
              (mkGraphData [0; 1] [0]) Hc Hgd) as (Hnodes & _).
  apply Hnodes. left.
Defined.

(** One node and its properties object. *)
Lemma copy_nodes_shallow_witness :
  let h := mkHeap [mkNode "a" "Alice" "person" 0 None None None None None None None]
                  [] [[("age", JsNumber 41)]] in
  read_nodes (copy_nodes [0] h).2 (copy_nodes [0] h).1 = read_nodes h [0]
  ∧ propObjs (copy_nodes [0] h).2 = propObjs h.
Proof.
  intros h.
  destruct (copy_nodes_shallow [0] h) as (Hsame & _ & Hprops).
  - apply Forall_cons; [cbn; lia|apply Forall_nil].
  - split; [exact Hsame|exact Hprops].
Defined.

(** Node 0 of the sample is picked up and moved while two frames pass. *)
Lemma held_node_keeps_simulation_running_witness :
  let a' := run (H := sample_d3) (handle (H := sample_d3) sample_app (DragStart 0 0))
                [Frame; Drag 0 0 5 6; Frame] in
  running (world a') 0 ∧ ticks_of (world a') 0 = 2.
Proof.
  assert (Hc : is_Some (comp sample_app)) by (vm_compute; eauto).
  destruct Hc as [c Hc].
  destruct (lookup_lt_is_Some_2 (sims (world sample_app)) 0) as [s Hs];
    [vm_compute; lia|].
  assert (Hsurf : (comp sample_app ≫= surface_sim) = Some 0)
    by (vm_compute; reflexivity).
  rewrite Hc in Hsurf. cbn [mbind option_bind] in Hsurf.
  assert (Hf : (λ s, (alphaMin s, alphaDecay s, alpha s, ticks s))
                 <$> sims (world sample_app) !! 0
               = Some (0.001%Q, 0.0228%Q, 1%Q, 0)) by (vm_compute; reflexivity).
  rewrite Hs in Hf. cbn [fmap option_fmap option_map] in Hf.
  injection Hf as Hmin Hdec Hal Htk.
  destruct (held_node_keeps_simulation_running (H := sample_d3) sample_app c 0 0 2 s
              [Frame; Drag 0 0 5 6; Frame] Hc Hsurf) as (Hrun & Hticks & _).
  - vm_compute. reflexivity.
  - exact Hs.
  - rewrite Hmin. reflexivity.
  - rewrite Hdec. split; unfold Qle; simpl; lia.
  - rewrite Hal. unfold Qle. simpl. lia.
  - apply Forall_cons; [by left|]. apply Forall_cons; [right; by exists 5%Q, 6%Q|].
    apply Forall_cons; [by left|apply Forall_nil].
  - split; [exact Hrun|]. rewrite Hticks, Htk. reflexivity.
Defined.

(** The sample application is removed; a frame passes and a late response
    arrives. *)
Lemma nothing_runs_after_unmount_witness :
  let a := run (H := sample_d3) (mount (H := sample_d3) None 800 600)
               [FetchResolve sample_graph] in
  let gone := handle (H := sample_d3) a Unmount in
  comp (run (H := sample_d3) gone [Frame; FetchResolve sample_graph]) = None
  ∧ ¬ running (world (run (H := sample_d3) gone [Frame; FetchResolve sample_graph])) 0.
Proof.
  intros a gone.
  assert (Hc : is_Some (comp a)) by (vm_compute; eauto).
  destruct Hc as [c Hc].
  destruct (nothing_runs_after_unmount (H := sample_d3) None 800 600
              [FetchResolve sample_graph] [Frame; FetchResolve sample_graph] c Hc)
    as (Hcomp & _ & Hidle).
  split; [exact Hcomp|apply Hidle].
Defined.

(** The first response links to a node that is not there. *)
Lemma failed_build_leaves_simulation_running_witness :
  let a' := handle (H := sample_d3) (mount (H := sample_d3) None 800 600)
                   (FetchResolve dangling_graph) in
  running (world a') 0 ∧ ticks_of (world (handle (H := sample_d3) a' Frame)) 0 = 1.
Proof.
  assert (Hc : is_Some (comp (mount (H := sample_d3) None 800 600))) by (vm_compute; eauto).
  destruct Hc as [c Hc].
  destruct (failed_build_leaves_simulation_running (H := sample_d3)
              (mount (H := sample_d3) None 800 600) c dangling_graph Hc)
    as (Hrun & _ & _ & _ & Htick).
  - vm_compute. discriminate.
  - vm_compute. reflexivity.
  - split; [exact Hrun|exact Htick].
Defined.

(** A refresh of the sample application that fails. *)
Lemma failed_refresh_blanks_drawing_witness :
  let a2 := run (H := sample_d3) sample_app [Refresh; FetchReject] in
  (comp a2 ≫= svgRef) = Some fresh_svg
  ∧ handle (H := sample_d3) a2 (ClickNode 0) = a2.
Proof.
  assert (Hc : is_Some (comp sample_app)) by (vm_compute; eauto).
  destruct Hc as [c Hc].
  destruct (failed_refresh_blanks_drawing (H := sample_d3) sample_app c Hc)
    as (_ & Hsvg & _ & _ & _ & Hinert).
  split; [exact Hsvg|].
  destruct (Hinert _ (or_intror eq_refl) 0 0 1%Q 0%Q 0%Q) as (Hclick & _).
  exact Hclick.
Defined.

(** Node 0 of the sample is pressed; frames pass and the view is zoomed. *)
Lemma pressed_node_stays_put_witness :
  ∃ n, nodeObjs (heap (world (run (H := sample_d3)
                                (handle (H := sample_d3) sample_app (DragStart 0 0))
                                [Frame; ZoomIn; Frame]))) !! 2 = Some n
     ∧ node_fx n = node_x n ∧ node_fy n = node_y n.
Proof.
  assert (Hc : is_Some (comp sample_app)) by (vm_compute; eauto).
  destruct Hc as [c Hc].
  assert (Hsurf : (comp sample_app ≫= surface_sim) = Some 0)
    by (vm_compute; reflexivity).
  rewrite Hc in Hsurf. cbn [mbind option_bind] in Hsurf.
  destruct (lookup_lt_is_Some_2 (nodeObjs (heap (world sample_app))) 2) as [n0 Hn0];
    [vm_compute; lia|].
  assert (Hpos : is_Some (nodeObjs (heap (world sample_app)) !! 2 ≫= node_x)
                 ∧ is_Some (nodeObjs (heap (world sample_app)) !! 2 ≫= node_y))
    by (split; vm_compute; eauto).
  rewrite Hn0 in Hpos. cbn [mbind option_bind] in Hpos.
  destruct Hpos as [[px Hx] [py Hy]].
  destruct (pressed_node_stays_put (H := sample_d3) sample_app c 0 0 0 2 n0 px py
              [Frame; ZoomIn; Frame] Hc Hsurf) as (n & Hn & Hfx & Hfy & Hnx & Hny).
  - vm_compute. reflexivity.
  - exact Hn0.
  - exact Hx.
  - exact Hy.
  - simpl. repeat split; discriminate.
  - exists n. split; [exact Hn|].
    split; [exact (eq_trans Hfx (eq_sym Hnx))|exact (eq_trans Hfy (eq_sym Hny))].
Defined.

(** The one link of the sample application, after a frame. *)
Lemma lines_join_their_nodes_witness :
  let a := run (H := sample_d3) (mount (H := sample_d3) None 800 600)
               [FetchResolve sample_graph; Frame] in
  ∃ o source target,
    linkObjs (heap (world a)) !! 1 = Some o
    ∧ nodeObjs (heap (world a)) !! 2 = Some source
    ∧ nodeObjs (heap (world a)) !! 3 = Some target
    ∧ link_line (heap (world a)) o
      = mkLine (node_translate source).1 (node_translate source).2
               (node_translate target).1 (node_translate target).2.
Proof.
  intros a.
  destruct (lookup_lt_is_Some_2 (sims (world a)) 0) as [s Hs]; [vm_compute; lia|].
  assert (Hlinks : (sim_links <$> sims (world a) !! 0) = Some [1])
    by (vm_compute; reflexivity).
  rewrite Hs in Hlinks. cbn [fmap option_fmap option_map] in Hlinks.
  injection Hlinks as Hlinks.
  assert (Hl : 1 ∈ sim_links s) by (rewrite Hlinks; left).
  destruct (lines_join_their_nodes (H := sample_d3) None 800 600
              [FetchResolve sample_graph; Frame] 0 s 1 Hs Hl)
    as (o & sn & tn & source & target & Ho & Hsrc & Htgt & _ & _ & Hsn & Htn & Hline & _).
  fold a in Ho, Hsn, Htn, Hline.
  assert (Hends : ((λ o, (link_source o, link_target o))
                     <$> linkObjs (heap (world a)) !! 1)
                  = Some (ByRef 2, ByRef 3)) by (vm_compute; reflexivity).
  rewrite Ho in Hends. cbn [fmap option_fmap option_map] in Hends.
  injection Hends as Hs2 Ht3. rewrite Hsrc in Hs2. rewrite Htgt in Ht3.
  injection Hs2 as Hs2. injection Ht3 as Ht3. rewrite Hs2 in Hsn. rewrite Ht3 in Htn.
  exists o, source, target.
  split; [exact Ho|]. split; [exact Hsn|]. split; [exact Htn|exact Hline].
Defined.

(** The first load of the sample graph, then a click on the first node. *)
Lemma click_shows_fetched_node_witness :
  overlay (λ _, "41")
          (run (H := sample_d3) (mount (H := sample_d3) None 800 600)
               [FetchResolve sample_graph; ClickNode 0])
  = Some (mkOverlay "Alice" "person" [("age", "41")]).
Proof.
  assert (Hc : is_Some (comp (mount (H := sample_d3) None 800 600))) by (vm_compute; eauto).
  destruct Hc as [c Hc].
  destruct (click_shows_fetched_node (H := sample_d3) (λ _, "41")
              (mount (H := sample_d3) None 800 600) c sample_graph Hc)
    as [Hshow _].
  - vm_compute. discriminate.
  - vm_compute. eauto.
  - destruct (Hshow 0 alice eq_refl) as [Hpanel _]. exact Hpanel.
Defined.

(** The first load of the sample graph. *)
Lemma footer_reports_last_load_witness :
  footer <$> comp (handle (H := sample_d3) (mount (H := sample_d3) None 800 600)
                          (FetchResolve sample_graph))
  = Some "Showing 2 entities with 1 relationships".
Proof.
  assert (Hc : is_Some (comp (mount (H := sample_d3) None 800 600)))
    by (vm_compute; eauto).
  destruct Hc as [c Hc].
  assert (Hc1 : is_Some (comp (handle (H := sample_d3)
                                 (mount (H := sample_d3) None 800 600)
                                 (FetchResolve sample_graph))))
    by (vm_compute; eauto).
  destruct Hc1 as [c1 Hc1].
  destruct (footer_reports_last_load (H := sample_d3)
              (mount (H := sample_d3) None 800 600) c sample_graph Hc)
    as (_ & Hload & _).
  - vm_compute. discriminate.
  - rewrite Hc1. cbn [fmap option_fmap option_map]. f_equal. apply (Hload c1 Hc1).
Defined.

(** Two presses of the refresh button right after mounting, and two
    responses. *)
Lemma overlapping_loads_apply_in_arrival_order_witness :
  let a := handle (H := sample_d3) (mount (H := sample_d3) None 800 600)
                  (FetchResolve sample_graph) in
  let a2 := run (H := sample_d3) a [Refresh; Refresh] in
  let a3 := handle (H := sample_d3) a2 (FetchResolve sample_graph) in
  let a4 := handle (H := sample_d3) a3 (FetchResolve sample_graph) in
  ¬ running (world a4) (length (sims (world a)))
  ∧ running (world a4) (S (length (sims (world a)))).
Proof.
  intros a a2 a3 a4.
  assert (Hc : is_Some (comp a)) by (vm_compute; eauto). destruct Hc as [c Hc].
  assert (Hc3 : is_Some (comp a3)) by (vm_compute; eauto). destruct Hc3 as [c3 Hc3].
  assert (Hc4 : is_Some (comp a4)) by (vm_compute; eauto). destruct Hc4 as [c4 Hc4].
  destruct (overlapping_loads_apply_in_arrival_order (H := sample_d3) a c
              sample_graph sample_graph Hc) as [_ Hloads].
  destruct (Hloads c3 Hc3) as (_ & _ & _ & _ & Hlast).
  destruct (Hlast c4 Hc4) as (_ & _ & Hold & Hnew).
  split; [exact Hold|exact Hnew].
Defined.

(** Node 0 of the sample is dropped at (5, 7), then the component is given
    another width. *)
Lemma resize_rebuilds_from_fetched_data_witness :
  let a := run (H := sample_d3) (mount (H := sample_d3) None 800 600)
               [FetchResolve sample_graph; DragEnd 0 0 5 7 0] in
  let a' := handle (H := sample_d3) a (Resize 1000 600) in
  (comp a' ≫= surface_sim) = Some (length (sims (world a)))
  ∧ ∃ o d, nodeObjs (heap (world a)) !! 0 = Some o
      ∧ nodeObjs (heap (world a')) !! d = Some (init_node (H := sample_d3) 0 o)
      ∧ node_fx (init_node (H := sample_d3) 0 o) = node_fx o.
Proof.
  intros a a'.
  assert (Hc : is_Some (comp a)) by (vm_compute; eauto).
  destruct Hc as [c Hc].
  assert (Hgd : (comp a ≫= graphData) = Some (mkGraphData [0; 1] [0]))
    by (vm_compute; reflexivity).
  rewrite Hc in Hgd. cbn [mbind option_bind] in Hgd.
  assert (Hsvg : is_Some (comp a ≫= svgRef)) by (vm_compute; eauto).
  rewrite Hc in Hsvg. cbn [mbind option_bind] in Hsvg. destruct Hsvg as [svg Hsvg].
  assert (Hdims : ((λ c, Qeq_bool 1000 (width c) && Qeq_bool 600 (height c))
                     <$> comp a) = Some false) by (vm_compute; reflexivity).
  rewrite Hc in Hdims. cbn [fmap option_fmap option_map] in Hdims.
  injection Hdims as Hdims.
  assert (Hup : is_Some (comp a')) by (vm_compute; eauto).
  destruct (resize_rebuilds_from_fetched_data (H := sample_d3) None 800 600
              [FetchResolve sample_graph; DragEnd 0 0 5 7 0] c
              (mkGraphData [0; 1] [0]) svg 1000 600 Hc Hgd Hsvg Hdims Hup)
    as (Hsurf & s & _ & _ & _ & _ & _ & Hbuilt).
  split; [exact Hsurf|].
  destruct (Hbuilt 0 0 eq_refl) as (o & d & Ho & _ & Hd & Hfx & _).
  exists o, d. split; [exact Ho|]. split; [exact Hd|exact Hfx].
Defined.

(** A person, a company and a node of a type the scale does not know. *)
Lemma node_glyphs_spec_witness :
  ∃ g, node_glyphs
         [mkNode "a" "Alice" "person" 0 None None None None None None None;
          mkNode "b" "Acme" "company" 1 None None None None None None None;
          mkNode "c" "10.0.0.1" "ip_address" 2 None None None None None None None]
       !! 2 = Some g
       ∧ glyph_shape g = ShapeRect ∧ glyph_fill g = Some "#60a5fa".
Proof.
  destruct (node_glyphs_spec
              [mkNode "a" "Alice" "person" 0 None None None None None None None;
               mkNode "b" "Acme" "company" 1 None None None None None None None;
               mkNode "c" "10.0.0.1" "ip_address" 2 None None None None None None None])
    as (_ & _ & _ & Hfirst).
  eexists. split; [vm_compute; reflexivity|]. split; [reflexivity|].
  eapply (Hfirst 2); [reflexivity| |reflexivity].
  vm_compute. do 2 right. left.
Defined.

(** A name of seventeen characters. *)
Lemma node_label_fits_witness :
  String.length (node_label (mkNode "n1" "Northwind Traders" "company" 0
                               None None None None None None None)) = 15.
Proof.
  destruct (node_label_fits (mkNode "n1" "Northwind Traders" "company" 0
                               None None None None None None None))
    as (_ & _ & Hlong).
  apply Hlong. vm_compute. lia.
Defined.

(** Six characters cut at three. *)
Lemma truncate_spec_witness :
  String.length (truncate "abcdef" 3) = 5
  ∧ String.length (truncate "abcd" 3) = String.length "abcd" + 1.
Proof.
  destruct (truncate_spec "abcdef" 3) as (_ & Hlong & _).
  destruct (truncate_spec "abcd" 3) as (_ & _ & Hone & _).
  split.
  - apply Hlong. cbn. lia.
  - apply Hone; cbn; lia.
Defined.


(** Two investigations. *)
Lemma graph_url_spec_witness :
  graph_url (mkComponent (Some "42") 800 600 None false None None 1 None None None)
  = "/api/graph?investigation_id=42".
Proof.
  destruct (graph_url_spec
              (mkComponent (Some "42") 800 600 None false None None 1 None None None)
              (mkComponent (Some "43") 800 600 None false None None 1 None None None))
    as (_ & Hsome & _).
  destruct (Hsome "42" eq_refl) as [Hurl _]; [discriminate|]. exact Hurl.
Defined.

(** A stored token and a server that answers. *)
Lemma request_carries_token_witness :
  config_headers
    (api_request (λ _, inr tt) (mkConfig "get" "/api/graph" ∅)
                 (mkBrowser {["auth_token" := "t0k3n"]} "/")).1.1
  !! "Authorization" = Some "Bearer t0k3n".
Proof.
  destruct (request_carries_token (λ _, inr tt) (mkConfig "get" "/api/graph" ∅)
              (mkBrowser {["auth_token" := "t0k3n"]} "/"))
    as (_ & _ & _ & Htoken & _).
  apply (Htoken "t0k3n"); [reflexivity|discriminate].
Defined.

(** A server that answers 401 to everything. *)
Lemma unauthorized_logs_out_witness :
  let '(_, b', result) :=
    api_request (Response := unit) (λ _, inl (mkAxiosError "Unauthorized" (Some 401%Z)))
                (mkConfig "get" "/api/graph" ∅)
                (mkBrowser {["auth_token" := "t0k3n"]} "/") in
  localStorage b' !! "auth_token" = None ∧ location_href b' = "/login".
Proof.
  pose proof (unauthorized_logs_out (Response := unit)
                (λ _, inl (mkAxiosError "Unauthorized" (Some 401%Z)))
                (mkConfig "get" "/api/graph" ∅) (mkConfig "get" "/api/graph" ∅)
                (mkBrowser {["auth_token" := "t0k3n"]} "/")) as Hout.
  destruct (api_request _ _ _) as [[sent b'] result].
  cbv beta iota in Hout. destruct Hout as (_ & H401 & _).
  destruct (H401 eq_refl) as (Hgone & _ & Hhref & _). by split.
Defined.

(** The dropdown is open and the menu button is pressed. *)
Lemma bell_opens_but_never_closes_witness :
  showNotifications (press OnMenuButton (mkShell true true)) = false.
Proof.
  destruct (bell_opens_but_never_closes (mkShell true true)) as (_ & _ & Hout & _).
  apply Hout; [reflexivity|discriminate].
Defined.
